(** * PullUp: exploration and knowledge pipeline

    A shallow embedding of the crawler ([lib/explorer.js]) and of the
    skill updater ([lib/updater.js]), followed by the properties that
    the design document states about them.

    Layout: the first half holds the embedding (modules [Js],
    [Explorer], [Updater]); the second half holds the theorems. *)

From Stdlib Require Import ZArith String Ascii List Bool Lia Sorted Permutation.
From stdpp Require Import gmap strings list.
From Equations Require Import Equations.
Import ListNotations.

Local Open Scope string_scope.

(* ===================================================================== *)
(** * JavaScript primitives used by the two modules *)
(* ===================================================================== *)

(** Text is a sequence of 8-bit characters; case mapping acts on the
    ASCII letters, which is what [toLowerCase]/[toUpperCase] do on the
    URL paths and keywords the code inspects. *)
Module Js.

(** [s.includes(sub)] *)
Fixpoint includes (s sub : string) : bool :=
  String.prefix sub s ||
  match s with
  | EmptyString => false
  | String _ s' => includes s' sub
  end.

(** [s.startsWith(p)] *)
Definition startsWith (s p : string) : bool := String.prefix p s.

(** [s.endsWith(suf)] *)
Fixpoint endsWith (s suf : string) : bool :=
  String.eqb s suf ||
  match s with
  | EmptyString => false
  | String _ s' => endsWith s' suf
  end.

Definition is_upper (c : ascii) : bool :=
  let n := nat_of_ascii c in (65 <=? n)%nat && (n <=? 90)%nat.
Definition is_lower (c : ascii) : bool :=
  let n := nat_of_ascii c in (97 <=? n)%nat && (n <=? 122)%nat.
Definition is_digit (c : ascii) : bool :=
  let n := nat_of_ascii c in (48 <=? n)%nat && (n <=? 57)%nat.

Definition lower_char (c : ascii) : ascii :=
  if is_upper c then ascii_of_nat (nat_of_ascii c + 32) else c.
Definition upper_char (c : ascii) : ascii :=
  if is_lower c then ascii_of_nat (nat_of_ascii c - 32) else c.

Fixpoint map_chars (f : ascii -> ascii) (s : string) : string :=
  match s with
  | EmptyString => EmptyString
  | String c s' => String (f c) (map_chars f s')
  end.

(** [s.toLowerCase()] *)
Definition toLowerCase : string -> string := map_chars lower_char.

(** [s.split(sep)] for a one-character separator: never the empty
    array, [''.split('.')] is [['']]. *)
Fixpoint split (sep : ascii) (s : string) : list string :=
  match s with
  | EmptyString => [EmptyString]
  | String c s' =>
      if Ascii.eqb c sep then EmptyString :: split sep s'
      else match split sep s' with
           | [] => [String c EmptyString]
           | p :: ps => String c p :: ps
           end
  end.

(** [parts.join(sep)] on an array of strings. *)
Fixpoint join (sep : string) (parts : list string) : string :=
  match parts with
  | [] => EmptyString
  | [p] => p
  | p :: ps => p ++ sep ++ join sep ps
  end.

(** Last character of a string, if any. *)
Fixpoint last_char (s : string) : option ascii :=
  match s with
  | EmptyString => None
  | String c EmptyString => Some c
  | String _ s' => last_char s'
  end.

Fixpoint all_chars (p : ascii -> bool) (s : string) : bool :=
  match s with
  | EmptyString => true
  | String c s' => p c && all_chars p s'
  end.

(** [sep] does not occur in [s]. *)
Definition free_of (sep : ascii) (s : string) : bool :=
  all_chars (fun c => negb (Ascii.eqb c sep)) s.

(** *** Numbers

    The Number values that [parseInt] can return: NaN, the infinities,
    and the integers that are doubles. *)
Inductive Num :=
| NaN
| Inf (negative : bool)
| Fin (z : Z).

Definition Num_eqb (a b : Num) : bool :=
  match a, b with
  | NaN, NaN => true
  | Inf x, Inf y => Bool.eqb x y
  | Fin x, Fin y => (x =? y)%Z
  | _, _ => false
  end.

(** The double nearest to an integer, ties to even: 53 significant
    bits are kept. *)
Definition round_double (z : Z) : Num :=
  let a := Z.abs z in
  if (a <? 2 ^ 53)%Z then Fin z
  else
    let sh := (Z.log2 a - 52)%Z in
    let q := Z.shiftr a sh in
    let r := Z.land a (Z.ones sh) in
    let half := Z.shiftl 1 (sh - 1) in
    let up := (half <? r)%Z || ((r =? half)%Z && Z.odd q) in
    let m := Z.shiftl (if up then q + 1 else q)%Z sh in
    if (2 ^ 1024 <=? m)%Z then Inf (z <? 0)%Z else Fin (Z.sgn z * m).

(** [x + 1] on such a Number. *)
Definition add_one (x : Num) : Num :=
  match x with
  | Fin z => round_double (z + 1)
  | other => other
  end.

Definition digit_char (d : Z) : ascii := ascii_of_nat (48 + Z.to_nat d).

Fixpoint decimal_fuel (fuel : nat) (n : Z) (acc : string) : string :=
  match fuel with
  | O => acc
  | S fuel' =>
      let acc' := String (digit_char (n mod 10)) acc in
      if (n <? 10)%Z then acc' else decimal_fuel fuel' (n / 10) acc'
  end.

(** The decimal numeral of a natural number, without leading zeros. *)
Definition decimal (n : Z) : string :=
  decimal_fuel (S (Z.to_nat (Z.log2 n))) n EmptyString.

Definition ndigits (n : Z) : nat := String.length (decimal n).

Fixpoint zeros (n : nat) : string :=
  match n with
  | O => EmptyString
  | S n' => String "0" (zeros n')
  end.

(** Number::toString for a positive integer [x]: the fewest digits [s]
    (of length [k]) and the scale [n] with [s * 10^(n-k)] rounding to
    [x]; among several, the closest, then the even one. *)
Definition valid_digits (x : Z) (k n : nat) (s : Z) : bool :=
  (10 ^ (Z.of_nat k - 1) <=? s)%Z && (s <? 10 ^ Z.of_nat k)%Z
  && Num_eqb (round_double (s * 10 ^ Z.of_nat (n - k))) (Fin x).

Definition candidates (x : Z) (k : nat) : list (Z * nat) :=
  flat_map
    (fun n =>
       let lo := (x / 10 ^ Z.of_nat (n - k))%Z in
       List.filter (fun c => valid_digits x k (snd c) (fst c))
                   [(lo, n); ((lo + 1)%Z, n)])
    [ndigits x; S (ndigits x)].

Definition distance (x : Z) (k : nat) (c : Z * nat) : Z :=
  Z.abs (fst c * 10 ^ Z.of_nat (snd c - k) - x).

Definition better (x : Z) (k : nat) (c best : Z * nat) : bool :=
  (distance x k c <? distance x k best)%Z
  || ((distance x k c =? distance x k best)%Z && Z.even (fst c)
      && negb (Z.even (fst best))).

Fixpoint closest (x : Z) (k : nat) (cs : list (Z * nat)) : option (Z * nat) :=
  match cs with
  | [] => None
  | c :: cs' =>
      match closest x k cs' with
      | None => Some c
      | Some best => if better x k c best then Some c else Some best
      end
  end.

Fixpoint shortest (fuel k : nat) (x : Z) : Z * nat * nat :=
  match fuel with
  | O => (x, ndigits x, ndigits x)
  | S fuel' =>
      match closest x k (candidates x k) with
      | Some (s, n) => (s, n, k)
      | None => shortest fuel' (S k) x
      end
  end.

Definition format_positive (x : Z) : string :=
  let '(s, n, k) := shortest (ndigits x) 1 x in
  if (n <=? 21)%nat then decimal s ++ zeros (n - k)
  else
    match decimal s with
    | EmptyString => EmptyString
    | String c rest =>
        String c (if (k =? 1)%nat then EmptyString else "." ++ rest)
        ++ "e+" ++ decimal (Z.of_nat n - 1)
    end.

(** ToString applied to a Number. *)
Definition number_to_string (x : Num) : string :=
  match x with
  | NaN => "NaN"
  | Inf false => "Infinity"
  | Inf true => "-Infinity"
  | Fin z =>
      if (z =? 0)%Z then "0"
      else if (z <? 0)%Z then "-" ++ format_positive (- z)
      else format_positive z
  end.

(** *** parseInt *)

Definition is_space (c : ascii) : bool :=
  let n := nat_of_ascii c in
  ((9 <=? n)%nat && (n <=? 13)%nat) || (n =? 32)%nat || (n =? 160)%nat.

Fixpoint trimStart (s : string) : string :=
  match s with
  | String c s' => if is_space c then trimStart s' else s
  | EmptyString => EmptyString
  end.

(** The value of a character as a digit in the given radix. *)
Definition digit_of (radix : Z) (c : ascii) : option Z :=
  let n := Z.of_nat (nat_of_ascii c) in
  let v :=
    if is_digit c then Some (n - 48)%Z
    else if is_lower c then Some (n - 87)%Z
    else if is_upper c then Some (n - 55)%Z
    else None in
  match v with
  | Some d => if (d <? radix)%Z then Some d else None
  | None => None
  end.

(** The value of the longest prefix of digits, [acc] being the value
    read so far ([None]: no digit yet). *)
Fixpoint digits_prefix (radix : Z) (s : string) (acc : option Z) : option Z :=
  match s with
  | EmptyString => acc
  | String c s' =>
      match digit_of radix c with
      | Some d =>
          digits_prefix radix s'
            (Some (radix * match acc with Some a => a | None => 0 end + d)%Z)
      | None => acc
      end
  end.

(** [s.trimEnd()] and [s.trim()] *)
Fixpoint trimEnd (s : string) : string :=
  match s with
  | EmptyString => EmptyString
  | String c s' =>
      match trimEnd s' with
      | EmptyString => if is_space c then EmptyString else String c EmptyString
      | t => String c t
      end
  end.

Definition trim (s : string) : string := trimEnd (trimStart s).

(** [parseInt(s, 10)]: leading white space, a sign, then the longest
    run of decimal digits. *)
Definition parseInt10 (s : string) : Num :=
  let s1 := trimStart s in
  let negative := String.prefix "-" s1 in
  let s2 :=
    if negative || String.prefix "+" s1
    then substring 1 (String.length s1 - 1) s1 else s1 in
  match digits_prefix 10 s2 None with
  | None => NaN
  | Some v => round_double (if negative then - v else v)
  end.

(** [parseInt(s)], no radix given: leading white space, a sign, a
    [0x] prefix, then the longest run of digits. *)
Definition parseInt (s : string) : Num :=
  let s1 := trimStart s in
  let negative := String.prefix "-" s1 in
  let s2 :=
    if negative || String.prefix "+" s1
    then substring 1 (String.length s1 - 1) s1 else s1 in
  let hex := String.prefix "0x" s2 || String.prefix "0X" s2 in
  let radix := if hex then 16%Z else 10%Z in
  let s3 := if hex then substring 2 (String.length s2 - 2) s2 else s2 in
  match digits_prefix radix s3 None with
  | None => NaN
  | Some v => round_double (if negative then - v else v)
  end.

(** JavaScript values as they occur in the JSON snapshots.  Objects and
    arrays are references; numbers are the integral ones. *)
Inductive Val :=
| VUndefined
| VNull
| VBool (b : bool)
| VNum (z : Z)
| VStr (s : string)
| VRef (l : positive).

(** ToBoolean: what [if (v)] and [v || d] test. *)
Definition truthy (v : Val) : bool :=
  match v with
  | VUndefined | VNull => false
  | VBool b => b
  | VNum z => negb (z =? 0)%Z
  | VStr s => negb (String.eqb s "")
  | VRef _ => true
  end.

(** The property names [Object.prototype] defines: [obj[key]] finds
    them on every plain object that has no property of its own under
    that name.  Each is a function, or for [__proto__] the prototype
    object: truthy, and without a [forEach] method. *)
Definition object_prototype_keys : list string :=
  ["constructor"; "__defineGetter__"; "__defineSetter__"; "hasOwnProperty";
   "__lookupGetter__"; "__lookupSetter__"; "isPrototypeOf";
   "propertyIsEnumerable"; "toString"; "valueOf"; "__proto__";
   "toLocaleString"].

Definition inherited (key : string) : bool :=
  existsb (String.eqb key) object_prototype_keys.

End Js.

(* ===================================================================== *)
(** * Effects: state and exceptions *)
(* ===================================================================== *)

Module Eff.

(** A call either throws or returns. *)
Inductive Outcome (A : Type) :=
| Thrown
| Returned (a : A).
Arguments Thrown {A}.
Arguments Returned {A} a.

Section Operations.

Context {S : Type}.

(** An operation on a state [S] that may throw; the state changes made
    before a throw stay. *)
Definition Op (A : Type) : Type := S -> Outcome A * S.

Definition ret {A} (a : A) : Op A := fun st => (Returned a, st).

Definition bind {A B} (m : Op A) (k : A -> Op B) : Op B :=
  fun st =>
    match m st with
    | (Thrown, st') => (Thrown, st')
    | (Returned a, st') => k a st'
    end.

(** The result of a call that does not touch the state. *)
Definition await {A} (o : Outcome A) : Op A := fun st => (o, st).

Definition update (f : S -> S) : Op unit :=
  fun st => (Returned tt, f st).

Definition get : Op S := fun st => (Returned st, st).

(** [try { body } catch (e) { }] *)
Definition tryCatch (body : Op unit) : Op unit :=
  fun st =>
    match body st with
    | (Thrown, st') => (Returned tt, st')
    | (Returned a, st') => (Returned a, st')
    end.

(** [xs.forEach(f)] *)
Fixpoint forEach {A} (f : A -> Op unit) (xs : list A) : Op unit :=
  match xs with
  | [] => ret tt
  | x :: xs' => bind (f x) (fun _ => forEach f xs')
  end.

End Operations.

Arguments Op : clear implicits.

Notation "'let*' x ':=' m 'in' k" := (bind m (fun x => k))
  (at level 10, x name, m at level 100, k at level 200).
Notation "m >> k" := (bind m (fun _ => k))
  (at level 100, k at level 200, right associativity).

End Eff.

(* ===================================================================== *)
(** * URLs *)
(* ===================================================================== *)

(** The three components of a WHATWG [URL] object that the code reads.
    The parser itself is the platform's; the embedding takes it as a
    parameter [parseUrl : string -> option Url.t], where [None] stands
    for the [TypeError] that [new URL(s)] throws. *)
Module Url.

Record t := Make { hostname : string; pathname : string; hash : string }.

(** A small concrete parser for plain absolute URLs
    [scheme://host[:port][/path][?query][#fragment]], used to run the
    model on examples. *)
Fixpoint until (stop : ascii -> bool) (s : string) : string * string :=
  match s with
  | EmptyString => (EmptyString, EmptyString)
  | String c s' =>
      if stop c then (EmptyString, s)
      else let '(a, b) := until stop s' in (String c a, b)
  end.

Fixpoint after_scheme (s : string) : option string :=
  match s with
  | EmptyString => None
  | String c s' =>
      if String.prefix "://" s then Some (substring 3 (String.length s - 3) s)
      else after_scheme s'
  end.

Definition is_one_of (cs : list ascii) (c : ascii) : bool :=
  existsb (Ascii.eqb c) cs.

Definition parse (s : string) : option t :=
  match after_scheme s with
  | None => None
  | Some rest =>
      let '(authority, tail) := until (is_one_of ["/"; "?"; "#"]%char) rest in
      let '(host, _) := until (is_one_of [":"]%char) authority in
      let '(path, tail') := until (is_one_of ["?"; "#"]%char) tail in
      let '(_, frag) := until (is_one_of ["#"]%char) tail' in
      if String.eqb host "" then None
      else Some {| hostname := Js.toLowerCase host;
                   pathname := if String.eqb path "" then "/" else path;
                   hash := if String.eqb frag "#" then "" else frag |}
  end.

End Url.

(* ===================================================================== *)
(** * lib/explorer.js: the exploration engine *)
(* ===================================================================== *)

Module Explorer.
Import Eff.

(** ** Records *)

(** What [page.evaluate] returns in [extractPageData]. *)
Record RawPageData := {
  title : string;
  heading : string;
  description : string;
  bodyText : string
}.

Inductive PageType :=
| Login | Signup | Dashboard | Profile | Contact | About
| Homepage | Detail | ListPage | GenericPage.

(** The string each page type stands for in the source. *)
Definition pageType_name (t : PageType) : string :=
  match t with
  | Login => "login" | Signup => "signup" | Dashboard => "dashboard"
  | Profile => "profile" | Contact => "contact" | About => "about"
  | Homepage => "homepage" | Detail => "detail" | ListPage => "list"
  | GenericPage => "page"
  end.

Record PageRecord := {
  pr_url : string;
  pr_path : string;
  pr_pageName : string;
  pr_pageType : PageType;
  pr_title : string;
  pr_heading : string;
  pr_description : string;
  pr_preview : string
}.

Record FieldRecord := {
  fld_type : string;
  fld_name : string;
  fld_id : string;
  fld_placeholder : string;
  fld_required : bool;
  fld_label : string
}.

Record ButtonRecord := { btn_text : string; btn_type : string }.

Record FormRecord := {
  formIndex : nat;
  action : string;
  method : string;
  fields : list FieldRecord;
  buttons : list ButtonRecord;
  fieldCount : nat
}.

Inductive ElementKind := KButton | KClickable.

Record ElementRecord := {
  el_type : ElementKind;
  el_text : string;
  el_id : string;
  el_classes : string
}.

Record FrontierEntry := { fe_url : string; fe_depth : nat }.

(** ** The browser, seen from the crawler

    A call into the browser either returns or throws ([Outcome]).  A loaded
    document answers each of the extraction queries the crawler makes.
    Every URL is navigated to at most once in a run, so a function from
    URLs is as general as the crawler can observe. *)

Record Document := {
  doc_settle : Outcome unit;                  (* page.waitForTimeout(1000) *)
  doc_data : Outcome RawPageData;             (* evaluate in extractPageData *)
  doc_forms : Outcome (list FormRecord);      (* evaluate in extractForms *)
  doc_buttons : Outcome (list ElementRecord); (* buttons outside forms *)
  doc_clickables : list ElementRecord;        (* [onclick], [role=button] *)
  doc_screenshot : Outcome unit;              (* page.screenshot *)
  doc_hrefs : Outcome (list string)           (* a.href of every a[href] *)
}.

Inductive Navigation :=
| NavFailed                                   (* goto rejected, caught to null *)
| NavResponse (status : Z) (doc : Document).

(** ** Configuration and the engine's fields *)

Record Config := {
  cfg_targetUrl : string;
  cfg_appName : string;
  cfg_maxDepth : option Z;     (* None: undefined or NaN *)
  cfg_maxPages : option Z;
  cfg_verbose : bool
}.


(** The fields set once by the constructor. *)
Record Engine := {
  targetUrl : string;
  appName : string;
  maxDepth : Z;
  maxPages : Z;
  verbose : bool;
  baseDomain : string
}.

(** Observation log of the queue operations, kept beside the program
    state to state ordering properties; the program does not read it. *)
Inductive Event :=
| Enqueue (e : FrontierEntry)        (* toVisit.push *)
| Dequeue (e : FrontierEntry)        (* toVisit.shift *)
| Visit (url : string) (depth : nat) (* explorePage entered *).

(** The tracking data of the engine. [visited] is a [Set]: insertion
    ordered, without duplicates. *)
Record Crawl := {
  visited : list string;
  toVisit : list FrontierEntry;
  discoveredPages : list PageRecord;
  discoveredForms : list FormRecord;
  interactiveElements : list ElementRecord;
  trace : list Event
}.

Definition has (s : list string) (x : string) : bool :=
  existsb (String.eqb x) s.

Definition add (s : list string) (x : string) : list string :=
  if has s x then s else s ++ [x].

(** ** Pure helpers *)

(** [capitalize] *)
Definition capitalize (str : string) : string :=
  match str with
  | EmptyString => EmptyString
  | String c rest => String (Js.upper_char c) rest
  end.

(** [/^\d+$/] *)
Definition all_digits (s : string) : bool :=
  negb (String.eqb s "") && Js.all_chars Js.is_digit s.

Definition is_hex_lower (c : ascii) : bool :=
  Js.is_digit c ||
  (let n := nat_of_ascii c in (97 <=? n)%nat && (n <=? 102)%nat).

(** [/^[0-9a-f]{8}-/] *)
Definition uuid_like (s : string) : bool :=
  (9 <=? String.length s)%nat
  && Js.all_chars is_hex_lower (substring 0 8 s)
  && String.eqb (substring 8 1 s) "-".

(** [/\d+$/]: the text ends with a digit. *)
Definition ends_with_digit (s : string) : bool :=
  match Js.last_char s with
  | Some c => Js.is_digit c
  | None => false
  end.

Definition dash_to_space (c : ascii) : ascii :=
  if Ascii.eqb c "-" || Ascii.eqb c "_" then " "%char else c.

(** [generatePageName] *)
Definition generatePageName (urlPath title : string) : string :=
  if String.eqb urlPath "/" || String.eqb urlPath "" then "Homepage"
  else if (0 <? String.length title)%nat && (String.length title <? 50)%nat
  then title
  else
    let pathParts :=
      List.filter (fun p => negb (String.eqb p "")) (Js.split "/" urlPath) in
    match rev pathParts with
    | [] => "Homepage"
    | lastPart :: before =>
        if all_digits lastPart || uuid_like lastPart then
          match before with
          | secondLast :: _ => capitalize secondLast ++ " Detail"
          | [] => "Detail Page"
          end
        else capitalize (Js.map_chars dash_to_space lastPart)
    end.

(** [classifyPage] *)
Definition classifyPage (data : RawPageData) (path : string) : PageType :=
  let lowerTitle :=
    Js.toLowerCase (title data ++ " " ++ heading data ++ " " ++ path) in
  if Js.includes lowerTitle "login" || Js.includes lowerTitle "sign in"
  then Login
  else if Js.includes lowerTitle "signup" || Js.includes lowerTitle "register"
          || Js.includes lowerTitle "sign up"
  then Signup
  else if Js.includes lowerTitle "dashboard" then Dashboard
  else if Js.includes lowerTitle "profile" || Js.includes lowerTitle "account"
  then Profile
  else if Js.includes lowerTitle "contact" then Contact
  else if Js.includes lowerTitle "about" then About
  else if String.eqb path "/" || String.eqb path "" then Homepage
  else if ends_with_digit path || Js.includes path "detail" then Detail
  else if Js.includes path "list" || Js.includes (bodyText data) "showing"
          || Js.includes (bodyText data) "results"
  then ListPage
  else GenericPage.

(** The classifier as a rule list: tests in priority order, the first
    one that holds decides, [GenericPage] when none does. *)
Definition combined (data : RawPageData) (path : string) : string :=
  Js.toLowerCase (title data ++ " " ++ heading data ++ " " ++ path).

Definition mentions (keywords : list string)
  : RawPageData -> string -> bool :=
  fun data path => existsb (Js.includes (combined data path)) keywords.

Definition classification_rules
  : list ((RawPageData -> string -> bool) * PageType) :=
  [ (mentions ["login"; "sign in"], Login);
    (mentions ["signup"; "register"; "sign up"], Signup);
    (mentions ["dashboard"], Dashboard);
    (mentions ["profile"; "account"], Profile);
    (mentions ["contact"], Contact);
    (mentions ["about"], About);
    (fun _ path => String.eqb path "/" || String.eqb path "", Homepage);
    (fun _ path => ends_with_digit path || Js.includes path "detail", Detail);
    (fun data path =>
       Js.includes path "list"
       || existsb (Js.includes (bodyText data)) ["showing"; "results"],
     ListPage) ].

Fixpoint first_match (rules : list ((RawPageData -> string -> bool) * PageType))
         (data : RawPageData) (path : string) : PageType :=
  match rules with
  | [] => GenericPage
  | (test, type) :: rest =>
      if test data path then type else first_match rest data path
  end.

(** The classification signals held by a page record. *)
Definition signals_of (r : PageRecord) : RawPageData :=
  {| title := pr_title r; heading := pr_heading r;
     description := pr_description r; bodyText := pr_preview r |}.

Definition skipExtensions : list string :=
  [".pdf"; ".jpg"; ".jpeg"; ".png"; ".gif"; ".svg"; ".zip"; ".exe"; ".dmg"].

(** [[...new Set(links)]]: first occurrences, in order. *)
Definition dedupe (links : list string) : list string :=
  fold_left add links [].

(** The filter of [extractLinks]. *)
Definition keep_href (href : string) : bool :=
  negb (String.eqb href "")
  && negb (Js.startsWith href "javascript:")
  && negb (Js.startsWith href "mailto:")
  && negb (Js.startsWith href "tel:").

(** [/[^a-z0-9]/gi] replaced by a dash, then lower case. *)
Definition file_char (c : ascii) : ascii :=
  if Js.is_lower c || Js.is_upper c || Js.is_digit c
  then Js.lower_char c else "-"%char.

(** The file name [captureScreenshot] saves the picture under. *)
Definition screenshot_filename (pageName : string) : string :=
  (Js.map_chars file_char pageName ++ ".png")%string.

(** Projections of the observation log. *)
Fixpoint visits (t : list Event) : list (string * nat) :=
  match t with
  | [] => []
  | Visit url depth :: t' => (url, depth) :: visits t'
  | _ :: t' => visits t'
  end.

Fixpoint dequeues (t : list Event) : list FrontierEntry :=
  match t with
  | [] => []
  | Dequeue e :: t' => e :: dequeues t'
  | _ :: t' => dequeues t'
  end.

Fixpoint enqueues (t : list Event) : list FrontierEntry :=
  match t with
  | [] => []
  | Enqueue e :: t' => e :: enqueues t'
  | _ :: t' => enqueues t'
  end.

(** ** The stateful part *)

Section Engine.

Local Open Scope list_scope.

Variable parseUrl : string -> option Url.t.
Variable web : string -> Navigation.


Variable this : Engine.

(** Operations on the tracking data that may throw. *)
Definition Op (A : Type) : Type := Eff.Op Crawl A.

Definition mark_visited (url : string) (depth : nat) (st : Crawl) : Crawl :=
  {| visited := add (visited st) url;
     toVisit := toVisit st;
     discoveredPages := discoveredPages st;
     discoveredForms := discoveredForms st;
     interactiveElements := interactiveElements st;
     trace := trace st ++ [Visit url depth] |}.

Definition push_entry (e : FrontierEntry) (st : Crawl) : Crawl :=
  {| visited := visited st;
     toVisit := toVisit st ++ [e];
     discoveredPages := discoveredPages st;
     discoveredForms := discoveredForms st;
     interactiveElements := interactiveElements st;
     trace := trace st ++ [Enqueue e] |}.

Definition push_page (p : PageRecord) (st : Crawl) : Crawl :=
  {| visited := visited st;
     toVisit := toVisit st;
     discoveredPages := discoveredPages st ++ [p];
     discoveredForms := discoveredForms st;
     interactiveElements := interactiveElements st;
     trace := trace st |}.

Definition push_forms (fs : list FormRecord) (st : Crawl) : Crawl :=
  {| visited := visited st;
     toVisit := toVisit st;
     discoveredPages := discoveredPages st;
     discoveredForms := discoveredForms st ++ fs;
     interactiveElements := interactiveElements st;
     trace := trace st |}.

Definition push_elements (es : list ElementRecord) (st : Crawl) : Crawl :=
  {| visited := visited st;
     toVisit := toVisit st;
     discoveredPages := discoveredPages st;
     discoveredForms := discoveredForms st;
     interactiveElements := interactiveElements st ++ es;
     trace := trace st |}.

(** [extractPageData] *)
Definition extractPageData (doc : Document) (url : string) : Op PageRecord :=
  let* data := await (doc_data doc) in
  match parseUrl url with
  | None => await Thrown
  | Some u =>
      let urlPath := Url.pathname u in
      ret {| pr_url := url;
             pr_path := urlPath;
             pr_pageName := generatePageName urlPath (title data);
             pr_pageType := classifyPage data urlPath;
             pr_title := title data;
             pr_heading := heading data;
             pr_description := description data;
             pr_preview := bodyText data |}
  end.

(** [extractForms] *)
Definition extractForms (doc : Document) : Op (list FormRecord) :=
  await (doc_forms doc).

(** [extractInteractiveElements]: at most 20 per page. *)
Definition extractInteractiveElements (doc : Document)
  : Op (list ElementRecord) :=
  let* bs := await (doc_buttons doc) in
  ret (firstn 20 (bs ++ doc_clickables doc)).

(** [extractLinks] *)
Definition extractLinks (doc : Document) : Op (list string) :=
  let* hrefs := await (doc_hrefs doc) in
  ret (dedupe (List.filter keep_href hrefs)).

(** [captureScreenshot]: failures are swallowed. *)
Definition captureScreenshot (doc : Document) (pageName : string) : Op unit :=
  tryCatch (await (doc_screenshot doc)).

(** [this.visited.values().next().value || this.targetUrl] *)
Definition first_visited_or_target (st : Crawl) : string :=
  match visited st with
  | v :: _ => if String.eqb v "" then targetUrl this else v
  | [] => targetUrl this
  end.

(** [shouldFollowLink]; any throw inside yields [false]. *)
Definition shouldFollowLink (st : Crawl) (url : string) : bool :=
  match parseUrl url with
  | None => false
  | Some linkUrl =>
      if negb (String.eqb (Url.hostname linkUrl) (baseDomain this)) then false
      else if existsb
                (fun ext => Js.endsWith (Js.toLowerCase (Url.pathname linkUrl)) ext)
                skipExtensions
      then false
      else
        match parseUrl (first_visited_or_target st) with
        | None => false
        | Some ref =>
            if String.eqb (Url.pathname linkUrl) (Url.pathname ref)
               && negb (String.eqb (Url.hash linkUrl) "")
            then false
            else true
        end
  end.

(** The loop over the links of a page. *)
Definition follow_link (depth : nat) (st : Crawl) (link : string) : Crawl :=
  if shouldFollowLink st link && negb (has (visited st) link)
  then push_entry {| fe_url := link; fe_depth := depth + 1 |} st
  else st.

Definition enqueue_links (depth : nat) (links : list string) (st : Crawl)
  : Crawl :=
  fold_left (follow_link depth) links st.

(** [explorePage] *)
Definition explorePage (url : string) (depth : nat) : Op unit :=
  tryCatch (
    update (mark_visited url depth) >>
    match web url with
    | NavFailed => ret tt
    | NavResponse status doc =>
        if (400 <=? status)%Z then ret tt
        else
          await (doc_settle doc) >>
          let* pageData := extractPageData doc url in
          update (push_page pageData) >>
          let* forms := extractForms doc in
          update (push_forms forms) >>
          let* elements := extractInteractiveElements doc in
          update (push_elements elements) >>
          captureScreenshot doc (pr_pageName pageData) >>
          let* links := extractLinks doc in
          update (enqueue_links depth links)
    end).

(** The guard of the crawl loop. *)
Definition loop_guard (st : Crawl) : bool :=
  (0 <? length (toVisit st))%nat
  && (Z.of_nat (length (visited st)) <? maxPages this)%Z.

Definition shift (current : FrontierEntry) (rest : list FrontierEntry)
           (st : Crawl) : Crawl :=
  {| visited := visited st;
     toVisit := rest;
     discoveredPages := discoveredPages st;
     discoveredForms := discoveredForms st;
     interactiveElements := interactiveElements st;
     trace := trace st ++ [Dequeue current] |}.

(** One turn of the crawl loop, entered with the guard true. *)
Definition loop_body (st : Crawl) : Outcome unit * Crawl :=
  match toVisit st with
  | [] => (Returned tt, st)
  | current :: rest =>
      let st1 := shift current rest st in
      if has (visited st1) (fe_url current)
         || (Z.of_nat (fe_depth current) >? maxDepth this)%Z
      then (Returned tt, st1)
      else explorePage (fe_url current) (fe_depth current) st1
  end.

(** *** Termination of the crawl loop

    Every turn either discards one queue entry or visits a new URL,
    which uses up one unit of the page budget. *)

Definition budget (st : Crawl) : nat :=
  Z.to_nat (maxPages this - Z.of_nat (length (visited st))).

Definition measure (st : Crawl) : nat * nat :=
  (budget st, length (toVisit st)).

(** Lexicographic order on (budget, queue length). *)
Definition crawl_order : nat * nat -> nat * nat -> Prop :=
  Subterm.lexprod nat nat lt lt.

#[local] Instance crawl_order_wf : WellFounded crawl_order :=
  Subterm.wf_lexprod nat nat lt lt lt_wf lt_wf.

Lemma follow_link_visited depth st link :
  visited (follow_link depth st link) = visited st.
Proof. unfold follow_link. destruct (_ && _); reflexivity. Qed.

Lemma enqueue_links_visited depth links st :
  visited (enqueue_links depth links st) = visited st.
Proof.
  unfold enqueue_links. revert st.
  induction links as [|l ls IH]; intros st; simpl; [reflexivity|].
  rewrite IH. apply follow_link_visited.
Qed.

Lemma explorePage_visited url depth st :
  visited (snd (explorePage url depth st)) = add (visited st) url.
Proof.
  unfold explorePage, tryCatch, bind, update, ret, await, extractPageData,
    extractForms, extractInteractiveElements, extractLinks,
    captureScreenshot, tryCatch, bind, ret, await.
  destruct (web url) as [|status doc]; simpl; [reflexivity|].
  destruct (400 <=? status)%Z; simpl; [reflexivity|].
  destruct (doc_settle doc); simpl; [reflexivity|].
  destruct (doc_data doc); simpl; [reflexivity|].
  destruct (parseUrl url); simpl; [|reflexivity].
  destruct (doc_forms doc); simpl; [reflexivity|].
  destruct (doc_buttons doc); simpl; [reflexivity|].
  destruct (doc_screenshot doc); simpl;
    (destruct (doc_hrefs doc); simpl;
     [reflexivity | apply enqueue_links_visited]).
Qed.

Lemma add_new_length s x :
  has s x = false -> length (add s x) = S (length s).
Proof.
  intros H. unfold add. rewrite H, length_app. simpl. lia.
Qed.

Lemma loop_body_decreases st r st' :
  loop_guard st = true ->
  loop_body st = (r, st') ->
  crawl_order (measure st') (measure st).
Proof.
  unfold crawl_order, loop_guard, loop_body, measure, budget.
  intros Hg Hb. apply andb_true_iff in Hg as [Hq Hv].
  apply Z.ltb_lt in Hv.
  destruct (toVisit st) as [|current rest] eqn:Hqueue;
    [simpl in Hq; discriminate|].
  destruct (has (visited (shift current rest st)) (fe_url current)
            || (Z.of_nat (fe_depth current) >? maxDepth this)%Z) eqn:Hskip.
  - inversion Hb; subst; simpl. apply Subterm.right_lex. lia.
  - apply orb_false_iff in Hskip as [Hnew _]. simpl in Hnew.
    assert (Hvis : visited st' = add (visited st) (fe_url current)).
    { change st' with (snd (r, st')). rewrite <- Hb.
      apply (explorePage_visited _ _ (shift current rest st)). }
    rewrite Hvis, (add_new_length _ _ Hnew). apply Subterm.left_lex. lia.
Qed.

Definition inspect {A} (a : A) : {b : A | a = b} := exist _ a eq_refl.

(** The crawl loop: [while (guard) { body }].  An exception escaping
    the body would end the loop and the run. *)
Equations? crawl (st : Crawl) : Outcome unit * Crawl
  by wf (measure st) crawl_order :=
  crawl st with inspect (loop_guard st) := {
    | exist _ false _ => (Returned tt, st)
    | exist _ true Hguard with inspect (loop_body st) := {
        | exist _ (Thrown, st') _ => (Thrown, st')
        | exist _ (Returned _, st') Hbody => crawl st' } }.
Proof. eapply loop_body_decreases; eassumption. Qed.

(** The same loop unrolled at most [fuel] times; [None] when the
    fuel runs out first.  It evaluates by computation and agrees with
    [crawl] whenever it answers. *)
Fixpoint crawl_fuel (fuel : nat) (st : Crawl) : option (Outcome unit * Crawl) :=
  if loop_guard st then
    match fuel with
    | O => None
    | S fuel' =>
        match loop_body st with
        | (Thrown, st') => Some (Thrown, st')
        | (Returned _, st') => crawl_fuel fuel' st'
        end
    end
  else Some (Returned tt, st).

Definition initial : Crawl :=
  {| visited := []; toVisit := []; discoveredPages := [];
     discoveredForms := []; interactiveElements := []; trace := [] |}.

(** The state the loop starts from: the target URL at depth 0. *)
Definition seeded : Crawl :=
  push_entry {| fe_url := targetUrl this; fe_depth := 0 |} initial.

Record Statistics := {
  pagesExplored : nat;
  formsFound : nat;
  flowsIdentified : nat
}.

Record ExplorationData := {
  ed_appName : string;
  ed_baseUrl : string;
  ed_pages : list PageRecord;
  ed_forms : list FormRecord;
  ed_flows : list string;
  ed_elements : list ElementRecord;
  ed_statistics : Statistics
}.

Definition report (st : Crawl) : ExplorationData :=
  {| ed_appName := appName this;
     ed_baseUrl := targetUrl this;
     ed_pages := discoveredPages st;
     ed_forms := discoveredForms st;
     ed_flows := [];
     ed_elements := interactiveElements st;
     ed_statistics :=
       {| pagesExplored := length (visited st);
          formsFound := length (discoveredForms st);
          flowsIdentified := 0 |} |}.

(** [explore], from the seeding of the queue to the returned record
    (the elapsed time in the statistics is left out). *)
Definition explore : Outcome ExplorationData * Crawl :=
  match crawl seeded with
  | (Thrown, st) => (Thrown, st)
  | (Returned _, st) => (Returned (report st), st)
  end.

(** *** Vocabulary for the properties *)

(** The states the loop passes through when started from [st]. *)
Inductive reaches (st : Crawl) : Crawl -> Prop :=
| reaches_here : reaches st st
| reaches_turn st' :
    reaches st st' -> loop_guard st' = true ->
    reaches st (snd (loop_body st')).

(** The links a visit of [url] hands to its enqueue loop: none unless
    every step up to [extractLinks] succeeds. *)
Definition links_of (url : string) : list string :=
  match web url with
  | NavFailed => []
  | NavResponse status doc =>
      if (400 <=? status)%Z then []
      else
        match doc_settle doc, doc_data doc, parseUrl url,
              doc_forms doc, doc_buttons doc, doc_hrefs doc with
        | Returned _, Returned _, Some _, Returned _, Returned _, Returned hrefs =>
            dedupe (List.filter keep_href hrefs)
        | _, _, _, _, _, _ => []
        end
  end.

(** URLs connected to the target URL through such links. *)
Inductive Linked : string -> Prop :=
| Linked_target : Linked (targetUrl this)
| Linked_via u v : Linked u -> In v (links_of u) -> Linked v.

(** The test of the enqueue loop. *)
Definition accepts (st : Crawl) (link : string) : bool :=
  shouldFollowLink st link && negb (has (visited st) link).

Definition entries_at (depth : nat) (links : list string) : list FrontierEntry :=
  map (fun link => {| fe_url := link; fe_depth := depth + 1 |}) links.

(** The path of a parsed URL ends in one of [skipExtensions]. *)
Definition has_skip_extension (u : Url.t) : bool :=
  existsb (fun ext => Js.endsWith (Js.toLowerCase (Url.pathname u)) ext)
          skipExtensions.

(** A URL on the starting host that does not name a skipped resource. *)
Definition followable (url : string) : Prop :=
  exists u, parseUrl url = Some u
            /\ Url.hostname u = baseDomain this
            /\ has_skip_extension u = false.


(** Ways a visit can fail.  The first group strikes before the page
    record is pushed, the second after. *)
Definition fails_to_load (url : string) : Prop :=
  web url = NavFailed
  \/ exists status doc,
       web url = NavResponse status doc
       /\ ((400 <= status)%Z
           \/ doc_settle doc = Thrown
           \/ doc_data doc = Thrown
           \/ parseUrl url = None).

Definition fails_after_load (url : string) : Prop :=
  exists status doc,
    web url = NavResponse status doc
    /\ (doc_forms doc = Thrown
        \/ doc_buttons doc = Thrown
        \/ doc_hrefs doc = Thrown).

(** *** Invariants of the loop *)

(** The entries one visit appends: links of the page that pass the
    enqueue test in the state right after the URL was marked visited. *)
Definition appended (url : string) (depth : nat) (st : Crawl) : list FrontierEntry :=
  entries_at depth
    (List.filter (accepts (mark_visited url depth st)) (links_of url)).

(** One turn of the loop either discards the head of the queue or
    visits it. *)
Inductive turn (st st' : Crawl) : Prop :=
| turn_skip current rest :
    toVisit st = current :: rest ->
    (In (fe_url current) (visited st)
     \/ (Z.of_nat (fe_depth current) > maxDepth this)%Z) ->
    st' = shift current rest st ->
    turn st st'
| turn_visit current rest :
    toVisit st = current :: rest ->
    ~ In (fe_url current) (visited st) ->
    (Z.of_nat (fe_depth current) <= maxDepth this)%Z ->
    (Z.of_nat (length (visited st)) < maxPages this)%Z ->
    visited st' = visited st ++ [fe_url current] ->
    toVisit st' = rest ++ appended (fe_url current) (fe_depth current) (shift current rest st) ->
    trace st' = trace st ++ Dequeue current
                  :: Visit (fe_url current) (fe_depth current)
                  :: map Enqueue (appended (fe_url current) (fe_depth current)
                                           (shift current rest st)) ->
    turn st st'.

(** Page budget, depth ceiling, no revisits. *)
Record bounded (st : Crawl) : Prop := {
  bounded_nodup : List.NoDup (visited st);
  bounded_log : visited st = map fst (visits (trace st));
  bounded_pages : (Z.of_nat (length (visited st)) <= Z.max 0 (maxPages this))%Z;
  bounded_depth :
    forall url depth, In (url, depth) (visits (trace st)) ->
                      (Z.of_nat depth <= maxDepth this)%Z
}.

(** Everything visited or queued is linked from the target. *)
Record linked (st : Crawl) : Prop := {
  linked_visited : forall u, In u (visited st) -> Linked u;
  linked_queue : forall e, In e (toVisit st) -> Linked (fe_url e)
}.

(** First in, first out. *)
Record fifo (st : Crawl) : Prop := {
  fifo_queue : enqueues (trace st) = dequeues (trace st) ++ toVisit st;
  fifo_dequeues :
    StronglySorted le (map fe_depth (dequeues (trace st))
                       ++ map fe_depth (toVisit st));
  fifo_visits :
    StronglySorted le (map snd (visits (trace st))
                       ++ map fe_depth (toVisit st));
  fifo_window :
    forall e e', In e (toVisit st) -> In e' (toVisit st) ->
                 fe_depth e' <= fe_depth e + 1
}.

(** Where queue entries come from. *)
Definition seed : FrontierEntry := {| fe_url := targetUrl this; fe_depth := 0 |}.

(** [e] was found on a page visited at the depth just above. *)
Definition discovered (st : Crawl) (e : FrontierEntry) : Prop :=
  followable (fe_url e)
  /\ exists u d, In (u, d) (visits (trace st))
                 /\ fe_depth e = d + 1
                 /\ In (fe_url e) (links_of u).

Record provenance (st : Crawl) : Prop := {
  prov_enqueued :
    forall e, In e (enqueues (trace st)) -> e = seed \/ discovered st e;
  prov_fresh :
    forall t1 e t2, trace st = t1 ++ Enqueue e :: t2 ->
                    ~ In (fe_url e) (map fst (visits t1))
}.

(** What has been recorded: at most one page record per URL, only for
    visited URLs that loaded, each record being what [extractPageData]
    returns for the document of its URL; at most 20 elements per
    recorded page. *)
Record recorded (st : Crawl) : Prop := {
  rec_urls : List.NoDup (map pr_url (discoveredPages st));
  rec_visited : forall p, In p (discoveredPages st) -> In (pr_url p) (visited st);
  rec_loaded :
    forall p, In p (discoveredPages st) ->
      exists status doc,
        web (pr_url p) = NavResponse status doc
        /\ (status < 400)%Z
        /\ doc_settle doc = Returned tt
        /\ forall s, extractPageData doc (pr_url p) s = (Returned p, s);
  rec_elements :
    length (interactiveElements st) <= 20 * length (discoveredPages st)
}.

(** The URL the anchor test of [shouldFollowLink] compares with is the
    target URL: nothing is visited yet and the queue holds at most the
    seed, or the target URL was visited first. *)
Definition anchored (st : Crawl) : Prop :=
  (visited st = [] /\ (toVisit st = [] \/ toVisit st = [seed]))
  \/ exists rest, visited st = targetUrl this :: rest.

(** The link filter of a run: on the starting host, not a skipped
    resource, and not an anchor into the path of the target URL. *)
Definition followed_in_run (link : string) : Prop :=
  exists u t,
    parseUrl link = Some u
    /\ Url.hostname u = baseDomain this
    /\ has_skip_extension u = false
    /\ parseUrl (targetUrl this) = Some t
    /\ (Url.pathname u <> Url.pathname t \/ Url.hash u = "").

End Engine.

End Explorer.

(* ===================================================================== *)
(** * lib/updater.js: the skill updater *)
(* ===================================================================== *)

Module Updater.
Import Eff.

(** ** Snapshots in memory

    Page objects, form objects and the history array are mutated by the
    merge and are shared between the snapshots that hold them, so they
    live in a heap and the snapshots hold references.  The other parts
    of a snapshot are not written to and are kept as values. *)

Definition loc := positive.

Record Page := {
  path : string;
  customData : Js.Val;               (* VUndefined when absent *)
  page_rest : list (string * Js.Val) (* the properties the merge ignores *)
}.

Record Form := {
  action : string;
  customTestData : Js.Val;
  form_rest : list (string * Js.Val)
}.

Record HistoryEntry := {
  date : string;
  previousVersion : string;
  newVersion : string;
  pagesAdded : nat;
  formsAdded : Z;
  flowsAdded : Z
}.

Record Heap := {
  pages_at : gmap loc Page;
  forms_at : gmap loc Form;
  histories_at : gmap loc (list HistoryEntry)
}.

(** An [AppKnowledge] or analysis object.  [pages] lists the categories
    in the order [for ... in] enumerates them. *)
Record Knowledge := {
  version : string;
  pages : list (string * list loc);
  forms : list loc;
  userFlows : list Js.Val;
  updateHistory : option loc;
  removedForms : option (list string);
  other : list (string * Js.Val)
}.

Section Merge.

Local Open Scope list_scope.

Variable parseUrl : string -> option Url.t.

(** *** Reading and writing objects *)

(** Reading a property of [undefined] throws. *)
Definition read_page (l : loc) : Op Heap Page :=
  fun h =>
    match pages_at h !! l with
    | Some p => (Returned p, h)
    | None => (Thrown, h)
    end.

Definition read_form (l : loc) : Op Heap Form :=
  fun h =>
    match forms_at h !! l with
    | Some f => (Returned f, h)
    | None => (Thrown, h)
    end.

Definition read_history (l : loc) : Op Heap (list HistoryEntry) :=
  fun h =>
    match histories_at h !! l with
    | Some es => (Returned es, h)
    | None => (Thrown, h)
    end.

Definition set_page (l : loc) (p : Page) (h : Heap) : Heap :=
  {| pages_at := <[l := p]> (pages_at h);
     forms_at := forms_at h;
     histories_at := histories_at h |}.

Definition set_form (l : loc) (f : Form) (h : Heap) : Heap :=
  {| pages_at := pages_at h;
     forms_at := <[l := f]> (forms_at h);
     histories_at := histories_at h |}.

Definition set_history (l : loc) (es : list HistoryEntry) (h : Heap) : Heap :=
  {| pages_at := pages_at h;
     forms_at := forms_at h;
     histories_at := <[l := es]> (histories_at h) |}.

(** A new empty array. *)
Definition new_history : Op Heap loc :=
  fun h =>
    let l := fresh (dom (histories_at h)) in
    (Returned l, set_history l [] h).

(** *** The version bump *)

(** [parts[1] = x] on the result of [split], which is never empty:
    replaces the second element, or appends to a one-element array. *)
Definition assign_second (x : string) (parts : list string) : list string :=
  match parts with
  | [] => [EmptyString; x]
  | [a] => [a; x]
  | a :: _ :: rest => a :: x :: rest
  end.

(** Lines 95 to 97; [parseInt(undefined)] reads the text "undefined". *)
Definition next_version (v : string) : string :=
  let versionParts := Js.split "." v in
  let minor := Js.add_one (Js.parseInt (List.nth 1 versionParts "undefined")) in
  Js.join "." (assign_second (Js.number_to_string minor) versionParts).

(** The version strings the design document speaks of: a dotted
    semantic version MAJOR.MINOR.PATCH, each part a decimal numeral
    without leading zeros. *)
Definition semver (major minor patch : Z) : string :=
  (Js.decimal major ++ "." ++ Js.decimal minor ++ "." ++ Js.decimal patch)%string.

(** The number a component stands for, when it is a numeral. *)
Definition numeral (s : string) : option Z :=
  if negb (String.eqb s "") && Js.all_chars Js.is_digit s
  then Js.digits_prefix 10 s None else None.

Fixpoint numerals (parts : list string) : option (list Z) :=
  match parts with
  | [] => Some []
  | p :: ps =>
      match numeral p, numerals ps with
      | Some n, Some ns => Some (n :: ns)
      | _, _ => None
      end
  end.

(** Precedence of versions: numeric components compared left to right. *)
Fixpoint precedes (a b : list Z) : bool :=
  match a, b with
  | x :: a', y :: b' => (x <? y)%Z || ((x =? y)%Z && precedes a' b')
  | [], _ :: _ => true
  | _, _ => false
  end.

Definition version_lt (v w : string) : bool :=
  match numerals (Js.split "." v), numerals (Js.split "." w) with
  | Some a, Some b => precedes a b
  | _, _ => false
  end.

(** *** Pages *)

(** [existingPages.forEach(p => existingMap.set(p.path, p))] *)
Fixpoint index_by_path (ps : list loc) (m : gmap string loc)
  : Op Heap (gmap string loc) :=
  match ps with
  | [] => ret m
  | l :: ps' =>
      let* p := read_page l in
      index_by_path ps' (<[path p := l]> m)
  end.

(** The body of [newPages.forEach]. *)
Definition carry_customData (existingMap : gmap string loc) (l : loc)
  : Op Heap unit :=
  let* newPage := read_page l in
  match existingMap !! path newPage with
  | None => ret tt
  | Some le =>
      let* existingPage := read_page le in
      if Js.truthy (customData existingPage)
      then update (set_page l {| path := path newPage;
                                 customData := customData existingPage;
                                 page_rest := page_rest newPage |})
      else ret tt
  end.

(** [pages[category] || []] for a name that is a property of [pages]
    itself, or that no object inherits. *)
Definition category (c : string) (ps : list (string * list loc)) : list loc :=
  match List.find (fun kv => String.eqb (fst kv) c) ps with
  | Some kv => snd kv
  | None => []
  end.

(** [existingPages] as the receiver of [forEach].  The lookup
    [existing.pages[category]] walks the prototype chain: for a name
    that [existing.pages] does not have itself but [Object.prototype]
    has, it gives a function or an object, [|| []] keeps it, and the
    call [existingPages.forEach] throws a TypeError. *)
Definition existing_category (c : string) (ps : list (string * list loc))
  : Outcome (list loc) :=
  match List.find (fun kv => String.eqb (fst kv) c) ps with
  | Some kv => Returned (snd kv)
  | None => if Js.inherited c then Thrown else Returned []
  end.

(** The body of [for (const category in merged.pages)]; [category] is a
    property of [merged.pages] itself there. *)
Definition merge_category (existing merged : Knowledge) (c : string)
  : Op Heap unit :=
  let newPages := category c (pages merged) in
  let* existingPages := await (existing_category c (pages existing)) in
  let* existingMap := index_by_path existingPages ∅ in
  forEach (carry_customData existingMap) newPages.

Definition merge_pages (existing merged : Knowledge) : Op Heap unit :=
  forEach (merge_category existing merged) (map fst (pages merged)).

(** *** Forms *)

(** [new URL(f.action).pathname] *)
Definition pathname_of (f : Form) : Op Heap string :=
  match parseUrl (action f) with
  | Some u => ret (Url.pathname u)
  | None => await Thrown
  end.

(** [forms.map(f => new URL(f.action).pathname)] *)
Fixpoint form_paths (fs : list loc) : Op Heap (list string) :=
  match fs with
  | [] => ret []
  | l :: fs' =>
      let* f := read_form l in
      let* p := pathname_of f in
      let* ps := form_paths fs' in
      ret (p :: ps)
  end.

(** [existing.forms.find(f => pathname(f) === pathname(newForm))] *)
Fixpoint find_form (newForm : Form) (fs : list loc) : Op Heap (option loc) :=
  match fs with
  | [] => ret None
  | l :: fs' =>
      let* f := read_form l in
      let* pf := pathname_of f in
      let* pn := pathname_of newForm in
      if String.eqb pf pn then ret (Some l) else find_form newForm fs'
  end.

(** The body of [merged.forms.forEach]. *)
Definition carry_customTestData (existing : Knowledge) (l : loc)
  : Op Heap unit :=
  let* newForm := read_form l in
  let* found := find_form newForm (forms existing) in
  match found with
  | None => ret tt
  | Some le =>
      let* existingForm := read_form le in
      if Js.truthy (customTestData existingForm)
      then update (set_form l {| action := action newForm;
                                 customTestData := customTestData existingForm;
                                 form_rest := form_rest newForm |})
      else ret tt
  end.

(** *** History *)

(** [Object.values(k.pages).flat()] *)
Definition page_locs (k : Knowledge) : list loc := concat (map snd (pages k)).

Fixpoint paths_of (ps : list loc) : Op Heap (list string) :=
  match ps with
  | [] => ret []
  | l :: ps' =>
      let* p := read_page l in
      let* rest := paths_of ps' in
      ret (path p :: rest)
  end.

(** [countNewPages] *)
Definition countNewPages (existing merged : Knowledge) : Op Heap nat :=
  let* existingPaths := paths_of (page_locs existing) in
  let* mergedPaths := paths_of (page_locs merged) in
  ret (length (List.filter (fun p => negb (Explorer.has existingPaths p))
                           mergedPaths)).

(** The text of a count in a template literal. *)
Definition count_text (n : Z) : string := Js.number_to_string (Js.Fin n).

(** The [updates] array of [generateUpdateSummary]. *)
Definition summary_updates (pagesAdded : nat) (formDiff flowDiff : Z)
  : list string :=
  (if (0 <? Z.of_nat pagesAdded)%Z
   then [(count_text (Z.of_nat pagesAdded) ++ " new pages discovered")%string]
   else [])
  ++ (if (0 <? formDiff)%Z
      then [(count_text formDiff ++ " new forms found")%string]
      else if (formDiff <? 0)%Z
           then [(count_text (Z.abs formDiff) ++ " forms removed")%string]
           else [])
  ++ (if (0 <? flowDiff)%Z
      then [(count_text flowDiff ++ " new flows identified")%string]
      else []).

(** [generateUpdateSummary] *)
Definition generateUpdateSummary (existing merged : Knowledge)
  : Op Heap string :=
  let* pagesAdded := countNewPages existing merged in
  let formDiff := (Z.of_nat (length (forms merged))
                   - Z.of_nat (length (forms existing)))%Z in
  let flowDiff := (Z.of_nat (length (userFlows merged))
                   - Z.of_nat (length (userFlows existing)))%Z in
  let updates := summary_updates pagesAdded formDiff flowDiff in
  ret (if (length updates =? 0)%nat
       then "No significant changes detected"
       else Js.join ", " updates).

(** [mergeKnowledge]; [now] is [new Date().toISOString()]. *)
Definition mergeKnowledge (now : string) (existing newAnalysis : Knowledge)
  : Op Heap Knowledge :=
  let version' := next_version (version existing) in
  merge_pages existing newAnalysis >>
  let* existingFormPaths := form_paths (forms existing) in
  let* newFormPaths := form_paths (forms newAnalysis) in
  let removed :=
    List.filter (fun p => negb (Explorer.has newFormPaths p))
                (Explorer.dedupe existingFormPaths) in
  forEach (carry_customTestData existing) (forms newAnalysis) >>
  let* history :=
    match updateHistory existing with
    | Some l => ret l
    | None => new_history
    end in
  let merged :=
    {| version := version';
       pages := pages newAnalysis;
       forms := forms newAnalysis;
       userFlows := userFlows newAnalysis;
       updateHistory := Some history;
       removedForms := Some removed;
       other := other newAnalysis |} in
  let* count := countNewPages existing merged in
  let entry :=
    {| date := now;
       previousVersion := version existing;
       newVersion := version';
       pagesAdded := count;
       formsAdded := Z.of_nat (length (forms merged))
                     - Z.of_nat (length (forms existing));
       flowsAdded := Z.of_nat (length (userFlows merged))
                     - Z.of_nat (length (userFlows existing)) |} in
  let* entries := read_history history in
  update (set_history history (entries ++ [entry])) >>
  ret merged.

(** *** Vocabulary for the properties *)

Definition page_path_at (h : Heap) (l : loc) : option string :=
  path <$> pages_at h !! l.

Definition customData_at (h : Heap) (l : loc) : option Js.Val :=
  customData <$> pages_at h !! l.

(** The path of the action URL of the form at [l]. *)
Definition form_path_at (h : Heap) (l : loc) : option string :=
  match forms_at h !! l with
  | Some f => Url.pathname <$> parseUrl (action f)
  | None => None
  end.

Definition customTestData_at (h : Heap) (l : loc) : option Js.Val :=
  customTestData <$> forms_at h !! l.

(** What the merge never writes of a page or of a form. *)
Definition page_shape (p : Page) : string * list (string * Js.Val) :=
  (path p, page_rest p).

Definition form_shape (f : Form) : string * list (string * Js.Val) :=
  (action f, form_rest f).

(** [h'] differs from [h] at most in the [customData] of the pages at
    [written]. *)
Record pages_frame (written : list loc) (h h' : Heap) : Prop := {
  pf_forms : forms_at h' = forms_at h;
  pf_histories : histories_at h' = histories_at h;
  pf_others : forall l, ~ In l written -> pages_at h' !! l = pages_at h !! l;
  pf_shape : forall l, page_shape <$> pages_at h' !! l
                       = page_shape <$> pages_at h !! l
}.

(** [h'] differs from [h] at most in the [customTestData] of the forms
    at [written]. *)
Record forms_frame (written : list loc) (h h' : Heap) : Prop := {
  ff_pages : pages_at h' = pages_at h;
  ff_histories : histories_at h' = histories_at h;
  ff_others : forall l, ~ In l written -> forms_at h' !! l = forms_at h !! l;
  ff_shape : forall l, form_shape <$> forms_at h' !! l
                       = form_shape <$> forms_at h !! l
}.

(** The object a merge returns, and the entry it pushes. *)
Definition merged_record (existing newAnalysis : Knowledge) (history : loc)
           (removed : list string) : Knowledge :=
  {| version := next_version (version existing);
     pages := pages newAnalysis;
     forms := forms newAnalysis;
     userFlows := userFlows newAnalysis;
     updateHistory := Some history;
     removedForms := Some removed;
     other := other newAnalysis |}.

Definition history_entry (now : string) (existing newAnalysis : Knowledge)
           (count : nat) : HistoryEntry :=
  {| date := now;
     previousVersion := version existing;
     newVersion := next_version (version existing);
     pagesAdded := count;
     formsAdded := Z.of_nat (length (forms newAnalysis))
                   - Z.of_nat (length (forms existing));
     flowsAdded := Z.of_nat (length (userFlows newAnalysis))
                   - Z.of_nat (length (userFlows existing)) |}.

(** What a merge may change in the heap: the [customData] of the page
    objects of the new analysis, the [customTestData] of its form
    objects, and the history array of the existing snapshot (or an
    array that did not exist before). *)
Record merge_frame (existing newAnalysis : Knowledge) (h h' : Heap) : Prop := {
  mf_pages : forall l, ~ In l (page_locs newAnalysis) ->
                       pages_at h' !! l = pages_at h !! l;
  mf_page_shape : forall l, page_shape <$> pages_at h' !! l
                            = page_shape <$> pages_at h !! l;
  mf_forms : forall l, ~ In l (forms newAnalysis) ->
                       forms_at h' !! l = forms_at h !! l;
  mf_form_shape : forall l, form_shape <$> forms_at h' !! l
                            = form_shape <$> forms_at h !! l;
  mf_histories : forall l, is_Some (histories_at h !! l) ->
                           updateHistory existing <> Some l ->
                           histories_at h' !! l = histories_at h !! l
}.

(** [v] is the truthy [customData] of a page of the existing snapshot
    that has the path of the page at [l] and is listed in the category
    in which the analysis lists [l]. *)
Definition customData_from (existing newAnalysis : Knowledge) (h : Heap)
           (l : loc) (v : Js.Val) : Prop :=
  exists c le ep,
    In l (category c (pages newAnalysis))
    /\ In le (category c (pages existing))
    /\ pages_at h !! le = Some ep
    /\ page_path_at h l = Some (path ep)
    /\ customData ep = v
    /\ Js.truthy v = true.

(** [v] is the truthy [customTestData] of a form of the existing
    snapshot whose action has the path of the action of the form at
    [l]. *)
Definition customTestData_from (existing : Knowledge) (h : Heap)
           (l : loc) (v : Js.Val) : Prop :=
  exists le ef,
    In le (forms existing)
    /\ forms_at h !! le = Some ef
    /\ is_Some (form_path_at h l)
    /\ form_path_at h le = form_path_at h l
    /\ customTestData ef = v
    /\ Js.truthy v = true.

(** Between [h0] and [h] every [customData] is as it was or comes from
    the existing snapshot; likewise for [customTestData]. *)
Definition customData_kept (existing newAnalysis : Knowledge) (h0 h : Heap)
  : Prop :=
  forall l p np,
    pages_at h !! l = Some p -> pages_at h0 !! l = Some np ->
    customData p = customData np
    \/ customData_from existing newAnalysis h0 l (customData p).

Definition customTestData_kept (existing : Knowledge) (h0 h : Heap) : Prop :=
  forall l f nf,
    forms_at h !! l = Some f -> forms_at h0 !! l = Some nf ->
    customTestData f = customTestData nf
    \/ customTestData_from existing h0 l (customTestData f).

(** The fresh snapshot is a tree of its own: its category names are
    distinct, no page or form object occurs twice in it, and none is
    shared with the existing snapshot.  Snapshots read with
    [JSON.parse] and analyses built from one exploration are so. *)
Record separate (existing fresh : Knowledge) : Prop := {
  sep_categories : List.NoDup (map fst (pages fresh));
  sep_pages : List.NoDup (page_locs fresh);
  sep_pages_existing :
    forall l, In l (page_locs fresh) -> ~ In l (page_locs existing);
  sep_forms : List.NoDup (forms fresh);
  sep_forms_existing : forall l, In l (forms fresh) -> ~ In l (forms existing)
}.

(** Every reference of the two snapshots points to an object, every
    form action parses as a URL, and a category of the fresh snapshot
    that is named like a member of [Object.prototype] is a category of
    the existing one too. *)
Record well_formed (h : Heap) (existing fresh : Knowledge) : Prop := {
  wf_categories :
    forall c, In c (map fst (pages fresh)) -> Js.inherited c = true ->
              In c (map fst (pages existing));
  wf_pages :
    forall l, In l (page_locs existing ++ page_locs fresh) ->
              is_Some (pages_at h !! l);
  wf_forms :
    forall l, In l (forms existing ++ forms fresh) ->
              is_Some (form_path_at h l);
  wf_history :
    forall l, updateHistory existing = Some l -> is_Some (histories_at h !! l)
}.

End Merge.

End Updater.

(* ===================================================================== *)
(** * Small sites to run the crawler on *)
(* ===================================================================== *)

(* ===================================================================== *)
(** * lib/context-reader.js: reading documentation *)
(* ===================================================================== *)

Module Context.
Import Eff.

(** A directory tree as [readdirSync] with [withFileTypes] shows it: an
    entry is a directory or something else (a symbolic link counts as
    something else). *)
Inductive Node :=
| File
| Dir (entries : list (string * Node)).

(** The test on [entry.name] in [getAllFilesRecursive]. *)
Definition skipped (name : string) : bool :=
  Js.startsWith name "." || String.eqb name "node_modules"
  || String.eqb name "dist" || String.eqb name "build".

Definition textExtensions : list string :=
  [".txt"; ".md"; ".markdown"; ".json"; ".rst"; ".org"; ".adoc"; ".asciidoc"].

(** What [parseContext] extracts. *)
Record ParsedData := {
  urls : list string;
  credentials : list string;
  features : list string;
  pages : list string;
  notes : list string
}.

(** What [readContext] returns; [parsedData] is the empty object when a
    folder holds no text file. *)
Record ContextData := {
  rawText : string;
  parsedData : option ParsedData;
  fileCount : option nat
}.

Section Reader.

Local Open Scope list_scope.

(** [path.join], [path.extname] and [path.relative] of the platform,
    the contents [readFileSync] finds (files are taken to be readable),
    and [parseContext], which works by regular expressions. *)
Variable join : string -> string -> string.
Variable extname : string -> string.
Variable relative : string -> string -> string.
Variable readFileSync : string -> string.
Variable parseContext : string -> ParsedData.

(** [getAllFilesRecursive]: the files below [node], which lies at path
    [here]; called on a directory. *)
Fixpoint walk (here : string) (node : Node) : list string :=
  match node with
  | File => [here]
  | Dir entries =>
      (fix each (es : list (string * Node)) : list string :=
         match es with
         | [] => []
         | (name, n) :: rest =>
             if skipped name then each rest
             else walk (join here name) n ++ each rest
         end) entries
  end.

Definition getAllFilesRecursive (dir : string) (entries : list (string * Node))
  : list string :=
  walk dir (Dir entries).

(** [isTextFile] *)
Definition isTextFile (filePath : string) : bool :=
  existsb (String.eqb (Js.toLowerCase (extname filePath))) textExtensions.

Definition newline : string := String (ascii_of_nat 10) EmptyString.

(** What the loop of [readFromFolder] appends for one file. *)
Definition section_of (folderPath file : string) : string :=
  (newline ++ newline ++ "# File: " ++ relative folderPath file
   ++ newline ++ newline ++ readFileSync file)%string.

(** [readFromFolder] *)
Definition readFromFolder (folderPath : string)
           (entries : list (string * Node)) : ContextData :=
  let files := getAllFilesRecursive folderPath entries in
  let textFiles := List.filter isTextFile files in
  if (length textFiles =? 0)%nat
  then {| rawText := ""; parsedData := None; fileCount := None |}
  else
    let combinedText :=
      fold_left (fun text file => (text ++ section_of folderPath file)%string)
                textFiles ""%string in
    {| rawText := combinedText;
       parsedData := Some (parseContext combinedText);
       fileCount := Some (length textFiles) |}.

(** [readFromFile] *)
Definition readFromFile (filePath : string) : ContextData :=
  let content := readFileSync filePath in
  {| rawText := content;
     parsedData := Some (parseContext content);
     fileCount := Some 1 |}.

(** [readContext], given what lies at the resolved path. *)
Definition readContext (absolutePath : string) (found : option Node)
  : Outcome ContextData :=
  match found with
  | None => Thrown
  | Some (Dir entries) => Returned (readFromFolder absolutePath entries)
  | Some File => Returned (readFromFile absolutePath)
  end.

(** A file below [node] that is reached through names that are not
    skipped. *)
Inductive listed : string -> Node -> string -> Prop :=
| listed_file here : listed here File here
| listed_entry here entries name n p :
    In (name, n) entries -> skipped name = false ->
    listed (join here name) n p ->
    listed here (Dir entries) p.

End Reader.

End Context.

(* ===================================================================== *)
(** * execute.js: the command line *)
(* ===================================================================== *)

Module Cli.
Import Eff.

(** The configuration object; [None] stands for [null] and
    [undefined]. *)
Record Config := {
  appName : option string;
  targetUrl : option string;
  contextPath : option string;
  userPrompt : option string;
  updateMode : bool;
  outputDirectory : option string;
  extensions : list string;
  maxDepth : Js.Num;
  maxPages : Js.Num;
  verbose : bool
}.

(** Truthiness of a value that is a string, [null] or [undefined]. *)
Definition given (v : option string) : bool :=
  match v with
  | Some (String _ _) => true
  | _ => false
  end.

(** [String(v)] on an argument that may be missing. *)
Definition text_of (v : option string) : string :=
  match v with
  | Some s => s
  | None => "undefined"
  end.

(** How [parseArguments] ends: with the configuration, by
    [process.exit], or with a [TypeError]. *)
Inductive Parsed :=
| Parsed_config (c : Config)
| Exit (code : Z)
| TypeError.

(** One turn of the loop of [parseArguments]: go on, having used the
    next argument too or not, or stop. *)
Inductive Step :=
| Next (usedNext : bool) (c : Config)
| Stop (p : Parsed).

Definition is_any (arg : string) (names : list string) : bool :=
  existsb (String.eqb arg) names.

Definition step (arg : string) (nextVal : option string) (config : Config)
  : Step :=
  if is_any arg ["--name"; "-n"] then
    Next true {| appName := nextVal; targetUrl := targetUrl config;
                 contextPath := contextPath config;
                 userPrompt := userPrompt config;
                 updateMode := updateMode config;
                 outputDirectory := outputDirectory config;
                 extensions := extensions config;
                 maxDepth := maxDepth config; maxPages := maxPages config;
                 verbose := verbose config |}
  else if is_any arg ["--url"; "-u"] then
    Next true {| appName := appName config; targetUrl := nextVal;
                 contextPath := contextPath config;
                 userPrompt := userPrompt config;
                 updateMode := updateMode config;
                 outputDirectory := outputDirectory config;
                 extensions := extensions config;
                 maxDepth := maxDepth config; maxPages := maxPages config;
                 verbose := verbose config |}
  else if is_any arg ["--docs"; "--info"; "-d"] then
    Next true {| appName := appName config; targetUrl := targetUrl config;
                 contextPath := nextVal;
                 userPrompt := userPrompt config;
                 updateMode := updateMode config;
                 outputDirectory := outputDirectory config;
                 extensions := extensions config;
                 maxDepth := maxDepth config; maxPages := maxPages config;
                 verbose := verbose config |}
  else if is_any arg ["--prompt"; "--instructions"; "-p"] then
    Next true {| appName := appName config; targetUrl := targetUrl config;
                 contextPath := contextPath config;
                 userPrompt := nextVal;
                 updateMode := updateMode config;
                 outputDirectory := outputDirectory config;
                 extensions := extensions config;
                 maxDepth := maxDepth config; maxPages := maxPages config;
                 verbose := verbose config |}
  else if is_any arg ["--update"] then
    Next false {| appName := appName config; targetUrl := targetUrl config;
                  contextPath := contextPath config;
                  userPrompt := userPrompt config;
                  updateMode := true;
                  outputDirectory := outputDirectory config;
                  extensions := extensions config;
                  maxDepth := maxDepth config; maxPages := maxPages config;
                  verbose := verbose config |}
  else if is_any arg ["--output"; "-o"] then
    Next true {| appName := appName config; targetUrl := targetUrl config;
                 contextPath := contextPath config;
                 userPrompt := userPrompt config;
                 updateMode := updateMode config;
                 outputDirectory := nextVal;
                 extensions := extensions config;
                 maxDepth := maxDepth config; maxPages := maxPages config;
                 verbose := verbose config |}
  else if is_any arg ["--extensions"; "-e"] then
    match nextVal with
    | None => Stop TypeError
    | Some v =>
        Next true {| appName := appName config; targetUrl := targetUrl config;
                     contextPath := contextPath config;
                     userPrompt := userPrompt config;
                     updateMode := updateMode config;
                     outputDirectory := outputDirectory config;
                     extensions := map Js.trim (Js.split "," v);
                     maxDepth := maxDepth config; maxPages := maxPages config;
                     verbose := verbose config |}
    end
  else if is_any arg ["--max-depth"] then
    Next true {| appName := appName config; targetUrl := targetUrl config;
                 contextPath := contextPath config;
                 userPrompt := userPrompt config;
                 updateMode := updateMode config;
                 outputDirectory := outputDirectory config;
                 extensions := extensions config;
                 maxDepth := Js.parseInt10 (text_of nextVal);
                 maxPages := maxPages config;
                 verbose := verbose config |}
  else if is_any arg ["--max-pages"] then
    Next true {| appName := appName config; targetUrl := targetUrl config;
                 contextPath := contextPath config;
                 userPrompt := userPrompt config;
                 updateMode := updateMode config;
                 outputDirectory := outputDirectory config;
                 extensions := extensions config;
                 maxDepth := maxDepth config;
                 maxPages := Js.parseInt10 (text_of nextVal);
                 verbose := verbose config |}
  else if is_any arg ["--verbose"; "-v"] then
    Next false {| appName := appName config; targetUrl := targetUrl config;
                  contextPath := contextPath config;
                  userPrompt := userPrompt config;
                  updateMode := updateMode config;
                  outputDirectory := outputDirectory config;
                  extensions := extensions config;
                  maxDepth := maxDepth config; maxPages := maxPages config;
                  verbose := true |}
  else if is_any arg ["--help"; "-h"] then Stop (Exit 0)
  else if Js.startsWith arg "-" then Stop (Exit 1)
  else Next false config.

(** The loop of [parseArguments] from index [i] on, [argv] being the
    arguments from [i]. *)
Fixpoint parse_from (argv : list string) (config : Config) : Parsed :=
  match argv with
  | [] => Parsed_config config
  | arg :: rest =>
      match step arg (hd_error rest) config with
      | Stop p => p
      | Next false c => parse_from rest c
      | Next true c =>
          match rest with
          | [] => Parsed_config c
          | _ :: rest' => parse_from rest' c
          end
      end
  end.

Section Main.

Local Open Scope list_scope.

(** [path.join(os.homedir(), '.claude', 'skills')] *)
Variable homeSkills : string.

Definition defaults : Config :=
  {| appName := None; targetUrl := None; contextPath := None;
     userPrompt := None; updateMode := false;
     outputDirectory := Some homeSkills; extensions := [];
     maxDepth := Js.Fin 3; maxPages := Js.Fin 50; verbose := false |}.

(** [parseArguments], on [process.argv.slice(2)]. *)
Definition parseArguments (argv : list string) : Parsed :=
  parse_from argv defaults.

Variable parseUrl : string -> option Url.t.

(** [validateConfig] *)
Definition validateConfig (config : Config) : bool :=
  if negb (given (appName config)) then false
  else if negb (given (targetUrl config)) && negb (updateMode config)
          && negb (given (contextPath config))
  then false
  else if given (targetUrl config) then
    match parseUrl (text_of (targetUrl config)) with
    | Some _ => true
    | None => false
    end
  else true.

(** The configuration with what the documentation adds. *)
Record Merged := {
  base : Config;
  hintPages : option (list string);
  credentialHints : option (list string);
  featureHints : option (list string);
  contextText : string;
  contextNotes : list string
}.

(** [a.length > 0 ? a : undefined] *)
Definition unless_empty (a : list string) : option (list string) :=
  match a with
  | [] => None
  | _ :: _ => Some a
  end.

(** [ContextReader.mergeWithConfig]; reading [urls] or [pages] of the
    empty object throws. *)
Definition mergeWithConfig (config : Config) (contextData : Context.ContextData)
  : Outcome Merged :=
  match Context.parsedData contextData with
  | None => Thrown
  | Some parsed =>
      Returned
        {| base :=
             {| appName := appName config;
                targetUrl :=
                  match Context.urls parsed with
                  | first :: _ =>
                      if given (targetUrl config) then targetUrl config
                      else Some first
                  | [] => targetUrl config
                  end;
                contextPath := contextPath config;
                userPrompt := userPrompt config;
                updateMode := updateMode config;
                outputDirectory := outputDirectory config;
                extensions := extensions config;
                maxDepth := maxDepth config; maxPages := maxPages config;
                verbose := verbose config |};
           hintPages := unless_empty (Context.pages parsed);
           credentialHints := unless_empty (Context.credentials parsed);
           featureHints := unless_empty (Context.features parsed);
           contextText := Context.rawText contextData;
           contextNotes := Context.notes parsed |}
  end.

(** The environment of [main]: whether Playwright resolves, whether
    its installation succeeds, what [readContext] answers, and how the
    two pipelines end. *)
Variable playwrightInstalled : bool.
Variable setupSucceeds : bool.
Variable readContext : string -> Outcome Context.ContextData.
Variable updateSkill : Config -> Outcome unit.
Variable createSkill : Config -> Outcome unit.

(** What [main] sets off, in order. *)
Inductive Event :=
| ReadContext (path : string)
| UpdateSkill (config : Config)
| CreateSkill (config : Config).

Definition call {A} (e : Event) (o : Outcome A) : Op (list Event) A :=
  update (fun log => log ++ [e]) >> await o.

(** An assignment to a binding declared with [const] throws a
    [TypeError] when it is executed, after its right-hand side has been
    evaluated. *)
Definition assign_const {A} (value : A) : Op (list Event) unit :=
  await Thrown.

(** The [try] block of [main]; [config] is declared with [const]. *)
Definition main_body (config : Config) : Op (list Event) unit :=
  (if given (contextPath config) then
     let* contextData :=
       call (ReadContext (text_of (contextPath config)))
            (readContext (text_of (contextPath config))) in
     let* merged := await (mergeWithConfig config contextData) in
     assign_const merged
   else ret tt) >>
  if updateMode config
  then call (UpdateSkill config) (updateSkill config)
  else call (CreateSkill config) (createSkill config).

(** [main] and the handler of its rejection: the exit status of the
    process and what was set off. *)
Definition main (argv : list string) : Z * list Event :=
  if negb playwrightInstalled && negb setupSucceeds then (1%Z, [])
  else
    match parseArguments argv with
    | Exit code => (code, [])
    | TypeError => (1%Z, [])
    | Parsed_config config =>
        if negb (validateConfig config) then (1%Z, [])
        else
          match main_body config [] with
          | (Thrown, log) => (1%Z, log)
          | (Returned _, log) => (0%Z, log)
          end
    end.

End Main.

End Cli.

Module Examples.
Import Eff Explorer.

Definition page (t : string) (links : list string) : Document :=
  {| doc_settle := Returned tt;
     doc_data := Returned {| title := t; heading := ""; description := "";
                             bodyText := "" |};
     doc_forms := Returned [];
     doc_buttons := Returned [];
     doc_clickables := [];
     doc_screenshot := Returned tt;
     doc_hrefs := Returned links |}.

(** Three pages in a chain, [/] -> [/a] -> [/b], with a few links that
    lead off the site, to a document, and back. *)
Definition chain_site (u : string) : Navigation :=
  if String.eqb u "http://a.com/" then
    NavResponse 200 (page "Home" ["http://a.com/a"; "http://b.com/x";
                                  "http://a.com/report.pdf"])
  else if String.eqb u "http://a.com/a" then
    NavResponse 200 (page "A" ["http://a.com/b"; "http://a.com/"])
  else if String.eqb u "http://a.com/b" then
    NavResponse 200 (page "B" ["http://a.com/c"])
  else NavFailed.


Definition chain_engine : Engine :=
  {| targetUrl := "http://a.com/"; appName := "a"; maxDepth := 1;
     maxPages := 50; verbose := false; baseDomain := "a.com" |}.

(** The crawl of the chain after its first two turns. *)
Definition chain_after_two : Crawl :=
  snd (loop_body Url.parse chain_site chain_engine
         (snd (loop_body Url.parse chain_site chain_engine
                 (seeded chain_engine)))).

(** A page that loads and yields its metadata, but whose form
    extraction throws. *)
Definition broken_forms : Document :=
  {| doc_settle := Returned tt;
     doc_data := Returned {| title := "Orders"; heading := ""; description := "";
                             bodyText := "" |};
     doc_forms := Thrown;
     doc_buttons := Returned [];
     doc_clickables := [];
     doc_screenshot := Returned tt;
     doc_hrefs := Returned ["http://a.com/next"] |}.

(** A page whose title, but not its path, carries the word "detail". *)
Definition order_detail : RawPageData :=
  {| title := "Order Detail"; heading := ""; description := "";
     bodyText := "" |}.

Definition broken_site (u : string) : Navigation :=
  if String.eqb u "http://a.com/" then NavResponse 200 broken_forms
  else NavFailed.

End Examples.

(* ===================================================================== *)
(** * lib/updater.js: the backup *)
(* ===================================================================== *)

Module Backup.
Import Eff.

(** The file system as the backup sees it: the contents of the files
    and the set of directories, by path. *)
Record FS := {
  files : gmap string string;
  dirs : gset string
}.

(** [path.join] on a normalized directory path and a name. *)
Definition join (dir name : string) : string := (dir ++ "/" ++ name)%string.

Definition is_file (fs : FS) (p : string) : bool :=
  bool_decide (is_Some (files fs !! p)).

Definition is_dir (fs : FS) (p : string) : bool :=
  bool_decide (p ∈ dirs fs).

(** [fs.existsSync] *)
Definition existsSync (p : string) : Op FS bool :=
  fun fs => (Returned (is_file fs p || is_dir fs p), fs).

(** [fs.mkdirSync(join(parent, name), { recursive: true })], the parent
    being there already or made just before: it throws when a file is in
    the way, and does nothing when the directory exists. *)
Definition mkdirSync (parent name : string) : Op FS unit :=
  fun fs =>
    if is_file fs parent || is_file fs (join parent name) then (Thrown, fs)
    else (Returned tt, {| files := files fs;
                          dirs := {[ join parent name ]} ∪ dirs fs |}).

(** [fs.copyFileSync]: the source must be a file, the destination must
    not be a directory; an existing destination file is overwritten. *)
Definition copyFileSync (source dest : string) : Op FS unit :=
  fun fs =>
    match files fs !! source with
    | Some content =>
        if is_dir fs dest then (Thrown, fs)
        else (Returned tt, {| files := <[dest := content]> (files fs);
                              dirs := dirs fs |})
    | None => (Thrown, fs)
    end.

Definition filesToBackup : list string :=
  ["SKILL.md"; "app-knowledge.json"; "test-patterns.js"; "README.md"].

Definition colon_dot_to_dash (c : ascii) : ascii :=
  if Ascii.eqb c ":" || Ascii.eqb c "." then "-"%char else c.

(** [iso.replace(/[:.]/g, '-').split('T')[0]] *)
Definition timestamp (iso : string) : string :=
  List.hd ""%string (Js.split "T" (Js.map_chars colon_dot_to_dash iso)).

Definition backupDir (skillPath : string) : string := join skillPath ".backups".

Definition backupPath (skillPath iso : string) : string :=
  join (backupDir skillPath) ("backup-" ++ timestamp iso)%string.

(** The body of [filesToBackup.forEach]. *)
Definition backup_file (skillPath iso file : string) : Op FS unit :=
  let sourcePath := join skillPath file in
  let* present := existsSync sourcePath in
  if present then copyFileSync sourcePath (join (backupPath skillPath iso) file)
  else ret tt.

(** [backupExistingSkill]; [iso] is [new Date().toISOString()]. *)
Definition backupExistingSkill (skillPath iso : string) : Op FS unit :=
  (let* present := existsSync (backupDir skillPath) in
   if negb present then mkdirSync skillPath ".backups" else ret tt) >>
  mkdirSync (backupDir skillPath) ("backup-" ++ timestamp iso)%string >>
  forEach (backup_file skillPath iso) filesToBackup.

(** ** [updateSkill]

    The exploration, the analysis and the generation are calls into
    other modules; here they are operations on the file system that may
    throw.  The merge is taken with its result only. *)

Inductive Call := CallExplore | CallAnalyze | CallBackup | CallGenerate.

(** The file system, and the calls made so far (an observation log the
    program does not read). *)
Record World := {
  fs_of : FS;
  calls : list Call
}.

(** An operation on the file system, logged as [c]. *)
Definition logged {A} (c : Call) (op : Op FS A) : Op World A :=
  fun w =>
    let '(r, fs') := op (fs_of w) in
    (r, {| fs_of := fs'; calls := calls w ++ [c] |}).

(** An operation on the file system that is not logged. *)
Definition quiet {A} (op : Op FS A) : Op World A :=
  fun w =>
    let '(r, fs') := op (fs_of w) in
    (r, {| fs_of := fs'; calls := calls w |}).

(** [fs.readFileSync(p, 'utf8')] *)
Definition readFileSync (p : string) : Op FS string :=
  fun fs =>
    match files fs !! p with
    | Some content => (Returned content, fs)
    | None => (Thrown, fs)
    end.

Section UpdateSkill.

Variables Knowledge ExplorationData Analysis : Type.

(** [JSON.parse] on the text of [app-knowledge.json], and the [baseUrl]
    of the result. *)
Variable parseJson : string -> Outcome Knowledge.
Variable baseUrl : Knowledge -> option string.

(** [new ExplorationEngine(config).explore()], given the target URL;
    [new AnalysisEngine(data, config).analyze()];
    [new SkillGenerator(merged, config).generate()]. *)
Variable explore : option string -> Op FS ExplorationData.
Variable analyze : ExplorationData -> Op FS Analysis.
Variable generate : Analysis -> Op FS unit.

Variable mergeKnowledge : Knowledge -> Analysis -> Outcome Analysis.
Variable generateUpdateSummary : Knowledge -> Analysis -> string.

(** [updateSkill]; [targetUrl] is [this.config.targetUrl], [iso] the
    time of the backup. *)
Definition updateSkill (skillPath : string) (targetUrl : option string)
           (iso : string) : Op World (string * string) :=
  let* present := quiet (existsSync skillPath) in
  if negb present then await Thrown
  else
    let knowledgePath := join skillPath "app-knowledge.json" in
    let* present := quiet (existsSync knowledgePath) in
    if negb present then await Thrown
    else
      let* text := quiet (readFileSync knowledgePath) in
      let* existingKnowledge := await (parseJson text) in
      let targetUrl' :=
        match targetUrl with
        | Some (String _ _) => targetUrl
        | _ => baseUrl existingKnowledge
        end in
      let* newExplorationData := logged CallExplore (explore targetUrl') in
      let* newAnalysis := logged CallAnalyze (analyze newExplorationData) in
      let* mergedAnalysis :=
        await (mergeKnowledge existingKnowledge newAnalysis) in
      logged CallBackup (backupExistingSkill skillPath iso) >>
      logged CallGenerate (generate mergedAnalysis) >>
      ret (skillPath, generateUpdateSummary existingKnowledge mergedAnalysis).

End UpdateSkill.

End Backup.

(** A skill folder with two of the four files and an earlier backup
    of the same day. *)
Module BackupExamples.
Import Eff Backup.

Definition before : FS :=
  {| files := {[ "/skills/app-testing/SKILL.md" := "# app";
                 "/skills/app-testing/app-knowledge.json" := "{}";
                 "/skills/app-testing/.backups/backup-2026-01-15/SKILL.md"
                   := "# old" ]};
     dirs := {[ "/skills/app-testing";
                "/skills/app-testing/.backups";
                "/skills/app-testing/.backups/backup-2026-01-15" ]} |}.

Definition after : FS :=
  Eval vm_compute in
    snd (backupExistingSkill "/skills/app-testing" "2026-01-15T10:30:00.000Z"
           before).

(** An update in which every call succeeds and changes nothing. *)
Definition updated : Outcome (string * string) * World :=
  Eval vm_compute in
    updateSkill unit unit unit
      (fun _ => Returned tt) (fun _ => None)
      (fun _ fs => (Returned tt, fs)) (fun _ fs => (Returned tt, fs))
      (fun _ fs => (Returned tt, fs))
      (fun _ analysis => Returned analysis) (fun _ _ => "1 new pages discovered")
      "/skills/app-testing" None "2026-01-15T10:30:00.000Z"
      {| fs_of := before; calls := [] |}.

End BackupExamples.

(** A command line that names documentation, in an environment where
    everything else succeeds. *)
Module CliExamples.
Import Eff Cli.




End CliExamples.

(** A small update: the existing snapshot knows the login page, with a
    note of its owner, a login form with test data and a search form;
    the new analysis finds the login page again, a calendar page, and
    the login form. *)
Module MergeExamples.
Import Eff Updater.

Definition login_existing : Page :=
  {| path := "/login"; customData := Js.VStr "use the staging account";
     page_rest := [] |}.

Definition login_fresh : Page :=
  {| path := "/login"; customData := Js.VUndefined;
     page_rest := [("title", Js.VStr "Sign in")] |}.

Definition calendar_fresh : Page :=
  {| path := "/calendar"; customData := Js.VUndefined; page_rest := [] |}.

Definition login_form_existing : Form :=
  {| action := "http://a.com/login"; customTestData := Js.VStr "user=test";
     form_rest := [] |}.

Definition search_form_existing : Form :=
  {| action := "http://a.com/search"; customTestData := Js.VUndefined;
     form_rest := [] |}.

Definition login_form_fresh : Form :=
  {| action := "http://a.com/login"; customTestData := Js.VUndefined;
     form_rest := [("method", Js.VStr "post")] |}.

Definition first_entry : HistoryEntry :=
  {| date := "2025-12-01T09:00:00.000Z"; previousVersion := "0.9.0";
     newVersion := "1.0.0"; pagesAdded := 1; formsAdded := 2; flowsAdded := 0 |}.

Definition heap : Heap :=
  {| pages_at := {[ 1%positive := login_existing; 2%positive := login_fresh;
                    3%positive := calendar_fresh ]};
     forms_at := {[ 1%positive := login_form_existing;
                    2%positive := search_form_existing;
                    3%positive := login_form_fresh ]};
     histories_at := {[ 1%positive := [first_entry] ]} |}.

Definition existing : Knowledge :=
  {| version := "1.0.0"; pages := [("auth", [1%positive])];
     forms := [1%positive; 2%positive]; userFlows := [];
     updateHistory := Some 1%positive; removedForms := None; other := [] |}.

Definition analysis : Knowledge :=
  {| version := "1.0.0";
     pages := [("auth", [2%positive]); ("main", [3%positive])];
     forms := [3%positive]; userFlows := [];
     updateHistory := None; removedForms := None; other := [] |}.

(** An analysis with a category named like a method every object
    inherits. *)
Definition inherited_analysis : Knowledge :=
  {| version := "1.0.0";
     pages := [("constructor", [2%positive])];
     forms := [3%positive]; userFlows := [];
     updateHistory := None; removedForms := None; other := [] |}.

Definition now : string := "2026-01-15T10:30:00.000Z".

Definition outcome : Outcome Knowledge * Heap :=
  Eval vm_compute in mergeKnowledge Url.parse now existing analysis heap.

Definition merged : Knowledge :=
  match fst outcome with
  | Returned m => m
  | Thrown => analysis
  end.

Definition after : Heap := snd outcome.

(** The same snapshot with a version that is a single number. *)
Definition unversioned : Knowledge :=
  {| version := "7"; pages := pages existing; forms := forms existing;
     userFlows := []; updateHistory := None; removedForms := None;
     other := [] |}.

Definition unversioned_outcome : Outcome Knowledge * Heap :=
  Eval vm_compute in mergeKnowledge Url.parse now unversioned analysis heap.

Definition unversioned_merged : Knowledge :=
  match fst unversioned_outcome with
  | Returned m => m
  | Thrown => analysis
  end.

(** A heap in which the action of the search form is not a URL. *)
Definition bad_heap : Heap :=
  {| pages_at := pages_at heap;
     forms_at := <[ 2%positive := {| action := "/search";
                                     customTestData := Js.VUndefined;
                                     form_rest := [] |} ]> (forms_at heap);
     histories_at := histories_at heap |}.

End MergeExamples.

(* ===================================================================== *)
(** * Properties of the JavaScript primitives *)
(* ===================================================================== *)

Module JsFacts.
Import Js.
Local Open Scope Z_scope.

Lemma append_cons c s t : (String c s ++ t)%string = String c (s ++ t)%string.
Proof. reflexivity. Qed.

Lemma append_nil_r s : (s ++ "")%string = s.
Proof. induction s as [|c s IH]; [reflexivity|]. rewrite append_cons, IH. reflexivity. Qed.

Lemma append_assoc s t u : ((s ++ t) ++ u)%string = (s ++ (t ++ u))%string.
Proof.
  induction s as [|c s IH]; [reflexivity|].
  rewrite !append_cons, IH. reflexivity.
Qed.

Lemma length_append s t :
  String.length (s ++ t)%string = (String.length s + String.length t)%nat.
Proof.
  induction s as [|c s IH]; [reflexivity|].
  rewrite append_cons. simpl. rewrite IH. reflexivity.
Qed.

(** *** Decimal numerals *)

Lemma decimal_fuel_acc fuel n acc :
  decimal_fuel fuel n acc = (decimal_fuel fuel n "" ++ acc)%string.
Proof.
  revert n acc. induction fuel as [|fuel IH]; intros n acc; simpl; [reflexivity|].
  destruct (n <? 10); [reflexivity|].
  rewrite IH, (IH _ (String _ "")), append_assoc. reflexivity.
Qed.

Lemma decimal_fuel_more fuel n acc :
  0 <= n < 10 ^ Z.of_nat fuel -> (1 <= fuel)%nat ->
  decimal_fuel (S fuel) n acc = decimal_fuel fuel n acc.
Proof.
  revert n acc. induction fuel as [|fuel IH]; intros n acc Hn Hf; [lia|].
  change (decimal_fuel (S (S fuel)) n acc)
    with (let acc' := String (digit_char (n mod 10)) acc in
          if n <? 10 then acc' else decimal_fuel (S fuel) (n / 10) acc').
  change (decimal_fuel (S fuel) n acc)
    with (let acc' := String (digit_char (n mod 10)) acc in
          if n <? 10 then acc' else decimal_fuel fuel (n / 10) acc').
  cbv zeta. destruct (Z.ltb_spec n 10) as [Hlt|Hge]; [reflexivity|].
  rewrite Nat2Z.inj_succ, Z.pow_succ_r in Hn by lia.
  apply IH.
  - split; [apply Z.div_pos; lia|]. apply Z.div_lt_upper_bound; lia.
  - destruct fuel; [simpl in Hn; lia|lia].
Qed.

Lemma decimal_fuel_extra k fuel n acc :
  0 <= n < 10 ^ Z.of_nat fuel -> (1 <= fuel)%nat ->
  decimal_fuel (k + fuel) n acc = decimal_fuel fuel n acc.
Proof.
  intros Hn Hf. induction k as [|k IH]; [reflexivity|].
  change (S k + fuel)%nat with (S (k + fuel)).
  rewrite decimal_fuel_more; [exact IH| |lia].
  split; [lia|]. eapply Z.lt_le_trans; [apply Hn|].
  apply Z.pow_le_mono_r; lia.
Qed.

Lemma decimal_fuel_any fuel n :
  0 <= n < 10 ^ Z.of_nat fuel -> (1 <= fuel)%nat ->
  decimal_fuel fuel n "" = decimal n.
Proof.
  intros Hn Hf. unfold decimal.
  set (f0 := S (Z.to_nat (Z.log2 n))).
  assert (H0 : 0 <= n < 10 ^ Z.of_nat f0).
  { split; [lia|]. unfold f0.
    rewrite Nat2Z.inj_succ, Z2Nat.id by apply Z.log2_nonneg.
    destruct (Z.eq_dec n 0) as [->|Hnz].
    - simpl. lia.
    - pose proof (Z.log2_spec n ltac:(lia)) as [_ Hlt].
      eapply Z.lt_le_trans; [exact Hlt|].
      apply Z.pow_le_mono_l. pose proof (Z.log2_nonneg n). lia. }
  rewrite <- (decimal_fuel_extra f0 fuel n "" Hn Hf).
  rewrite <- (decimal_fuel_extra fuel f0 n "" H0 ltac:(unfold f0; lia)).
  f_equal. lia.
Qed.

Lemma decimal_small n :
  0 <= n < 10 -> decimal n = String (digit_char n) "".
Proof.
  intros Hn. rewrite <- (decimal_fuel_any 1 n) by (simpl; lia).
  simpl. destruct (Z.ltb_spec n 10); [|lia].
  rewrite Z.mod_small by lia. reflexivity.
Qed.

Lemma decimal_step n :
  10 <= n ->
  decimal n = (decimal (n / 10) ++ String (digit_char (n mod 10)) "")%string.
Proof.
  intros Hn.
  set (f := S (Z.to_nat (Z.log2 (n / 10)))).
  assert (Hq : 0 <= n / 10 < 10 ^ Z.of_nat f).
  { assert (0 < n / 10) by (apply Z.div_str_pos; lia).
    split; [lia|]. unfold f.
    rewrite Nat2Z.inj_succ, Z2Nat.id by apply Z.log2_nonneg.
    pose proof (Z.log2_spec (n / 10) ltac:(lia)) as [_ Hlt].
    eapply Z.lt_le_trans; [exact Hlt|].
    apply Z.pow_le_mono_l. pose proof (Z.log2_nonneg (n / 10)). lia. }
  rewrite <- (decimal_fuel_any (S f) n).
  - change (decimal_fuel (S f) n "")
      with (let acc' := String (digit_char (n mod 10)) "" in
            if n <? 10 then acc' else decimal_fuel f (n / 10) acc').
    cbv zeta. destruct (Z.ltb_spec n 10); [lia|].
    rewrite decimal_fuel_acc, (decimal_fuel_any f) by (unfold f; lia || exact Hq).
    reflexivity.
  - split; [lia|]. rewrite Nat2Z.inj_succ, Z.pow_succ_r by lia.
    pose proof (Z.div_mod n 10 ltac:(lia)).
    pose proof (Z.mod_pos_bound n 10 ltac:(lia)). lia.
  - lia.
Qed.

(** Induction along the digits of a number. *)
Lemma decimal_induction (P : Z -> Prop) :
  (forall n, 0 <= n < 10 -> P n) ->
  (forall n, 10 <= n -> P (n / 10) -> P n) ->
  forall n, 0 <= n -> P n.
Proof.
  intros Hsmall Hstep n Hn.
  cut (0 <= n -> P n); [auto|].
  pattern n. apply Z_lt_induction; [|exact Hn].
  clear n Hn. intros n IH Hn.
  destruct (Z_lt_le_dec n 10) as [Hlt|Hge].
  - apply Hsmall. lia.
  - apply Hstep; [assumption|].
    assert (0 <= n / 10) by (apply Z.div_pos; lia).
    assert (n / 10 < n) by (apply Z.div_lt; lia).
    apply IH; lia.
Qed.

Lemma digit_cases n : 0 <= n < 10 -> In n [0; 1; 2; 3; 4; 5; 6; 7; 8; 9].
Proof. simpl. lia. Qed.

Lemma digit_char_is_digit n : 0 <= n < 10 -> is_digit (digit_char n) = true.
Proof.
  intros Hn. destruct (digit_cases n Hn)
    as [<-|[<-|[<-|[<-|[<-|[<-|[<-|[<-|[<-|[<-|[]]]]]]]]]]];
    reflexivity.
Qed.

Lemma digit_of_digit_char n : 0 <= n < 10 -> digit_of 10 (digit_char n) = Some n.
Proof.
  intros Hn. destruct (digit_cases n Hn)
    as [<-|[<-|[<-|[<-|[<-|[<-|[<-|[<-|[<-|[<-|[]]]]]]]]]]];
    reflexivity.
Qed.

Lemma all_chars_append p s t :
  all_chars p (s ++ t)%string = all_chars p s && all_chars p t.
Proof.
  induction s as [|c s IH]; [reflexivity|].
  rewrite append_cons. simpl. rewrite IH, andb_assoc. reflexivity.
Qed.

Lemma decimal_digits n : 0 <= n -> all_chars is_digit (decimal n) = true.
Proof.
  intros Hn. pattern n. apply decimal_induction; [| |exact Hn]; clear n Hn.
  - intros n Hn. rewrite decimal_small by assumption. cbn [all_chars].
    rewrite digit_char_is_digit by assumption. reflexivity.
  - intros n Hn IH. rewrite decimal_step, all_chars_append, IH by assumption.
    cbn [all_chars andb]. rewrite digit_char_is_digit; [reflexivity|].
    apply Z.mod_pos_bound. lia.
Qed.

Lemma decimal_not_empty n : 0 <= n -> decimal n <> ""%string.
Proof.
  intros Hn. destruct (Z_lt_le_dec n 10).
  - rewrite decimal_small by lia. discriminate.
  - rewrite decimal_step by assumption.
    destruct (decimal (n / 10)); discriminate.
Qed.

(** Reading a numeral back gives the number. *)
Lemma digits_prefix_decimal n rest acc :
  0 <= n ->
  exists k : nat,
    digits_prefix 10 (decimal n ++ rest)%string acc
    = digits_prefix 10 rest
        (Some (match acc with Some a => a | None => 0 end * 10 ^ Z.of_nat k + n)).
Proof.
  intros Hn. revert rest acc. pattern n.
  apply decimal_induction; [| |exact Hn]; clear n Hn.
  - intros n Hn rest acc. exists 1%nat. rewrite decimal_small by assumption.
    rewrite append_cons. change (""%string ++ rest)%string with rest.
    cbn [digits_prefix]. rewrite digit_of_digit_char by assumption.
    change (10 ^ Z.of_nat 1) with 10.
    f_equal. f_equal. destruct acc; lia.
  - intros n Hn IH rest acc.
    rewrite decimal_step, append_assoc by assumption.
    destruct (IH (String (digit_char (n mod 10)) "" ++ rest)%string acc) as [k Hk].
    exists (S k). rewrite Hk, append_cons.
    change (""%string ++ rest)%string with rest.
    cbn [digits_prefix].
    pose proof (Z.mod_pos_bound n 10 ltac:(lia)).
    rewrite digit_of_digit_char by lia.
    f_equal. f_equal.
    rewrite Nat2Z.inj_succ, Z.pow_succ_r by lia.
    pose proof (Z.div_mod n 10 ltac:(lia)). lia.
Qed.

Lemma numeral_roundtrip n :
  0 <= n -> digits_prefix 10 (decimal n) None = Some n.
Proof.
  intros Hn. destruct (digits_prefix_decimal n "" None Hn) as [k Hk].
  rewrite append_nil_r in Hk. rewrite Hk. cbn [digits_prefix]. rewrite Z.mul_0_l. reflexivity.
Qed.

(** *** Doubles *)

Lemma round_double_exact z : Z.abs z < 2 ^ 53 -> round_double z = Fin z.
Proof.
  intros Hz. unfold round_double.
  destruct (Z.ltb_spec (Z.abs z) (2 ^ 53)); [reflexivity|lia].
Qed.

(** Above the exact range the result stays above it. *)
Lemma round_double_large c x :
  2 ^ 53 <= c -> round_double c = Fin x -> 2 ^ 53 <= x.
Proof.
  intros Hc. unfold round_double.
  rewrite (Z.abs_eq c) by lia.
  destruct (Z.ltb_spec c (2 ^ 53)); [lia|].
  set (sh := Z.log2 c - 52).
  assert (Hlog : 53 <= Z.log2 c) by (apply Z.log2_le_pow2; lia).
  assert (Hsh : 1 <= sh) by (unfold sh; lia).
  set (q := Z.shiftr c sh).
  match goal with
  | |- context [if ?b then q + 1 else q] => set (q' := if b then q + 1 else q)
  end.
  destruct (2 ^ 1024 <=? Z.shiftl q' sh); [discriminate|].
  intros [= <-].
  rewrite Z.sgn_pos, Z.mul_1_l by lia.
  rewrite Z.shiftl_mul_pow2 by lia.
  assert (Hq : 2 ^ 52 <= q).
  { unfold q. rewrite Z.shiftr_div_pow2 by lia.
    apply Z.div_le_lower_bound; [apply Z.pow_pos_nonneg; lia|].
    rewrite <- Z.pow_add_r by lia.
    replace (sh + 52) with (Z.log2 c) by (unfold sh; lia).
    apply Z.log2_spec. lia. }
  assert (Hq' : 2 ^ 52 <= q') by (unfold q'; destruct (_ || _); lia).
  assert (Hp : 2 <= 2 ^ sh).
  { change 2 with (2 ^ 1) at 1. apply Z.pow_le_mono_r; lia. }
  change (2 ^ 53) with (2 ^ 52 * 2). nia.
Qed.

Lemma round_double_safe c x :
  0 <= c -> x < 2 ^ 53 -> round_double c = Fin x -> c = x.
Proof.
  intros Hc Hx Hr. destruct (Z_lt_le_dec c (2 ^ 53)) as [Hlt|Hge].
  - rewrite round_double_exact in Hr by lia. congruence.
  - pose proof (round_double_large c x Hge Hr). lia.
Qed.

(** *** Printing a safe integer *)

Lemma zeros_snoc j : (zeros j ++ "0")%string = zeros (S j).
Proof.
  induction j as [|j IH]; [reflexivity|].
  simpl zeros at 1. rewrite append_cons, IH. reflexivity.
Qed.

Lemma decimal_scale s j :
  0 < s -> decimal (s * 10 ^ Z.of_nat j) = (decimal s ++ zeros j)%string.
Proof.
  intros Hs. induction j as [|j IH].
  - simpl. rewrite Z.mul_1_r, append_nil_r. reflexivity.
  - rewrite Nat2Z.inj_succ, Z.pow_succ_r by lia.
    assert (Hp : 0 < 10 ^ Z.of_nat j) by (apply Z.pow_pos_nonneg; lia).
    replace (s * (10 * 10 ^ Z.of_nat j)) with (s * 10 ^ Z.of_nat j * 10) by lia.
    rewrite decimal_step by nia.
    rewrite Z.div_mul, Z.mod_mul, IH by lia.
    rewrite append_assoc. change (String (digit_char 0) "") with "0"%string.
    rewrite zeros_snoc. reflexivity.
Qed.

Lemma ndigits_bound x m :
  0 <= x < 10 ^ Z.of_nat m -> (1 <= m)%nat -> (ndigits x <= m)%nat.
Proof.
  unfold ndigits. intros [Hx Hlt]. revert m Hlt. pattern x.
  apply decimal_induction; [| |exact Hx]; clear x Hx.
  - intros n Hn m _ Hm. rewrite decimal_small by assumption. simpl. lia.
  - intros n Hn IH m Hlt Hm. rewrite decimal_step, length_append by assumption.
    simpl. destruct m as [|m]; [lia|].
    rewrite Nat2Z.inj_succ, Z.pow_succ_r in Hlt by lia.
    destruct m as [|m]; [simpl in Hlt; lia|].
    assert (n / 10 < 10 ^ Z.of_nat (S m)) by (apply Z.div_lt_upper_bound; lia).
    specialize (IH (S m) ltac:(assumption) ltac:(lia)). lia.
Qed.

Lemma closest_In x k cs c : closest x k cs = Some c -> In c cs.
Proof.
  revert c. induction cs as [|c0 cs IH]; intros c; simpl; [discriminate|].
  destruct (closest x k cs) as [best|].
  - destruct (better x k c0 best); intros [= <-]; auto.
  - intros [= <-]. auto.
Qed.

Lemma candidates_valid x k s n :
  In (s, n) (candidates x k) ->
  valid_digits x k n s = true /\ (n <= S (ndigits x))%nat.
Proof.
  unfold candidates. rewrite in_flat_map. intros [n0 [Hn0 Hin]].
  apply List.filter_In in Hin as [Hin Hvalid]. simpl in Hvalid.
  split; [exact Hvalid|].
  assert (n = n0) as -> by (destruct Hin as [[= _ ->]|[[= _ ->]|[]]]; reflexivity).
  destruct Hn0 as [<-|[<-|[]]]; lia.
Qed.

Lemma shortest_exact fuel k x :
  0 < x < 2 ^ 53 -> (1 <= k)%nat ->
  0 < fst (fst (shortest fuel k x))
  /\ fst (fst (shortest fuel k x))
     * 10 ^ Z.of_nat (snd (fst (shortest fuel k x)) - snd (shortest fuel k x)) = x
  /\ (snd (fst (shortest fuel k x)) <= S (ndigits x))%nat.
Proof.
  intros Hx. revert k. induction fuel as [|fuel IH]; intros k Hk; simpl.
  - rewrite Nat.sub_diag. simpl. lia.
  - destruct (closest x k (candidates x k)) as [[s n]|] eqn:Hc.
    + apply closest_In, candidates_valid in Hc as [Hvalid Hn]. simpl.
      unfold valid_digits in Hvalid.
      apply andb_true_iff in Hvalid as [Hrange Hround].
      apply andb_true_iff in Hrange as [Hlo Hhi].
      apply Z.leb_le in Hlo.
      assert (Hpos : 0 < 10 ^ (Z.of_nat k - 1)) by (apply Z.pow_pos_nonneg; lia).
      assert (Hscale : 0 < 10 ^ Z.of_nat (n - k)) by (apply Z.pow_pos_nonneg; lia).
      split; [lia|]. split; [|exact Hn].
      destruct (round_double (s * 10 ^ Z.of_nat (n - k))) as [| |c] eqn:Hr;
        try discriminate.
      simpl in Hround. apply Z.eqb_eq in Hround. subst c.
      apply round_double_safe in Hr; [exact Hr|nia|lia].
    + apply IH. lia.
Qed.

Lemma format_positive_safe x : 0 < x < 2 ^ 53 -> format_positive x = decimal x.
Proof.
  intros Hx. unfold format_positive.
  pose proof (shortest_exact (ndigits x) 1 x Hx ltac:(lia)) as (Hs & Hval & Hn).
  destruct (shortest (ndigits x) 1 x) as [[s n] k]. simpl in *.
  assert (Hd : (ndigits x <= 16)%nat).
  { apply ndigits_bound; [|lia]. change (10 ^ Z.of_nat 16) with (10 ^ 16).
    assert (2 ^ 53 < 10 ^ 16) by reflexivity. lia. }
  destruct (Nat.leb_spec n 21); [|lia].
  rewrite <- decimal_scale, Hval by assumption. reflexivity.
Qed.

Lemma number_to_string_safe x :
  0 < x < 2 ^ 53 -> number_to_string (Fin x) = decimal x.
Proof.
  intros Hx. unfold number_to_string.
  destruct (Z.eqb_spec x 0); [lia|]. destruct (Z.ltb_spec x 0); [lia|].
  apply format_positive_safe. assumption.
Qed.

(** *** parseInt on a numeral *)

Lemma prefix_cons p q c rest :
  String.prefix (String p q) (String c rest)
  = if ascii_dec p c then String.prefix q rest else false.
Proof. reflexivity. Qed.

Lemma prefix_other p q c rest :
  p <> c -> String.prefix (String p q) (String c rest) = false.
Proof.
  intros Hne. rewrite prefix_cons.
  destruct (ascii_dec p c); [contradiction|reflexivity].
Qed.

Lemma digit_is_not c p : is_digit c = true -> is_digit p = false -> p <> c.
Proof. intros Hc Hp ->. congruence. Qed.

Lemma digit_not_space c : is_digit c = true -> is_space c = false.
Proof.
  unfold is_digit, is_space. intros H.
  apply andb_true_iff in H as [H1 H2].
  apply Nat.leb_le in H1. apply Nat.leb_le in H2.
  destruct (Nat.leb_spec 9 (nat_of_ascii c)), (Nat.leb_spec (nat_of_ascii c) 13),
    (Nat.eqb_spec (nat_of_ascii c) 32), (Nat.eqb_spec (nat_of_ascii c) 160);
    simpl; try reflexivity; lia.
Qed.

Lemma parseInt_numeral n : 0 <= n -> parseInt (decimal n) = round_double n.
Proof.
  intros Hn. pose proof (decimal_digits n Hn) as Hdigits.
  pose proof (decimal_not_empty n Hn) as Hne.
  pose proof (numeral_roundtrip n Hn) as Hread.
  destruct (decimal n) as [|c rest]; [contradiction|].
  cbn [all_chars] in Hdigits. apply andb_true_iff in Hdigits as [Hc Hrest].
  unfold parseInt.
  assert (Htrim : trimStart (String c rest) = String c rest)
    by (cbn [trimStart]; rewrite digit_not_space by assumption; reflexivity).
  rewrite Htrim.
  rewrite (prefix_other "-" "" c rest) by (apply digit_is_not; auto).
  rewrite (prefix_other "+" "" c rest) by (apply digit_is_not; auto).
  cbn [orb].
  assert (Hx : forall x, is_digit x = false ->
                         String.prefix (String "0" (String x "")) (String c rest) = false).
  { intros x Hxd. rewrite prefix_cons.
    destruct (ascii_dec "0" c); [|reflexivity].
    destruct rest as [|c2 rest2]; [reflexivity|].
    cbn [all_chars] in Hrest. apply andb_true_iff in Hrest as [Hc2 _].
    apply prefix_other. intros ->. congruence. }
  rewrite (Hx "x"%char), (Hx "X"%char) by reflexivity.
  cbn [orb]. rewrite Hread. reflexivity.
Qed.

(** *** Splitting at dots *)

Lemma split_numeral s :
  all_chars is_digit s = true -> split "." s = [s].
Proof.
  induction s as [|c s IH]; intros H; [reflexivity|].
  simpl in H. apply andb_true_iff in H as [Hc Hs]. simpl.
  destruct (Ascii.eqb_spec c "."); [subst; discriminate|].
  rewrite IH by assumption. reflexivity.
Qed.

Lemma split_numeral_dot s rest :
  all_chars is_digit s = true ->
  split "." (s ++ String "." rest)%string = s :: split "." rest.
Proof.
  induction s as [|c s IH]; intros H; [reflexivity|].
  simpl in H. apply andb_true_iff in H as [Hc Hs].
  rewrite append_cons. simpl.
  destruct (Ascii.eqb_spec c "."); [subst; discriminate|].
  rewrite IH by assumption. reflexivity.
Qed.

End JsFacts.

(* ===================================================================== *)
(** * Properties of the exploration engine *)
(* ===================================================================== *)

Local Open Scope list_scope.

Module ClassifierFacts.
Import Eff Explorer Examples.

(** C5 (as the code has it).  [classifyPage] is the first-match
    evaluation of the rule list [classification_rules]: the keywords
    login / sign in, then signup / register / sign up, then dashboard,
    profile / account, contact and about are looked for in the
    lower-cased "title heading path" text; then comes the root path;
    then a path that ends in a digit or contains "detail"; then a path
    that contains "list" or a body preview that contains "showing" or
    "results"; otherwise the generic type.  The last three tests read
    the path and the preview as they are, not the lower-cased text.  The
    result depends on the title, heading, path and preview only, and
    classifying a page record again from its own fields gives the page
    type it holds. *)
Theorem page_classification data path :
  classifyPage data path = first_match classification_rules data path
  /\ (forall data',
        title data' = title data -> heading data' = heading data ->
        bodyText data' = bodyText data ->
        classifyPage data' path = classifyPage data path)
  /\ (forall parseUrl doc url st r st',
        extractPageData parseUrl doc url st = (Returned r, st') ->
        classifyPage (signals_of r) (pr_path r) = pr_pageType r).
Proof.
  repeat match goal with |- _ /\ _ => split end.
  - unfold classifyPage, classification_rules, first_match, mentions, combined.
    cbn [existsb]. rewrite !orb_false_r, !orb_assoc. reflexivity.
  - intros data' Ht Hh Hb. unfold classifyPage. rewrite Ht, Hh, Hb. reflexivity.
  - intros parseUrl doc url st r st'.
    unfold extractPageData, bind, await, ret.
    destruct (doc_data doc) as [|data0]; [discriminate|].
    destruct (parseUrl url) as [u|]; [|discriminate].
    intros [= <- _]. reflexivity.
Qed.

Lemma page_classification_witness :
  extractPageData Url.parse (page "Sign in" []) "http://a.com/account" initial
  = (Returned {| pr_url := "http://a.com/account"; pr_path := "/account";
                 pr_pageName := "Sign in"; pr_pageType := Login;
                 pr_title := "Sign in"; pr_heading := "";
                 pr_description := ""; pr_preview := "" |}, initial)
  /\ classifyPage {| title := "Sign in"; heading := ""; description := "";
                     bodyText := "" |} "/account" = Login.
Proof.
  assert (H : extractPageData Url.parse (page "Sign in" [])
                "http://a.com/account" initial
              = (Returned {| pr_url := "http://a.com/account";
                             pr_path := "/account";
                             pr_pageName := "Sign in"; pr_pageType := Login;
                             pr_title := "Sign in"; pr_heading := "";
                             pr_description := ""; pr_preview := "" |},
                 initial)) by reflexivity.
  split; [exact H|].
  exact (proj2 (proj2 (page_classification order_detail "/"))
           Url.parse _ _ _ _ _ H).
Defined.

(** C5, the claim as worded fails: the combined title/heading/path text
    of this page contains the word "detail" and none of the keywords of
    the earlier rules, and the path is not the root; yet the page is not
    classified as a detail page, because the code looks for "detail" in
    the path alone. *)
Lemma detail_in_title_is_not_detail :
  Js.includes (combined order_detail "/orders/view") "detail" = true
  /\ existsb (Js.includes (combined order_detail "/orders/view"))
       ["login"; "sign in"; "signup"; "register"; "sign up"; "dashboard";
        "profile"; "account"; "contact"; "about"] = false
  /\ classifyPage order_detail "/orders/view" = GenericPage.
Proof. repeat split. Qed.

(** First match wins: a page that mentions both login and dashboard is a
    login page. *)
Example login_beats_dashboard :
  classifyPage {| title := "Login to your dashboard"; heading := "";
                  description := ""; bodyText := "" |} "/start" = Login.
Proof. reflexivity. Qed.

Example three_page_site_types :
  classifyPage {| title := "Welcome"; heading := ""; description := "";
                  bodyText := "" |} "/" = Homepage
  /\ classifyPage {| title := "Welcome"; heading := ""; description := "";
                     bodyText := "" |} "/login" = Login
  /\ classifyPage {| title := "Welcome"; heading := ""; description := "";
                     bodyText := "" |} "/dashboard" = Dashboard.
Proof. repeat split. Qed.

End ClassifierFacts.

Module ExplorerFacts.
Import Eff Explorer.

Section Run.

Variable parseUrl : string -> option Url.t.
Variable web : string -> Navigation.
Variable this : Engine.

Abbreviation explorePage := (explorePage parseUrl web this).
Abbreviation loop_body := (loop_body parseUrl web this).
Abbreviation loop_guard := (loop_guard this).
Abbreviation crawl := (crawl parseUrl web this).
Abbreviation crawl_fuel := (crawl_fuel parseUrl web this).
Abbreviation follow_link := (follow_link parseUrl this).
Abbreviation enqueue_links := (enqueue_links parseUrl this).
Abbreviation shouldFollowLink := (shouldFollowLink parseUrl this).
Abbreviation seeded := (seeded this).
Abbreviation reaches := (reaches parseUrl web this).
Abbreviation links_of := (links_of parseUrl web).
Abbreviation Linked := (Linked parseUrl web this).
Abbreviation accepts := (accepts parseUrl this).
Abbreviation followable := (followable parseUrl this).
Abbreviation measure := (measure this).
Abbreviation appended := (appended parseUrl web this).
Abbreviation turn := (turn parseUrl web this).
Abbreviation bounded := (bounded this).
Abbreviation linked := (linked parseUrl web this).
Abbreviation seed := (seed this).
Abbreviation discovered := (discovered parseUrl web this).
Abbreviation provenance := (provenance parseUrl web this).
Abbreviation fails_to_load := (fails_to_load parseUrl web).
Abbreviation fails_after_load := (fails_after_load web).

(** *** The loop, one turn at a time *)

Lemma crawl_unfold st :
  crawl st =
  if loop_guard st then
    match loop_body st with
    | (Thrown, st') => (Thrown, st')
    | (Returned _, st') => crawl st'
    end
  else (Returned tt, st).
Proof.
  funelim (crawl st).
  - rewrite e. reflexivity.
  - rewrite Hguard, e. reflexivity.
  - rewrite Hguard, Hbody. reflexivity.
Qed.


Ltac unfold_visit :=
  unfold Explorer.explorePage, tryCatch, bind, update, ret, await,
    extractPageData, extractForms, extractInteractiveElements,
    extractLinks, captureScreenshot, tryCatch, bind, ret, await.

Lemma explorePage_returns url depth st :
  fst (explorePage url depth st) = Returned tt.
Proof.
  unfold_visit.
  destruct (web url) as [|status doc]; simpl; [reflexivity|].
  destruct (400 <=? status)%Z; simpl; [reflexivity|].
  destruct (doc_settle doc); simpl; [reflexivity|].
  destruct (doc_data doc); simpl; [reflexivity|].
  destruct (parseUrl url); simpl; [|reflexivity].
  destruct (doc_forms doc); simpl; [reflexivity|].
  destruct (doc_buttons doc); simpl; [reflexivity|].
  destruct (doc_screenshot doc); simpl;
    (destruct (doc_hrefs doc); reflexivity).
Qed.

Lemma loop_body_returns st : fst (loop_body st) = Returned tt.
Proof.
  unfold Explorer.loop_body.
  destruct (toVisit st) as [|current rest]; [reflexivity|].
  destruct (_ || _); [reflexivity|]. apply explorePage_returns.
Qed.

Lemma crawl_turn st :
  loop_guard st = true -> crawl st = crawl (snd (loop_body st)).
Proof.
  intros Hg. rewrite (crawl_unfold st), Hg.
  pose proof (loop_body_returns st) as Hr.
  destruct (loop_body st) as [[|[]] st']; simpl in *; [discriminate|reflexivity].
Qed.

Lemma crawl_stop st : loop_guard st = false -> crawl st = (Returned tt, st).
Proof. intros Hg. rewrite crawl_unfold, Hg. reflexivity. Qed.

(** Induction along the loop. *)
Lemma crawl_induction (P : Crawl -> Prop) :
  (forall st, loop_guard st = false -> P st) ->
  (forall st, loop_guard st = true -> P (snd (loop_body st)) -> P st) ->
  forall st, P st.
Proof.
  intros Hstop Hturn st.
  remember (measure st) as m eqn:Hm. revert st Hm.
  induction (crawl_order_wf m) as [m _ IH]. intros st ->.
  destruct (loop_guard st) eqn:Hg; [|auto].
  apply Hturn; [assumption|].
  eapply IH; [|reflexivity].
  eapply loop_body_decreases; [eassumption|apply surjective_pairing].
Qed.

Lemma crawl_returns st : fst (crawl st) = Returned tt.
Proof.
  induction st using crawl_induction.
  - rewrite crawl_stop by assumption. reflexivity.
  - rewrite crawl_turn by assumption. assumption.
Qed.

Lemma crawl_final_guard st : loop_guard (snd (crawl st)) = false.
Proof.
  induction st using crawl_induction.
  - rewrite crawl_stop by assumption. assumption.
  - rewrite crawl_turn by assumption. assumption.
Qed.

Lemma reaches_trans st1 st2 st3 :
  reaches st1 st2 -> reaches st2 st3 -> reaches st1 st3.
Proof.
  intros H12 H23. induction H23; [assumption|].
  apply reaches_turn; assumption.
Qed.

Lemma crawl_reaches st : reaches st (snd (crawl st)).
Proof.
  induction st using crawl_induction.
  - rewrite crawl_stop by assumption. apply reaches_here.
  - rewrite crawl_turn by assumption.
    eapply reaches_trans; [|eassumption].
    apply reaches_turn; [apply reaches_here|assumption].
Qed.

Lemma reaches_crawl st st' : reaches st st' -> crawl st' = crawl st.
Proof.
  induction 1 as [|st' Hr IH Hg]; [reflexivity|].
  rewrite <- IH. symmetry. apply crawl_turn. assumption.
Qed.

Lemma crawl_fuel_sound fuel st r : crawl_fuel fuel st = Some r -> crawl st = r.
Proof.
  revert st. induction fuel as [|fuel IH]; intros st; simpl.
  - destruct (loop_guard st) eqn:Hg; [discriminate|].
    intros [= <-]. apply crawl_stop. assumption.
  - destruct (loop_guard st) eqn:Hg.
    + rewrite crawl_turn by assumption.
      pose proof (loop_body_returns st) as Hr.
      destruct (loop_body st) as [[|[]] st']; simpl in *; [discriminate|].
      apply IH.
    + intros [= <-]. apply crawl_stop. assumption.
Qed.

Lemma crawl_fuel_enough st : exists fuel, crawl_fuel fuel st = Some (crawl st).
Proof.
  induction st as [st Hg|st Hg [fuel IH]] using crawl_induction.
  - exists 0. simpl. rewrite Hg, crawl_stop by assumption. reflexivity.
  - exists (S fuel). simpl. rewrite Hg, crawl_turn by assumption.
    pose proof (loop_body_returns st) as Hr.
    destruct (loop_body st) as [[|[]] st']; simpl in *; [discriminate|].
    assumption.
Qed.


(** *** What one visit does to the queue and to the log *)

Lemma shouldFollowLink_visited st st' link :
  visited st = visited st' ->
  shouldFollowLink st link = shouldFollowLink st' link.
Proof.
  intros Hv. unfold Explorer.shouldFollowLink, first_visited_or_target.
  rewrite Hv. reflexivity.
Qed.

Lemma accepts_visited st st' link :
  visited st = visited st' -> accepts st link = accepts st' link.
Proof.
  intros Hv. unfold Explorer.accepts.
  rewrite (shouldFollowLink_visited st st' link Hv), Hv. reflexivity.
Qed.

Lemma enqueue_links_toVisit depth links st :
  toVisit (enqueue_links depth links st)
  = toVisit st ++ entries_at depth (List.filter (accepts st) links).
Proof.
  unfold Explorer.enqueue_links. revert st.
  induction links as [|l ls IH]; intros st; simpl.
  - rewrite app_nil_r. reflexivity.
  - rewrite IH.
    rewrite (List.filter_ext (accepts (follow_link depth st l)) (accepts st))
      by (intros x; apply accepts_visited, follow_link_visited).
    unfold Explorer.follow_link at 1. fold (accepts st l).
    destruct (accepts st l); simpl; [|reflexivity].
    rewrite <- app_assoc. reflexivity.
Qed.

Lemma enqueue_links_trace depth links st :
  trace (enqueue_links depth links st)
  = trace st ++ map Enqueue (entries_at depth (List.filter (accepts st) links)).
Proof.
  unfold Explorer.enqueue_links. revert st.
  induction links as [|l ls IH]; intros st; simpl.
  - rewrite app_nil_r. reflexivity.
  - rewrite IH.
    rewrite (List.filter_ext (accepts (follow_link depth st l)) (accepts st))
      by (intros x; apply accepts_visited, follow_link_visited).
    unfold Explorer.follow_link at 1. fold (accepts st l).
    destruct (accepts st l); simpl; [|reflexivity].
    rewrite <- app_assoc. reflexivity.
Qed.

Lemma explorePage_toVisit url depth st :
  toVisit (snd (explorePage url depth st))
  = toVisit st
    ++ entries_at depth
         (List.filter (accepts (mark_visited url depth st)) (links_of url)).
Proof.
  unfold_visit. unfold Explorer.links_of.
  destruct (web url) as [|status doc]; simpl; [now rewrite app_nil_r|].
  destruct (400 <=? status)%Z; simpl; [now rewrite app_nil_r|].
  destruct (doc_settle doc); simpl; [now rewrite app_nil_r|].
  destruct (doc_data doc); simpl; [now rewrite app_nil_r|].
  destruct (parseUrl url); simpl; [|now rewrite app_nil_r].
  destruct (doc_forms doc); simpl; [now rewrite app_nil_r|].
  destruct (doc_buttons doc); simpl; [now rewrite app_nil_r|].
  destruct (doc_screenshot doc); simpl;
    (destruct (doc_hrefs doc); simpl; [now rewrite app_nil_r|]);
    rewrite enqueue_links_toVisit; simpl; f_equal; f_equal;
    apply List.filter_ext; intros x; apply accepts_visited; reflexivity.
Qed.

Lemma explorePage_trace url depth st :
  trace (snd (explorePage url depth st))
  = trace st
    ++ Visit url depth
       :: map Enqueue
            (entries_at depth
               (List.filter (accepts (mark_visited url depth st)) (links_of url))).
Proof.
  unfold_visit. unfold Explorer.links_of.
  destruct (web url) as [|status doc]; simpl; [reflexivity|].
  destruct (400 <=? status)%Z; simpl; [reflexivity|].
  destruct (doc_settle doc); simpl; [reflexivity|].
  destruct (doc_data doc); simpl; [reflexivity|].
  destruct (parseUrl url); simpl; [|reflexivity].
  destruct (doc_forms doc); simpl; [reflexivity|].
  destruct (doc_buttons doc); simpl; [reflexivity|].
  destruct (doc_screenshot doc); simpl;
    (destruct (doc_hrefs doc); simpl; [reflexivity|]);
    rewrite enqueue_links_trace; simpl; rewrite <- app_assoc; simpl;
    f_equal; f_equal; f_equal; f_equal;
    apply List.filter_ext; intros x; apply accepts_visited; reflexivity.
Qed.


Lemma has_In s x : has s x = true <-> In x s.
Proof.
  unfold has. rewrite existsb_exists. split.
  - intros [y [Hy Heq]]. apply String.eqb_eq in Heq. subst. assumption.
  - intros H. exists x. split; [assumption|apply String.eqb_refl].
Qed.

Lemma has_not_In s x : has s x = false <-> ~ In x s.
Proof.
  rewrite <- has_In. destruct (has s x); split; congruence.
Qed.

Lemma shouldFollowLink_followable st link :
  shouldFollowLink st link = true -> followable link.
Proof.
  unfold Explorer.shouldFollowLink, Explorer.followable.
  destruct (parseUrl link) as [u|]; [|discriminate].
  destruct (String.eqb (Url.hostname u) (baseDomain this)) eqn:Hhost;
    cbn [negb]; [|discriminate].
  fold (has_skip_extension u).
  destruct (has_skip_extension u) eqn:Hext; [discriminate|].
  intros _. exists u. apply String.eqb_eq in Hhost. auto.
Qed.


Lemma appended_spec url depth st e :
  In e (appended url depth st) ->
  fe_depth e = depth + 1
  /\ In (fe_url e) (links_of url)
  /\ followable (fe_url e)
  /\ ~ In (fe_url e) (add (visited st) url).
Proof.
  unfold Explorer.appended, entries_at. rewrite in_map_iff.
  intros [link [<- Hin]]. apply List.filter_In in Hin as [Hin Hacc].
  unfold Explorer.accepts in Hacc. apply andb_true_iff in Hacc as [Hfollow Hnew].
  simpl. repeat split; try assumption.
  - eapply shouldFollowLink_followable; eassumption.
  - apply negb_true_iff, has_not_In in Hnew. exact Hnew.
Qed.


Lemma loop_body_turn st :
  loop_guard st = true -> turn st (snd (loop_body st)).
Proof.
  unfold Explorer.loop_guard, Explorer.loop_body. intros Hg.
  apply andb_true_iff in Hg as [Hq Hv]. apply Z.ltb_lt in Hv.
  destruct (toVisit st) as [|current rest] eqn:Hqueue; [discriminate|].
  destruct (has (visited (shift current rest st)) (fe_url current)
            || (Z.of_nat (fe_depth current) >? maxDepth this)%Z) eqn:Hskip.
  - eapply turn_skip; [eassumption| |reflexivity].
    apply orb_true_iff in Hskip as [H|H].
    + left. apply has_In. exact H.
    + right. apply Z.gtb_lt in H. lia.
  - apply orb_false_iff in Hskip as [Hnew Hdepth]. simpl in Hnew.
    pose proof Hnew as Hnew'. apply has_not_In in Hnew'.
    eapply turn_visit; try eassumption.
    + destruct (Z.gtb_spec (Z.of_nat (fe_depth current)) (maxDepth this)); [discriminate|lia].
    + rewrite explorePage_visited. simpl. unfold add. rewrite Hnew. reflexivity.
    + rewrite explorePage_toVisit. reflexivity.
    + rewrite explorePage_trace. simpl. rewrite <- app_assoc. reflexivity.
Qed.


Lemma reaches_invariant (P : Crawl -> Prop) st0 :
  P st0 ->
  (forall st st', P st -> turn st st' -> P st') ->
  forall st, reaches st0 st -> P st.
Proof.
  intros H0 Hstep st Hr. induction Hr as [|st' Hr IH Hg]; [assumption|].
  eapply Hstep; [eassumption|]. apply loop_body_turn. assumption.
Qed.

(** *** Projections of the log *)

Lemma visits_app t1 t2 : visits (t1 ++ t2) = visits t1 ++ visits t2.
Proof.
  induction t1 as [|[e|e|u d] t1 IH]; simpl; rewrite ?IH; reflexivity.
Qed.

Lemma dequeues_app t1 t2 : dequeues (t1 ++ t2) = dequeues t1 ++ dequeues t2.
Proof.
  induction t1 as [|[e|e|u d] t1 IH]; simpl; rewrite ?IH; reflexivity.
Qed.

Lemma enqueues_app t1 t2 : enqueues (t1 ++ t2) = enqueues t1 ++ enqueues t2.
Proof.
  induction t1 as [|[e|e|u d] t1 IH]; simpl; rewrite ?IH; reflexivity.
Qed.

Lemma visits_enqueue l : visits (map Enqueue l) = [].
Proof. induction l; simpl; auto. Qed.

Lemma dequeues_enqueue l : dequeues (map Enqueue l) = [].
Proof. induction l; simpl; auto. Qed.

Lemma enqueues_enqueue l : enqueues (map Enqueue l) = l.
Proof. induction l; simpl; congruence. Qed.

Lemma turn_visits st st' :
  turn st st' ->
  visits (trace st') = visits (trace st)
  \/ exists current rest,
       toVisit st = current :: rest
       /\ ~ In (fe_url current) (visited st)
       /\ (Z.of_nat (fe_depth current) <= maxDepth this)%Z
       /\ (Z.of_nat (length (visited st)) < maxPages this)%Z
       /\ visited st' = visited st ++ [fe_url current]
       /\ visits (trace st')
          = visits (trace st) ++ [(fe_url current, fe_depth current)].
Proof.
  intros [current rest Hq Hskip ->|current rest Hq Hnew Hd Hv Hvis Hqueue Htr].
  - left. simpl. rewrite visits_app. simpl. apply app_nil_r.
  - right. exists current, rest. repeat split; try assumption.
    rewrite Htr, visits_app. simpl. rewrite visits_enqueue. reflexivity.
Qed.

Lemma turn_visited_skip st st' :
  turn st st' -> visits (trace st') = visits (trace st) -> visited st' = visited st.
Proof.
  intros [current rest Hq Hskip ->|current rest Hq Hnew Hd Hv Hvis Hqueue Htr] Heq.
  - reflexivity.
  - rewrite Htr, visits_app in Heq. simpl in Heq. rewrite visits_enqueue in Heq.
    apply (f_equal (@length _)) in Heq. rewrite length_app in Heq. simpl in Heq. lia.
Qed.

(** *** Page budget, depth ceiling, no revisits *)


Lemma bounded_seeded : bounded seeded.
Proof.
  split; simpl.
  - constructor.
  - reflexivity.
  - lia.
  - intros url depth [].
Qed.

Lemma bounded_turn st st' : bounded st -> turn st st' -> bounded st'.
Proof.
  intros [Hnd Hlog Hpages Hdepth] Hturn.
  destruct (turn_visits st st' Hturn)
    as [Heq|(current & rest & Hq & Hnew & Hd & Hv & Hvis & Htr)].
  - pose proof (turn_visited_skip st st' Hturn Heq) as Hsame.
    split; rewrite ?Hsame, ?Heq; assumption.
  - split; rewrite ?Hvis, ?Htr.
    + apply NoDup_ListNoDup, NoDup_app. split; [|split].
      * apply NoDup_ListNoDup. assumption.
      * intros x Hx Hin%list_elem_of_singleton. subst.
        apply list_elem_of_In in Hx. contradiction.
      * apply NoDup_singleton.
    + rewrite map_app, <- Hlog. reflexivity.
    + rewrite length_app. simpl. lia.
    + intros url depth Hin. apply in_app_or in Hin as [Hin|[[= <- <-]|[]]].
      * eapply Hdepth; eassumption.
      * assumption.
Qed.

Lemma reaches_bounded st : reaches seeded st -> bounded st.
Proof.
  apply reaches_invariant; [apply bounded_seeded|apply bounded_turn].
Qed.


(** *** Everything visited or queued is linked from the target *)


Lemma linked_seeded : linked seeded.
Proof.
  split; simpl.
  - intros u [].
  - intros e [<-|[]]. simpl. apply Linked_target.
Qed.

Lemma linked_turn st st' : linked st -> turn st st' -> linked st'.
Proof.
  intros [Hvis Hqueue]
    [current rest Hq Hskip ->|current rest Hq Hnew Hd Hv Hvis' Hqueue' Htr].
  - split; simpl; [assumption|].
    intros e He. apply Hqueue. rewrite Hq. right. assumption.
  - assert (Hcur : Linked (fe_url current)).
    { apply Hqueue. rewrite Hq. left. reflexivity. }
    split.
    + intros u. rewrite Hvis'. intros Hin.
      apply in_app_or in Hin as [Hin|[<-|[]]]; auto.
    + intros e. rewrite Hqueue'. intros Hin.
      apply in_app_or in Hin as [Hin|Hin].
      * apply Hqueue. rewrite Hq. right. assumption.
      * apply appended_spec in Hin as (_ & Hlink & _).
        eapply Linked_via; eassumption.
Qed.

Lemma reaches_linked st : reaches seeded st -> linked st.
Proof.
  apply reaches_invariant; [apply linked_seeded|apply linked_turn].
Qed.

(** *** First in, first out *)

Lemma sorted_app (l1 l2 : list nat) :
  StronglySorted le (l1 ++ l2) <->
  StronglySorted le l1 /\ StronglySorted le l2
  /\ (forall x y, In x l1 -> In y l2 -> x <= y).
Proof.
  induction l1 as [|a l1 IH]; simpl.
  - split.
    + intros H. repeat split; [constructor|assumption|intros x y []].
    + intros (_ & H & _). assumption.
  - split.
    + intros H. apply StronglySorted_inv in H as [Hs Hall].
      apply IH in Hs as (H1 & H2 & H12).
      rewrite List.Forall_forall in Hall.
      repeat split; [constructor|assumption|].
      * assumption.
      * apply List.Forall_forall. intros x Hx. apply Hall, in_or_app. auto.
      * intros x y [<-|Hx] Hy; [apply Hall, in_or_app; auto|auto].
    + intros (H1 & H2 & H12). apply StronglySorted_inv in H1 as [H1 Hall].
      rewrite List.Forall_forall in Hall.
      constructor.
      * apply IH. repeat split; auto.
      * apply List.Forall_forall. intros x Hx.
        apply in_app_or in Hx as [Hx|Hx]; auto.
Qed.

Lemma sorted_drop (pre rest : list nat) d :
  StronglySorted le (pre ++ d :: rest) -> StronglySorted le (pre ++ rest).
Proof.
  rewrite !sorted_app. intros (H1 & H2 & H12).
  apply StronglySorted_inv in H2 as [H2 _].
  repeat split; try assumption.
  intros x y Hx Hy. apply H12; [assumption|right; assumption].
Qed.

Lemma sorted_advance (pre rest new : list nat) d :
  StronglySorted le (pre ++ d :: rest) ->
  (forall y, In y rest -> y <= d + 1) ->
  (forall y, In y new -> y = d + 1) ->
  StronglySorted le ((pre ++ [d]) ++ rest ++ new).
Proof.
  intros Hs Hrest Hnew.
  rewrite <- app_assoc. simpl. rewrite app_comm_cons, app_assoc.
  apply sorted_app. split; [assumption|]. split.
  - clear - Hnew. induction new as [|a new IH]; constructor.
    + apply IH. intros y Hy. apply Hnew. right. assumption.
    + apply List.Forall_forall. intros y Hy.
      rewrite (Hnew a), (Hnew y); simpl; auto.
  - intros x y Hx Hy. rewrite (Hnew y Hy).
    apply sorted_app in Hs as (_ & Hs & H12).
    apply StronglySorted_inv in Hs as [_ Hall].
    rewrite List.Forall_forall in Hall.
    apply in_app_or in Hx as [Hx|[<-|Hx]].
    + specialize (H12 x d Hx (or_introl eq_refl)). lia.
    + lia.
    + auto.
Qed.


Lemma fifo_seeded : fifo seeded.
Proof.
  split; simpl.
  - reflexivity.
  - repeat constructor.
  - repeat constructor.
  - intros e e' [<-|[]] [<-|[]]. simpl. lia.
Qed.

Lemma appended_depths url depth st y :
  In y (map fe_depth (appended url depth st)) -> y = depth + 1.
Proof.
  rewrite in_map_iff. intros [e [<- He]].
  apply appended_spec in He as [Hd _]. exact Hd.
Qed.

Lemma fifo_turn st st' : fifo st -> turn st st' -> fifo st'.
Proof.
  intros [Hfifo Hdeq Hvis Hwin]
    [current rest Hq Hskip ->|current rest Hq Hnew Hd Hv Hvis' Hqueue' Htr].
  - rewrite Hq in *. simpl in *. split; simpl.
    + rewrite enqueues_app, dequeues_app. simpl.
      rewrite app_nil_r, <- app_assoc. exact Hfifo.
    + rewrite dequeues_app, map_app. simpl. rewrite <- app_assoc. exact Hdeq.
    + rewrite visits_app. simpl. rewrite app_nil_r.
      eapply sorted_drop. exact Hvis.
    + intros e e' He He'. apply Hwin; right; assumption.
  - rewrite Hq in *. simpl in *.
    assert (Hrest : forall y, In y (map fe_depth rest) -> y <= fe_depth current + 1).
    { intros y Hy. apply in_map_iff in Hy as [e [<- He]].
      apply Hwin; [left; reflexivity|right; assumption]. }
    split; rewrite Hqueue', ?Htr.
    + rewrite enqueues_app, dequeues_app. simpl.
      rewrite enqueues_enqueue, dequeues_enqueue, Hfifo, <- !app_assoc.
      reflexivity.
    + rewrite dequeues_app. simpl. rewrite dequeues_enqueue.
      rewrite !map_app. simpl.
      apply sorted_advance; try assumption. apply appended_depths.
    + rewrite visits_app. simpl. rewrite visits_enqueue.
      rewrite !map_app. simpl.
      apply sorted_advance; try assumption. apply appended_depths.
    + assert (Hlow : forall e, In e rest -> fe_depth current <= fe_depth e).
      { intros e He. apply sorted_app in Hdeq as (_ & Hs & _).
        apply StronglySorted_inv in Hs as [_ Hall].
        rewrite List.Forall_forall in Hall. apply Hall, in_map. assumption. }
      intros e e' He He'.
      apply in_app_or in He as [He|He]; apply in_app_or in He' as [He'|He'].
      * apply Hwin; right; assumption.
      * apply appended_spec in He' as [-> _]. specialize (Hlow e He). lia.
      * apply appended_spec in He as [-> _].
        specialize (Hrest (fe_depth e') (in_map _ _ _ He')). lia.
      * apply appended_spec in He as [-> _].
        apply appended_spec in He' as [-> _]. lia.
Qed.

Lemma reaches_fifo st : reaches seeded st -> fifo st.
Proof.
  apply reaches_invariant; [apply fifo_seeded|apply fifo_turn].
Qed.


(** *** Where queue entries come from *)



Lemma split_extend (P : list Event -> FrontierEntry -> Prop) t new :
  (forall t1 e t2, t = t1 ++ Enqueue e :: t2 -> P t1 e) ->
  (forall m e m2, new = m ++ Enqueue e :: m2 -> P (t ++ m) e) ->
  forall t1 e t2, t ++ new = t1 ++ Enqueue e :: t2 -> P t1 e.
Proof.
  intros Hold Hnew t1 e t2 Heq.
  apply app_eq_app in Heq as [l [[-> Hl]|[-> Hl]]].
  - destruct l as [|x l]; simpl in Hl.
    + specialize (Hnew [] e t2 (eq_sym Hl)).
      rewrite !app_nil_r in Hnew. exact Hnew.
    + injection Hl as <- ->. eapply Hold. reflexivity.
  - eapply Hnew. exact Hl.
Qed.

Lemma provenance_seeded : provenance seeded.
Proof.
  split; simpl.
  - intros e [<-|[]]. left. reflexivity.
  - intros [|x t1] e t2 Heq; simpl; [intros []|].
    injection Heq as _ Heq. destruct t1; discriminate.
Qed.

Lemma provenance_turn st st' :
  bounded st -> provenance st -> turn st st' -> provenance st'.
Proof.
  intros Hb [Henq Hfresh]
    [current rest Hq Hskip ->|current rest Hq Hnew Hd Hv Hvis' Hqueue' Htr].
  - split; simpl.
    + intros e. rewrite enqueues_app. simpl. rewrite app_nil_r. intros He.
      destruct (Henq e He) as [->|(Hf & u & d & Hin & Hdepth & Hlink)];
        [left; reflexivity|right].
      split; [assumption|]. exists u, d. simpl. rewrite visits_app. simpl.
      rewrite app_nil_r. auto.
    + apply split_extend; [assumption|].
      intros [|x [|y m]] e m2 Heq; discriminate.
  - set (new := appended (fe_url current) (fe_depth current)
                         (shift current rest st)) in *.
    assert (Hvisits : visits (trace st')
                      = visits (trace st) ++ [(fe_url current, fe_depth current)]).
    { rewrite Htr, visits_app. simpl. rewrite visits_enqueue. reflexivity. }
    assert (Henqs : enqueues (trace st') = enqueues (trace st) ++ new).
    { rewrite Htr, enqueues_app. simpl. rewrite enqueues_enqueue. reflexivity. }
    split.
    + intros e. rewrite Henqs. intros He. apply in_app_or in He as [He|He].
      * destruct (Henq e He) as [->|(Hf & u & d & Hin & Hdepth & Hlink)];
          [left; reflexivity|right].
        split; [assumption|]. exists u, d. rewrite Hvisits.
        split; [apply in_or_app; left; assumption|auto].
      * right. apply appended_spec in He as (Hdepth & Hlink & Hf & _).
        split; [assumption|].
        exists (fe_url current), (fe_depth current). rewrite Hvisits.
        split; [apply in_or_app; right; left; reflexivity|auto].
    + rewrite Htr. apply split_extend; [assumption|].
      intros [|x [|y m]] e m2 Heq; try discriminate.
      injection Heq as <- <- Heq.
      apply map_eq_app in Heq as (l1 & l2 & Hnew' & <- & Hl2).
      destruct l2 as [|e0 l2]; [discriminate|]. injection Hl2 as -> _.
      rewrite visits_app. simpl. rewrite visits_enqueue, map_app.
      rewrite <- (bounded_log this st Hb). simpl.
      assert (He : In e new) by (rewrite Hnew'; apply in_or_app; right; left; reflexivity).
      apply appended_spec in He as (_ & _ & _ & Hnot).
      simpl in Hnot. unfold add in Hnot.
      apply has_not_In in Hnew. rewrite Hnew in Hnot. exact Hnot.
Qed.

Lemma reaches_provenance st : reaches seeded st -> provenance st.
Proof.
  intros Hr.
  cut (bounded st /\ provenance st); [intros [_ H]; exact H|].
  revert st Hr. apply reaches_invariant.
  - split; [apply bounded_seeded|apply provenance_seeded].
  - intros st st' [Hb Hp] Hturn.
    split; [eapply bounded_turn|eapply provenance_turn]; eassumption.
Qed.


(** *** Reading the log *)

Lemma in_visits t url depth : In (Visit url depth) t <-> In (url, depth) (visits t).
Proof.
  induction t as [|[e|e|u d] t IH]; simpl; [tauto| | |].
  - rewrite <- IH. split; [intros [H|H]; [discriminate|assumption]|auto].
  - rewrite <- IH. split; [intros [H|H]; [discriminate|assumption]|auto].
  - rewrite <- IH. split; intros [H|H]; auto; left; congruence.
Qed.

Lemma in_dequeues t e : In (Dequeue e) t <-> In e (dequeues t).
Proof.
  induction t as [|[e'|e'|u d] t IH]; simpl; [tauto| | |].
  - rewrite <- IH. split; [intros [H|H]; [discriminate|assumption]|auto].
  - rewrite <- IH. split; intros [H|H]; auto; left; congruence.
  - rewrite <- IH. split; [intros [H|H]; [discriminate|assumption]|auto].
Qed.

Lemma loop_guard_false st :
  loop_guard st = false <->
  toVisit st = [] \/ (maxPages this <= Z.of_nat (length (visited st)))%Z.
Proof.
  unfold Explorer.loop_guard. rewrite andb_false_iff, Z.ltb_ge.
  split; intros [H|H]; auto; left.
  - destruct (toVisit st); [reflexivity|discriminate].
  - rewrite H. reflexivity.
Qed.

Lemma reaches_final st :
  reaches seeded st -> (loop_guard st = false <-> st = snd (crawl seeded)).
Proof.
  intros Hr. split.
  - intros Hg. rewrite <- (reaches_crawl _ _ Hr), crawl_stop by assumption.
    reflexivity.
  - intros ->. apply crawl_final_guard.
Qed.

Lemma dequeued_depth st e :
  reaches seeded st -> In e (dequeues (trace st)) ->
  (Z.of_nat (fe_depth e) <= Z.max 0 (maxDepth this + 1))%Z.
Proof.
  intros Hr He.
  assert (Henq : In e (enqueues (trace st))).
  { rewrite (fifo_queue _ (reaches_fifo _ Hr)). apply in_or_app. auto. }
  destruct (prov_enqueued _ _ _ _ (reaches_provenance _ Hr) e Henq)
    as [->|(_ & u & d & Hin & -> & _)]; simpl; [lia|].
  pose proof (bounded_depth _ _ (reaches_bounded _ Hr) u d Hin). lia.
Qed.


(** *** Bounds and termination *)

(** C3 (as the code has it).  In every state the crawl loop passes
    through, the visited set has no duplicates and at most
    [max 0 maxPages] elements, and no page deeper than [maxDepth] has
    been explored.  Entries one level deeper are dequeued all the same:
    the depth test sits behind [shift], so a dequeued entry has depth at
    most [maxDepth + 1].  The loop terminates without an exception, and
    the states where it stops are exactly those with an empty queue or
    with [maxPages] pages visited.  One page is explored per element of
    the visited set, and all of them are linked from the target URL, so
    the work is bounded by both the page cap and the linked pages. *)
Theorem crawl_bounds_and_termination st :
  reaches seeded st ->
  (Z.of_nat (length (visited st)) <= Z.max 0 (maxPages this))%Z
  /\ List.NoDup (visited st)
  /\ (forall url depth,
        In (Visit url depth) (trace st) -> (Z.of_nat depth <= maxDepth this)%Z)
  /\ (forall e,
        In (Dequeue e) (trace st) ->
        (Z.of_nat (fe_depth e) <= Z.max 0 (maxDepth this + 1))%Z)
  /\ fst (crawl seeded) = Returned tt
  /\ reaches seeded (snd (crawl seeded))
  /\ ((toVisit st = []
        \/ (maxPages this <= Z.of_nat (length (visited st)))%Z)
       <-> st = snd (crawl seeded))
  /\ length (visits (trace st)) = length (visited st)
  /\ (forall u, In u (visited st) -> Linked u)
  /\ (forall R, (forall u, Linked u -> In u R) ->
                length (visited st) <= length R).
Proof.
  intros Hr.
  pose proof (reaches_bounded _ Hr) as [Hnd Hlog Hpages Hdepth].
  pose proof (reaches_linked _ Hr) as [Hlinked _].
  repeat match goal with |- _ /\ _ => split end.
  - exact Hpages.
  - exact Hnd.
  - intros url depth Hin. apply in_visits in Hin. eapply Hdepth. eassumption.
  - intros e Hin. apply in_dequeues in Hin.
    apply (dequeued_depth st); assumption.
  - apply crawl_returns.
  - apply crawl_reaches.
  - rewrite <- loop_guard_false. apply reaches_final. assumption.
  - rewrite Hlog, length_map. reflexivity.
  - exact Hlinked.
  - intros R HR. apply List.NoDup_incl_length; [assumption|].
    intros u Hu. apply HR, Hlinked. assumption.
Qed.

(** *** Breadth-first order *)

Lemma sorted_split (l : list nat) l1 b l2 a l3 :
  StronglySorted le l -> l = l1 ++ b :: l2 ++ a :: l3 -> b <= a.
Proof.
  intros Hs ->. apply sorted_app in Hs as (_ & Hs & _).
  apply StronglySorted_inv in Hs as [_ Hall].
  rewrite List.Forall_forall in Hall. apply Hall.
  apply in_or_app. right. left. reflexivity.
Qed.

(** C7.  The frontier is a first-in first-out queue: at any point of a
    run, the entries enqueued so far are the entries dequeued so far, in
    the same order, followed by the queue.  Entries leave the queue, and
    pages are visited, in non-decreasing depth: whenever [b] is dequeued
    (visited) before [a], the depth of [b] is at most that of [a]; so a
    page of smaller depth is never dequeued after a deeper one. *)
Theorem breadth_first_order st :
  reaches seeded st ->
  enqueues (trace st) = dequeues (trace st) ++ toVisit st
  /\ StronglySorted le (map fe_depth (dequeues (trace st)))
  /\ StronglySorted le (map snd (visits (trace st)))
  /\ (forall t1 b t2 a t3,
        trace st = t1 ++ Dequeue b :: t2 ++ Dequeue a :: t3 ->
        fe_depth b <= fe_depth a)
  /\ (forall t1 ub db t2 ua da t3,
        trace st = t1 ++ Visit ub db :: t2 ++ Visit ua da :: t3 ->
        db <= da).
Proof.
  intros Hr. pose proof (reaches_fifo _ Hr) as [Hq Hdeq Hvis _].
  apply sorted_app in Hdeq as (Hdeq & _ & _).
  apply sorted_app in Hvis as (Hvis & _ & _).
  repeat match goal with |- _ /\ _ => split end; try assumption.
  - intros t1 b t2 a t3 Htr.
    eapply sorted_split; [exact Hdeq|].
    rewrite Htr, dequeues_app. simpl. rewrite dequeues_app. simpl.
    rewrite map_app. simpl. rewrite map_app. reflexivity.
  - intros t1 ub db t2 ua da t3 Htr.
    eapply sorted_split; [exact Hvis|].
    rewrite Htr, visits_app. simpl. rewrite visits_app. simpl.
    rewrite map_app. simpl. rewrite map_app. reflexivity.
Qed.


(** *** What is kept out of the queue *)


Lemma follow_link_rejects depth st link :
  accepts st link = false -> follow_link depth st link = st.
Proof.
  unfold Explorer.follow_link. fold (accepts st link). intros ->. reflexivity.
Qed.

Lemma accepts_rejects st link :
  In link (visited st)
  \/ parseUrl link = None
  \/ (exists u, parseUrl link = Some u
                /\ (Url.hostname u <> baseDomain this
                    \/ has_skip_extension u = true)) ->
  accepts st link = false.
Proof.
  unfold Explorer.accepts, Explorer.shouldFollowLink.
  intros [Hvis|[Hparse|(u & Hparse & [Hhost|Hext])]].
  - apply has_In in Hvis. rewrite Hvis. apply andb_false_r.
  - rewrite Hparse. reflexivity.
  - rewrite Hparse. apply String.eqb_neq in Hhost. rewrite Hhost. reflexivity.
  - rewrite Hparse. fold (has_skip_extension u). rewrite Hext.
    destruct (negb _); reflexivity.
Qed.


(** *** Failed visits *)

Lemma links_of_fails url :
  fails_to_load url \/ fails_after_load url -> links_of url = [].
Proof.
  unfold Explorer.fails_to_load, Explorer.fails_after_load, Explorer.links_of.
  intros [[->|(status & doc & -> & H)]|(status & doc & -> & H)];
    [reflexivity| |];
    destruct (400 <=? status)%Z eqn:Hs; try reflexivity;
    destruct (doc_settle doc), (doc_data doc), (parseUrl url),
      (doc_forms doc), (doc_buttons doc), (doc_hrefs doc);
    try reflexivity; exfalso;
    repeat match goal with
           | H : _ \/ _ |- _ => destruct H
           | H : Thrown = Returned _ |- _ => discriminate H
           | H : Returned _ = Thrown |- _ => discriminate H
           | H : Some _ = None |- _ => discriminate H
           | H : (400 <= _)%Z |- _ => apply Z.leb_le in H; congruence
           end.
Qed.

Lemma explorePage_nothing_recorded url depth st :
  fails_to_load url ->
  discoveredPages (snd (explorePage url depth st)) = discoveredPages st
  /\ discoveredForms (snd (explorePage url depth st)) = discoveredForms st
  /\ interactiveElements (snd (explorePage url depth st))
     = interactiveElements st.
Proof.
  unfold Explorer.fails_to_load. unfold_visit.
  intros [->|(status & doc & -> & H)]; simpl; [auto|].
  destruct (400 <=? status)%Z eqn:Hs; simpl; [auto|].
  destruct H as [H|H]; [apply Z.leb_le in H; congruence|].
  destruct (doc_settle doc); simpl; [auto|].
  destruct (doc_data doc); simpl; [auto|].
  destruct (parseUrl url); simpl; [|auto].
  exfalso. destruct H as [H|[H|H]]; discriminate.
Qed.

Lemma In_add s x : In x (add s x).
Proof.
  unfold add. destruct (has s x) eqn:H.
  - apply has_In. assumption.
  - apply in_or_app. right. left. reflexivity.
Qed.

Lemma enqueue_links_keeps_records depth links st :
  discoveredPages (enqueue_links depth links st) = discoveredPages st
  /\ discoveredForms (enqueue_links depth links st) = discoveredForms st
  /\ interactiveElements (enqueue_links depth links st) = interactiveElements st.
Proof.
  unfold Explorer.enqueue_links. revert st.
  induction links as [|l ls IH]; intros st; simpl; [auto|].
  destruct (IH (follow_link depth st l)) as (-> & -> & ->).
  unfold Explorer.follow_link. destruct (_ && _); auto.
Qed.

(** What a visit leaves of a page that loaded: the page record, then
    the forms unless their extraction throws, then the elements unless
    theirs throws. *)
Lemma explorePage_keeps_records url depth st status doc p :
  web url = NavResponse status doc ->
  (status < 400)%Z ->
  doc_settle doc = Returned tt ->
  Explorer.extractPageData parseUrl doc url st = (Returned p, st) ->
  discoveredPages (snd (explorePage url depth st)) = discoveredPages st ++ [p]
  /\ match doc_forms doc with
     | Thrown =>
         discoveredForms (snd (explorePage url depth st)) = discoveredForms st
         /\ interactiveElements (snd (explorePage url depth st))
            = interactiveElements st
     | Returned forms =>
         discoveredForms (snd (explorePage url depth st))
         = discoveredForms st ++ forms
         /\ match doc_buttons doc with
            | Thrown =>
                interactiveElements (snd (explorePage url depth st))
                = interactiveElements st
            | Returned bs =>
                interactiveElements (snd (explorePage url depth st))
                = interactiveElements st
                  ++ firstn 20 (bs ++ doc_clickables doc)
            end
     end.
Proof.
  intros Hweb Hs Hsettle Hdata.
  assert (Hstatus : (400 <=? status)%Z = false) by (apply Z.leb_gt; exact Hs).
  unfold Explorer.extractPageData, bind, await, ret in Hdata.
  destruct (doc_data doc) as [|data] eqn:Hd; [discriminate|].
  destruct (parseUrl url) as [u|] eqn:Hu; [|discriminate].
  injection Hdata as <-.
  unfold_visit. rewrite Hweb, Hstatus, Hsettle, Hd, Hu.
  destruct (doc_forms doc) as [|forms]; simpl; [auto|].
  destruct (doc_buttons doc) as [|bs]; simpl; [auto|].
  destruct (doc_screenshot doc); simpl;
    (destruct (doc_hrefs doc) as [|hrefs]; simpl; [auto|]);
    match goal with
    | |- context [enqueue_links ?d ?l ?s] =>
        destruct (enqueue_links_keeps_records d l s) as (-> & -> & ->)
    end; auto.
Qed.

(** C6 (as the code has it).  A visit never throws, and the URL is in
    the visited set afterwards.  When the page fails to load (navigation
    error, status 400 or above, a throw while settling or reading the
    metadata), no page, form or element record is added and the queue is
    unchanged.  When a later extraction step throws, the queue is
    unchanged as well: no link of the page is enqueued; but what was
    pushed before the throw remains: the page record of every page that
    loaded, its forms unless their extraction threw, and its elements
    unless theirs threw.  The loop body and the loop never end with an
    exception, and the loop goes on from the state the visit leaves. *)
Theorem failed_visit_recovery url depth st :
  fst (explorePage url depth st) = Returned tt
  /\ In url (visited (snd (explorePage url depth st)))
  /\ (fails_to_load url ->
      discoveredPages (snd (explorePage url depth st)) = discoveredPages st
      /\ discoveredForms (snd (explorePage url depth st)) = discoveredForms st
      /\ interactiveElements (snd (explorePage url depth st))
         = interactiveElements st
      /\ toVisit (snd (explorePage url depth st)) = toVisit st)
  /\ (fails_after_load url ->
      toVisit (snd (explorePage url depth st)) = toVisit st)
  /\ (forall status doc p,
        web url = NavResponse status doc ->
        (status < 400)%Z ->
        doc_settle doc = Returned tt ->
        Explorer.extractPageData parseUrl doc url st = (Returned p, st) ->
        discoveredPages (snd (explorePage url depth st))
        = discoveredPages st ++ [p]
        /\ match doc_forms doc with
           | Thrown =>
               discoveredForms (snd (explorePage url depth st))
               = discoveredForms st
               /\ interactiveElements (snd (explorePage url depth st))
                  = interactiveElements st
           | Returned forms =>
               discoveredForms (snd (explorePage url depth st))
               = discoveredForms st ++ forms
               /\ match doc_buttons doc with
                  | Thrown =>
                      interactiveElements (snd (explorePage url depth st))
                      = interactiveElements st
                  | Returned bs =>
                      interactiveElements (snd (explorePage url depth st))
                      = interactiveElements st
                        ++ firstn 20 (bs ++ doc_clickables doc)
                  end
           end)
  /\ (forall st0,
        fst (loop_body st0) = Returned tt
        /\ fst (crawl st0) = Returned tt
        /\ (loop_guard st0 = true -> crawl st0 = crawl (snd (loop_body st0)))).
Proof.
  repeat match goal with |- _ /\ _ => split end.
  - apply explorePage_returns.
  - rewrite explorePage_visited. apply In_add.
  - intros Hfail.
    destruct (explorePage_nothing_recorded url depth st Hfail) as (Hp & Hf & He).
    repeat split; try assumption.
    rewrite explorePage_toVisit, links_of_fails by auto. apply app_nil_r.
  - intros Hfail.
    rewrite explorePage_toVisit, links_of_fails by auto. apply app_nil_r.
  - intros status doc p. apply explorePage_keeps_records.
  - intros st0. repeat split.
    + apply loop_body_returns.
    + apply crawl_returns.
    + apply crawl_turn.
Qed.

End Run.

(** *** The chain site, run *)

Import Examples.


Lemma chain_reaches_two :
  reaches Url.parse chain_site chain_engine (seeded chain_engine) chain_after_two.
Proof.
  unfold chain_after_two.
  apply reaches_turn; [apply reaches_turn; [apply reaches_here|]|];
    vm_compute; reflexivity.
Defined.

Lemma chain_run :
  crawl Url.parse chain_site chain_engine (seeded chain_engine)
  = (Returned tt,
     {| visited := ["http://a.com/"; "http://a.com/a"];
        toVisit := [];
        discoveredPages :=
          [ {| pr_url := "http://a.com/"; pr_path := "/";
               pr_pageName := "Homepage"; pr_pageType := Homepage;
               pr_title := "Home"; pr_heading := ""; pr_description := "";
               pr_preview := "" |};
            {| pr_url := "http://a.com/a"; pr_path := "/a";
               pr_pageName := "A"; pr_pageType := GenericPage;
               pr_title := "A"; pr_heading := ""; pr_description := "";
               pr_preview := "" |} ];
        discoveredForms := [];
        interactiveElements := [];
        trace :=
          [ Enqueue {| fe_url := "http://a.com/"; fe_depth := 0 |};
            Dequeue {| fe_url := "http://a.com/"; fe_depth := 0 |};
            Visit "http://a.com/" 0;
            Enqueue {| fe_url := "http://a.com/a"; fe_depth := 1 |};
            Dequeue {| fe_url := "http://a.com/a"; fe_depth := 1 |};
            Visit "http://a.com/a" 1;
            Enqueue {| fe_url := "http://a.com/b"; fe_depth := 2 |};
            Dequeue {| fe_url := "http://a.com/b"; fe_depth := 2 |} ] |}).
Proof.
  apply crawl_fuel_sound with (fuel := 5). vm_compute. reflexivity.
Qed.

Lemma crawl_bounds_and_termination_witness :
  reaches Url.parse chain_site chain_engine (seeded chain_engine) chain_after_two
  /\ (Z.of_nat (length (visited chain_after_two))
      <= Z.max 0 (maxPages chain_engine))%Z.
Proof.
  split; [exact chain_reaches_two|].
  exact (proj1 (crawl_bounds_and_termination Url.parse chain_site chain_engine
                  chain_after_two chain_reaches_two)).
Defined.

(** C3, the claim as worded fails: with a depth ceiling of 1, the entry
    for [/b] at depth 2 is dequeued (and then discarded). *)
Lemma dequeued_beyond_max_depth :
  exists e,
    In (Dequeue e)
       (trace (snd (crawl Url.parse chain_site chain_engine
                      (seeded chain_engine))))
    /\ (Z.of_nat (fe_depth e) > maxDepth chain_engine)%Z.
Proof.
  exists {| fe_url := "http://a.com/b"; fe_depth := 2 |}.
  rewrite chain_run. split; [simpl; tauto|reflexivity].
Qed.

Lemma breadth_first_order_witness :
  reaches Url.parse chain_site chain_engine (seeded chain_engine) chain_after_two
  /\ StronglySorted le (map snd (visits (trace chain_after_two))).
Proof.
  split; [exact chain_reaches_two|].
  exact (proj1 (proj2 (proj2
           (breadth_first_order Url.parse chain_site chain_engine
              chain_after_two chain_reaches_two)))).
Defined.



(** A link to a document is turned down whatever the state, the depth
    and the budget. *)
Example report_pdf_never_enqueued this depth st :
  baseDomain this = "a.com" ->
  follow_link Url.parse this depth st "http://a.com/report.pdf" = st.
Proof.
  intros _. apply follow_link_rejects, accepts_rejects. right. right.
  exists (Url.Make "a.com" "/report.pdf" "").
  split; [reflexivity|]. right. reflexivity.
Qed.

(** The host test: a link to another host is turned down. *)
Example other_host_never_enqueued depth st :
  follow_link Url.parse chain_engine depth st "http://b.com/x" = st.
Proof.
  apply follow_link_rejects, accepts_rejects. right. right.
  exists (Url.Make "b.com" "/x" "").
  split; [reflexivity|]. left. discriminate.
Qed.

Lemma failed_visit_recovery_witness :
  fails_to_load Url.parse chain_site "http://a.com/c"
  /\ toVisit (snd (explorePage Url.parse chain_site chain_engine
                     "http://a.com/c" 2 initial))
     = toVisit initial
  /\ doc_forms broken_forms = Thrown
  /\ exists p,
       Explorer.extractPageData Url.parse broken_forms "http://a.com/" initial
       = (Returned p, initial)
       /\ discoveredPages (snd (explorePage Url.parse broken_site chain_engine
                                  "http://a.com/" 0 initial))
          = discoveredPages initial ++ [p].
Proof.
  assert (Hfail : fails_to_load Url.parse chain_site "http://a.com/c")
    by (left; reflexivity).
  split; [exact Hfail|].
  pose proof (failed_visit_recovery Url.parse chain_site chain_engine
                "http://a.com/c" 2 initial) as (_ & _ & Hload & _).
  split; [exact (proj2 (proj2 (proj2 (Hload Hfail))))|].
  split; [reflexivity|].
  pose proof (failed_visit_recovery Url.parse broken_site chain_engine
                "http://a.com/" 0 initial) as (_ & _ & _ & _ & Hkept & _).
  eexists. split; [vm_compute; reflexivity|].
  refine (proj1 (Hkept 200%Z broken_forms _ eq_refl eq_refl eq_refl _)).
  vm_compute. reflexivity.
Defined.

(** C6, the claim as worded fails: the page loads, its metadata is
    read and recorded, and then form extraction throws.  The visit has
    failed, yet its page record stays. *)
Lemma page_recorded_despite_failure :
  fails_after_load broken_site "http://a.com/"
  /\ length (discoveredPages
               (snd (explorePage Url.parse broken_site chain_engine
                       "http://a.com/" 0 initial))) = 1
  /\ discoveredPages initial = [].
Proof.
  split; [|split; reflexivity].
  exists 200%Z, broken_forms. split; [reflexivity|]. left. reflexivity.
Qed.

End ExplorerFacts.

(* ===================================================================== *)
(** * Further properties of the exploration engine *)
(* ===================================================================== *)

Module SetFacts.
Import Explorer ExplorerFacts.

(** *** Sets as insertion-ordered lists *)

Lemma add_In s x y : In y (add s x) <-> In y s \/ y = x.
Proof.
  unfold add. destruct (has s x) eqn:Hx.
  - apply has_In in Hx. split; [auto|]. intros [H| ->]; assumption.
  - rewrite in_app_iff. simpl. intuition congruence.
Qed.

Lemma add_NoDup s x : List.NoDup s -> List.NoDup (add s x).
Proof.
  intros Hnd. unfold add. destruct (has s x) eqn:Hx; [assumption|].
  apply has_not_In in Hx.
  apply NoDup_ListNoDup, NoDup_app. split; [|split].
  - apply NoDup_ListNoDup. assumption.
  - intros y Hy Hin%list_elem_of_singleton. subst.
    apply list_elem_of_In in Hy. contradiction.
  - apply NoDup_singleton.
Qed.

Lemma fold_add_In l acc y :
  In y (fold_left add l acc) <-> In y acc \/ In y l.
Proof.
  revert acc. induction l as [|x l IH]; intros acc; simpl.
  - tauto.
  - rewrite IH, add_In. intuition congruence.
Qed.

Lemma fold_add_NoDup l acc :
  List.NoDup acc -> List.NoDup (fold_left add l acc).
Proof.
  revert acc. induction l as [|x l IH]; intros acc Hnd; simpl; [assumption|].
  apply IH, add_NoDup. assumption.
Qed.

Lemma dedupe_In l y : In y (dedupe l) <-> In y l.
Proof. unfold dedupe. rewrite fold_add_In. simpl. tauto. Qed.

Lemma dedupe_NoDup l : List.NoDup (dedupe l).
Proof. apply fold_add_NoDup. constructor. Qed.

End SetFacts.

Module CrawlFacts.
Import Eff Explorer ExplorerFacts SetFacts.

Section Run.

Variable parseUrl : string -> option Url.t.
Variable web : string -> Navigation.
Variable this : Engine.

Abbreviation explorePage := (explorePage parseUrl web this).
Abbreviation loop_body := (loop_body parseUrl web this).
Abbreviation loop_guard := (loop_guard this).
Abbreviation crawl := (crawl parseUrl web this).
Abbreviation shouldFollowLink := (shouldFollowLink parseUrl this).
Abbreviation seeded := (seeded this).
Abbreviation reaches := (reaches parseUrl web this).
Abbreviation recorded := (recorded parseUrl web).
Abbreviation anchored := (anchored this).
Abbreviation followed_in_run := (followed_in_run parseUrl this).
Abbreviation explore := (explore parseUrl web this).

(** *** Links of a page *)

(** X1.  [extractLinks] leaves the tracking data alone and returns
    each link once: a URL is returned exactly when it is the [href] of
    an anchor of the document, is not empty and does not start with
    [javascript:], [mailto:] or [tel:]. *)
Theorem extractLinks_distinct_and_filtered doc st links st' :
  extractLinks doc st = (Returned links, st') ->
  st' = st
  /\ List.NoDup links
  /\ forall link,
       In link links <->
       exists hrefs,
         doc_hrefs doc = Returned hrefs /\ In link hrefs
         /\ link <> ""
         /\ Js.startsWith link "javascript:" = false
         /\ Js.startsWith link "mailto:" = false
         /\ Js.startsWith link "tel:" = false.
Proof.
  unfold extractLinks, bind, await, ret.
  destruct (doc_hrefs doc) as [|hrefs]; [discriminate|].
  intros [= <- <-]. split; [reflexivity|]. split; [apply dedupe_NoDup|].
  intros link. rewrite dedupe_In, List.filter_In. unfold keep_href.
  rewrite !andb_true_iff, !negb_true_iff. split.
  - intros (Hin & ((Hne & Hj) & Hm) & Ht). exists hrefs.
    repeat match goal with |- _ /\ _ => split end; try assumption; try reflexivity.
    intros ->. discriminate.
  - intros (hrefs' & [= <-] & Hin & Hne & Hj & Hm & Ht).
    repeat match goal with |- _ /\ _ => split end; try assumption.
    destruct (String.eqb_spec link ""); [contradiction|reflexivity].
Qed.

(** *** What a visit records *)

Lemma extractPageData_state doc url st p st' :
  extractPageData parseUrl doc url st = (Returned p, st') ->
  pr_url p = url
  /\ forall s, extractPageData parseUrl doc url s = (Returned p, s).
Proof.
  unfold extractPageData, bind, await, ret.
  destruct (doc_data doc) as [|data]; [discriminate|].
  destruct (parseUrl url) as [u|]; [|discriminate].
  intros [= <- <-]. split; reflexivity.
Qed.

Lemma enqueue_links_records depth links st :
  discoveredPages (enqueue_links parseUrl this depth links st) = discoveredPages st
  /\ interactiveElements (enqueue_links parseUrl this depth links st)
     = interactiveElements st.
Proof.
  unfold enqueue_links. revert st.
  induction links as [|l ls IH]; intros st; simpl; [split; reflexivity|].
  destruct (IH (follow_link parseUrl this depth st l)) as [-> ->].
  unfold follow_link. destruct (_ && _); split; reflexivity.
Qed.

Ltac unfold_visit :=
  unfold Explorer.explorePage, tryCatch, bind, update, ret, await,
    extractPageData, extractForms, extractInteractiveElements,
    extractLinks, captureScreenshot, tryCatch, bind, ret, await.

Lemma explorePage_records url depth st :
  (discoveredPages (snd (explorePage url depth st)) = discoveredPages st
   /\ interactiveElements (snd (explorePage url depth st))
      = interactiveElements st)
  \/ exists status doc p es,
       web url = NavResponse status doc
       /\ (status < 400)%Z
       /\ doc_settle doc = Returned tt
       /\ pr_url p = url
       /\ (forall s, extractPageData parseUrl doc url s = (Returned p, s))
       /\ discoveredPages (snd (explorePage url depth st))
          = discoveredPages st ++ [p]
       /\ interactiveElements (snd (explorePage url depth st))
          = interactiveElements st ++ es
       /\ length es <= 20.
Proof.
  destruct (web url) as [|status doc] eqn:Hweb;
    [left; unfold_visit; rewrite Hweb; split; reflexivity|].
  destruct (Z.leb_spec 400 status) as [Hs|Hs].
  { left. unfold_visit. rewrite Hweb.
    destruct (Z.leb_spec 400 status); [split; reflexivity|lia]. }
  assert (Hstatus : (400 <=? status)%Z = false) by (apply Z.leb_gt; exact Hs).
  destruct (doc_settle doc) as [|[]] eqn:Hsettle;
    [left; unfold_visit; rewrite Hweb, Hstatus, Hsettle; split; reflexivity|].
  destruct (doc_data doc) as [|data] eqn:Hdata;
    [left; unfold_visit; rewrite Hweb, Hstatus, Hsettle, Hdata; split; reflexivity|].
  destruct (parseUrl url) as [u|] eqn:Hu;
    [|left; unfold_visit; rewrite Hweb, Hstatus, Hsettle, Hdata, Hu;
      split; reflexivity].
  right. exists status, doc.
  eexists {| pr_url := url; pr_path := Url.pathname u;
             pr_pageName := generatePageName (Url.pathname u) (title data);
             pr_pageType := classifyPage data (Url.pathname u);
             pr_title := title data; pr_heading := heading data;
             pr_description := description data;
             pr_preview := bodyText data |}.
  assert (Hlen : forall bs, length (firstn 20 (bs ++ doc_clickables doc)) <= 20)
    by (intros; apply firstn_le_length).
  destruct (doc_forms doc) as [|fs] eqn:Hforms.
  { exists []. unfold_visit. rewrite Hweb, Hstatus, Hsettle, Hdata, Hu, Hforms.
    simpl. rewrite app_nil_r.
    repeat match goal with |- _ /\ _ => split end;
      try assumption; try reflexivity; lia. }
  destruct (doc_buttons doc) as [|bs] eqn:Hbuttons.
  { exists []. unfold_visit.
    rewrite Hweb, Hstatus, Hsettle, Hdata, Hu, Hforms, Hbuttons.
    simpl. rewrite app_nil_r.
    repeat match goal with |- _ /\ _ => split end;
      try assumption; try reflexivity; lia. }
  exists (firstn 20 (bs ++ doc_clickables doc)). unfold_visit.
  rewrite Hweb, Hstatus, Hsettle, Hdata, Hu, Hforms, Hbuttons.
  destruct (doc_screenshot doc); simpl;
    (destruct (doc_hrefs doc) as [|hrefs]; simpl;
     repeat match goal with |- _ /\ _ => split end;
     try assumption; try reflexivity; try apply Hlen;
     try (rewrite (proj1 (enqueue_links_records _ _ _)); reflexivity);
     try (rewrite (proj2 (enqueue_links_records _ _ _)); reflexivity)).
Qed.

Lemma loop_body_records st :
  (discoveredPages (snd (loop_body st)) = discoveredPages st
   /\ interactiveElements (snd (loop_body st)) = interactiveElements st
   /\ forall u, In u (visited st) -> In u (visited (snd (loop_body st))))
  \/ exists current rest status doc p es,
       toVisit st = current :: rest
       /\ ~ In (fe_url current) (visited st)
       /\ visited (snd (loop_body st)) = visited st ++ [fe_url current]
       /\ web (fe_url current) = NavResponse status doc
       /\ (status < 400)%Z
       /\ doc_settle doc = Returned tt
       /\ pr_url p = fe_url current
       /\ (forall s, extractPageData parseUrl doc (fe_url current) s
                     = (Returned p, s))
       /\ discoveredPages (snd (loop_body st)) = discoveredPages st ++ [p]
       /\ interactiveElements (snd (loop_body st))
          = interactiveElements st ++ es
       /\ length es <= 20.
Proof.
  unfold Explorer.loop_body.
  destruct (toVisit st) as [|current rest] eqn:Hq; [left; auto|].
  destruct (has (visited (shift current rest st)) (fe_url current)
            || (Z.of_nat (fe_depth current) >? maxDepth this)%Z) eqn:Hskip;
    [left; auto|].
  apply orb_false_iff in Hskip as [Hnew _]. simpl in Hnew.
  pose proof (explorePage_visited parseUrl web this (fe_url current)
                (fe_depth current) (shift current rest st)) as Hvis.
  simpl in Hvis. unfold add in Hvis. rewrite Hnew in Hvis.
  apply has_not_In in Hnew.
  destruct (explorePage_records (fe_url current) (fe_depth current)
              (shift current rest st))
    as [[Hp He]|(status & doc & p & es & Hweb & Hs & Hsettle & Hurl & Hall
                 & Hp & He & Hlen)].
  - left. repeat split; try assumption.
    intros u Hu. rewrite Hvis. apply in_or_app. auto.
  - right. exists current, rest, status, doc, p, es.
    repeat match goal with |- _ /\ _ => split end; try assumption; reflexivity.
Qed.

Lemma recorded_seeded : recorded seeded.
Proof.
  split; simpl.
  - constructor.
  - intros p [].
  - intros p [].
  - lia.
Qed.

Lemma recorded_turn st :
  recorded st -> recorded (snd (loop_body st)).
Proof.
  intros [Hnd Hvis Hload Hel].
  destruct (loop_body_records st)
    as [(Hp & He & Hv)
       |(current & rest & status & doc & p & es & Hq & Hnew & Hv & Hweb & Hs
         & Hsettle & Hurl & Hall & Hp & He & Hlen)].
  - split; rewrite ?Hp, ?He; auto.
  - split; rewrite ?Hp, ?He, ?Hv.
    + rewrite map_app. simpl. apply NoDup_ListNoDup, NoDup_app.
      split; [apply NoDup_ListNoDup; exact Hnd|]. split; [|apply NoDup_singleton].
      intros u Hu Hin%list_elem_of_singleton. subst u.
      apply list_elem_of_In in Hu. apply in_map_iff in Hu as (q & Hq' & Hin).
      apply Hnew. rewrite <- Hurl, <- Hq'. apply Hvis. exact Hin.
    + intros q Hin. apply in_app_or in Hin as [Hin|[<-|[]]]; apply in_or_app.
      * left. apply Hvis. exact Hin.
      * right. left. symmetry. exact Hurl.
    + intros q Hin. apply in_app_or in Hin as [Hin|[<-|[]]]; [auto|].
      exists status, doc. rewrite Hurl. auto.
    + rewrite !length_app. simpl. lia.
Qed.

Lemma reaches_recorded st : reaches seeded st -> recorded st.
Proof.
  induction 1 as [|st' Hr IH Hg]; [apply recorded_seeded|].
  apply recorded_turn. exact IH.
Qed.

Lemma recorded_counts st :
  recorded st ->
  List.NoDup (map pr_url (discoveredPages st))
  /\ length (discoveredPages st) <= length (visited st)
  /\ length (interactiveElements st) <= 20 * length (discoveredPages st).
Proof.
  intros [Hnd Hvis _ Hel]. split; [exact Hnd|]. split; [|exact Hel].
  rewrite <- (length_map pr_url). apply NoDup_incl_length; [exact Hnd|].
  intros u Hu. apply in_map_iff in Hu as (p & <- & Hp). auto.
Qed.

(** X2.  In every state the crawl loop passes through there is at
    most one page record per URL; every recorded URL has been visited,
    it answered with a status below 400, and its record is what
    [extractPageData] returns for its document, so that classifying the
    record again from its own fields gives the page type it holds; and
    there are at most 20 interactive elements per recorded page. *)
Theorem records_of_a_run st :
  reaches seeded st ->
  List.NoDup (map pr_url (discoveredPages st))
  /\ length (discoveredPages st) <= length (visited st)
  /\ (forall p, In p (discoveredPages st) ->
        In (pr_url p) (visited st)
        /\ classifyPage (signals_of p) (pr_path p) = pr_pageType p
        /\ generatePageName (pr_path p) (pr_title p) = pr_pageName p
        /\ exists status doc,
             web (pr_url p) = NavResponse status doc
             /\ (status < 400)%Z
             /\ forall s, extractPageData parseUrl doc (pr_url p) s
                          = (Returned p, s))
  /\ length (interactiveElements st) <= 20 * length (discoveredPages st).
Proof.
  intros Hr. destruct (reaches_recorded st Hr) as [Hnd Hvis Hload Hel].
  split; [exact Hnd|]. split.
  { rewrite <- (length_map pr_url). apply NoDup_incl_length; [exact Hnd|].
    intros u Hu. apply in_map_iff in Hu as (p & <- & Hp). auto. }
  split; [|exact Hel]. intros p Hp.
  destruct (Hload p Hp) as (status & doc & Hweb & Hs & _ & Hall).
  assert (Hfields : classifyPage (signals_of p) (pr_path p) = pr_pageType p
                    /\ generatePageName (pr_path p) (pr_title p) = pr_pageName p).
  { specialize (Hall initial). revert Hall.
    unfold extractPageData, bind, await, ret.
    destruct (doc_data doc); [discriminate|].
    destruct (parseUrl (pr_url p)); [|discriminate].
    intros [= <-]. split; reflexivity. }
  destruct Hfields as [Htype Hname].
  repeat match goal with |- _ /\ _ => split end; eauto.
Qed.

(** X3.  From the seeding of the queue to the building of the report
    (the launch and the closing of the browser lie outside), [explore]
    returns: the report holds the records of the final state, its
    [pagesExplored] is the size of the visited set, failed visits
    included, so it is at least the number of page records and at most
    the page cap; [formsFound] is the number of forms reported, and no
    flow is ever reported. *)
Theorem explore_reports :
  exists data,
    explore = (Returned data, snd (crawl seeded))
    /\ ed_appName data = appName this
    /\ ed_pages data = discoveredPages (snd (crawl seeded))
    /\ ed_forms data = discoveredForms (snd (crawl seeded))
    /\ ed_elements data = interactiveElements (snd (crawl seeded))
    /\ pagesExplored (ed_statistics data)
       = length (visited (snd (crawl seeded)))
    /\ List.NoDup (map pr_url (ed_pages data))
    /\ length (ed_pages data) <= pagesExplored (ed_statistics data)
    /\ (Z.of_nat (pagesExplored (ed_statistics data))
        <= Z.max 0 (maxPages this))%Z
    /\ formsFound (ed_statistics data) = length (ed_forms data)
    /\ ed_flows data = [] /\ flowsIdentified (ed_statistics data) = 0
    /\ length (ed_elements data) <= 20 * length (ed_pages data)
    /\ ed_baseUrl data = targetUrl this.
Proof.
  unfold Explorer.explore.
  pose proof (crawl_returns parseUrl web this seeded) as Hret.
  pose proof (crawl_reaches parseUrl web this seeded) as Hr.
  destruct (crawl seeded) as [[|[]] st]; [discriminate|]. cbn [snd] in *.
  destruct (recorded_counts st (reaches_recorded st Hr)) as (Hnd & Hlen & Hel).
  pose proof (reaches_bounded parseUrl web this st Hr) as [_ _ Hpages _].
  eexists. split; [reflexivity|]. cbn.
  repeat match goal with |- _ /\ _ => split end; try assumption; reflexivity.
Qed.

(** *** The anchor test *)

Lemma anchored_seeded : anchored seeded.
Proof. left. split; [reflexivity|right; reflexivity]. Qed.

Lemma anchored_turn st st' :
  anchored st -> turn parseUrl web this st st' -> anchored st'.
Proof.
  intros Ha [current rest Hq Hskip ->|current rest Hq Hnew Hd Hv Hvis Hqueue Htr].
  - destruct Ha as [[Hnil Hqueue]|[r Hr]].
    + left. split; [exact Hnil|]. simpl. rewrite Hq in Hqueue.
      destruct Hqueue as [Hqueue|Hqueue]; [discriminate|].
      injection Hqueue as _ ->. left. reflexivity.
    + right. exists r. exact Hr.
  - right. rewrite Hvis. destruct Ha as [[Hnil Hseed]|[r Hr]].
    + rewrite Hnil. rewrite Hq in Hseed.
      destruct Hseed as [Hseed|Hseed]; [discriminate|].
      injection Hseed as -> _. exists []. reflexivity.
    + rewrite Hr. eexists. reflexivity.
Qed.

Lemma reaches_anchored st : reaches seeded st -> anchored st.
Proof.
  apply (reaches_invariant parseUrl web this anchored seeded).
  - apply anchored_seeded.
  - intros s s'. apply anchored_turn.
Qed.

Lemma visiting_reference st current rest :
  anchored st -> toVisit st = current :: rest ->
  ~ In (fe_url current) (visited st) ->
  first_visited_or_target this
    (mark_visited (fe_url current) (fe_depth current) (shift current rest st))
  = targetUrl this.
Proof.
  intros Ha Hq Hnew. unfold first_visited_or_target. simpl.
  unfold add. apply has_not_In in Hnew. rewrite Hnew.
  destruct Ha as [[Hnil Hqueue]|[r Hr]].
  - rewrite Hnil. rewrite Hq in Hqueue.
    destruct Hqueue as [Hqueue|Hqueue]; [discriminate|].
    injection Hqueue as -> _. simpl.
    destruct (String.eqb (targetUrl this) ""); reflexivity.
  - rewrite Hr. simpl. destruct (String.eqb (targetUrl this) ""); reflexivity.
Qed.

(** X4.  Throughout a run the anchor test of [shouldFollowLink]
    compares with the target URL, not with the page being explored:
    while the page at the head of the queue is visited, a link passes
    [shouldFollowLink] exactly when it parses, is on the starting host,
    does not end in a skipped extension, and is not an anchor (a URL
    with a fragment) into the path of the target URL.  Anchors into any
    other page, the page being explored included, pass. *)
Theorem anchor_test_compares_with_target st current rest link :
  reaches seeded st ->
  toVisit st = current :: rest ->
  ~ In (fe_url current) (visited st) ->
  shouldFollowLink
    (mark_visited (fe_url current) (fe_depth current) (shift current rest st))
    link = true
  <-> followed_in_run link.
Proof.
  intros Hr Hq Hnew. unfold Explorer.shouldFollowLink, Explorer.followed_in_run.
  rewrite (visiting_reference st current rest (reaches_anchored st Hr) Hq Hnew).
  fold (has_skip_extension).
  destruct (parseUrl link) as [u|]; [|split; [discriminate|intros (u & t & [=] & _)]].
  destruct (String.eqb_spec (Url.hostname u) (baseDomain this)) as [Hhost|Hhost];
    cbn [negb];
    [|split; [discriminate|intros (u' & t & [= <-] & Hh & _); contradiction]].
  change (existsb (fun ext => Js.endsWith (Js.toLowerCase (Url.pathname u)) ext)
                  skipExtensions) with (has_skip_extension u).
  destruct (has_skip_extension u) eqn:Hext;
    [split; [discriminate|intros (u' & t & [= <-] & _ & He & _); congruence]|].
  destruct (parseUrl (targetUrl this)) as [t|];
    [|split; [discriminate|intros (u' & t & _ & _ & _ & [=] & _)]].
  destruct (String.eqb_spec (Url.pathname u) (Url.pathname t)) as [Hpath|Hpath];
    destruct (String.eqb_spec (Url.hash u) "") as [Hhash|Hhash]; cbn [negb andb].
  - split; [intros _|reflexivity]. exists u, t. auto 10.
  - split; [discriminate|].
    intros (u' & t' & [= <-] & _ & _ & [= <-] & [H|H]); contradiction.
  - split; [intros _|reflexivity]. exists u, t. auto 10.
  - split; [intros _|reflexivity]. exists u, t. auto 10.
Qed.

(** *** Limits that leave nothing to explore *)





End Run.

(** *** Names and types of pages *)

Lemma append_not_empty s t : t <> ""%string -> (s ++ t)%string <> ""%string.
Proof.
  intros Ht H. destruct s as [|c s]; [contradiction|discriminate].
Qed.

Lemma last_part_not_empty parts lastPart before :
  rev (List.filter (fun p => negb (String.eqb p "")) parts) = lastPart :: before ->
  lastPart <> ""%string.
Proof.
  intros Hrev Hempty.
  assert (Hin : In lastPart (rev (List.filter (fun p => negb (String.eqb p "")) parts)))
    by (rewrite Hrev; left; reflexivity).
  apply in_rev, List.filter_In in Hin as [_ Hne].
  rewrite Hempty in Hne. discriminate.
Qed.

(** X6.  [generatePageName] never returns the empty string, and it
    names the root path (and the empty path) "Homepage" whatever the
    title is. *)
Theorem generatePageName_not_empty urlPath title :
  generatePageName urlPath title <> ""%string
  /\ generatePageName "/" title = "Homepage"
  /\ generatePageName "" title = "Homepage".
Proof.
  split; [|split; reflexivity].
  unfold generatePageName.
  destruct (String.eqb urlPath "/" || String.eqb urlPath ""); [discriminate|].
  destruct ((0 <? String.length title)%nat && (String.length title <? 50)%nat)
    eqn:Ht.
  { apply andb_true_iff in Ht as [Hpos _]. apply Nat.ltb_lt in Hpos.
    intros ->. simpl in Hpos. lia. }
  destruct (rev (List.filter (fun p => negb (String.eqb p "")) (Js.split "/" urlPath)))
    as [|lastPart before] eqn:Hrev; [discriminate|].
  pose proof (last_part_not_empty _ _ _ Hrev) as Hlast.
  destruct (all_digits lastPart || uuid_like lastPart).
  - destruct before as [|secondLast rest]; [discriminate|].
    apply append_not_empty. discriminate.
  - destruct lastPart as [|c r]; [contradiction|]. discriminate.
Qed.

Lemma file_char_cases c :
  file_char c = "-"%char
  \/ Js.is_lower (file_char c) = true \/ Js.is_digit (file_char c) = true.
Proof.
  unfold file_char.
  destruct (Js.is_lower c) eqn:Hl; cbn [orb].
  { right. left. unfold Js.lower_char.
    destruct (Js.is_upper c) eqn:Hu; [|exact Hl].
    unfold Js.is_lower, Js.is_upper in *.
    apply andb_true_iff in Hl as [H1 H2]. apply andb_true_iff in Hu as [H3 H4].
    apply Nat.leb_le in H1, H2, H3, H4. lia. }
  destruct (Js.is_upper c) eqn:Hu; cbn [orb].
  { right. left. unfold Js.lower_char. rewrite Hu.
    unfold Js.is_lower, Js.is_upper in *.
    apply andb_true_iff in Hu as [H3 H4]. apply Nat.leb_le in H3, H4.
    rewrite nat_ascii_embedding by lia.
    apply andb_true_iff. split; apply Nat.leb_le; lia. }
  destruct (Js.is_digit c) eqn:Hd; [|left; reflexivity].
  right. right. unfold Js.lower_char. rewrite Hu. exact Hd.
Qed.

Lemma file_char_lower c : file_char (Js.lower_char c) = file_char c.
Proof.
  unfold Js.lower_char. destruct (Js.is_upper c) eqn:Hu; [|reflexivity].
  unfold file_char. rewrite Hu.
  unfold Js.is_upper in Hu. apply andb_true_iff in Hu as [H3 H4].
  apply Nat.leb_le in H3, H4.
  assert (Hlow : Js.is_lower (ascii_of_nat (nat_of_ascii c + 32)) = true).
  { unfold Js.is_lower. rewrite nat_ascii_embedding by lia.
    apply andb_true_iff. split; apply Nat.leb_le; lia. }
  rewrite Hlow. cbn [orb].
  destruct (Js.is_lower c); cbn [orb].
  - unfold Js.lower_char at 1.
    assert (Hup : Js.is_upper (ascii_of_nat (nat_of_ascii c + 32)) = false).
    { unfold Js.is_upper. rewrite nat_ascii_embedding by lia.
      apply andb_false_iff. right. apply Nat.leb_gt. lia. }
    rewrite Hup. unfold Js.lower_char.
    assert (Hu : Js.is_upper c = true)
      by (unfold Js.is_upper; apply andb_true_iff; split; apply Nat.leb_le; lia).
    rewrite Hu. reflexivity.
  - unfold Js.lower_char at 1.
    assert (Hup : Js.is_upper (ascii_of_nat (nat_of_ascii c + 32)) = false).
    { unfold Js.is_upper. rewrite nat_ascii_embedding by lia.
      apply andb_false_iff. right. apply Nat.leb_gt. lia. }
    rewrite Hup. unfold Js.lower_char.
    assert (Hu : Js.is_upper c = true)
      by (unfold Js.is_upper; apply andb_true_iff; split; apply Nat.leb_le; lia).
    rewrite Hu. reflexivity.
Qed.

(** X7.  The name of a screenshot file is made of lower-case letters,
    digits and dashes, followed by [.png]: it holds no path separator,
    so the picture stays in the screenshot folder of the application.
    The name is as long as the page name plus four, and page names that
    differ in case only share a file. *)
Theorem screenshot_filename_is_plain pageName :
  (exists stem,
     screenshot_filename pageName = (stem ++ ".png")%string
     /\ String.length stem = String.length pageName
     /\ Js.all_chars (fun c => Ascii.eqb c "-" || Js.is_lower c || Js.is_digit c)
                     stem = true)
  /\ Js.free_of "/" (screenshot_filename pageName) = true
  /\ screenshot_filename (Js.toLowerCase pageName) = screenshot_filename pageName.
Proof.
  unfold screenshot_filename.
  assert (Hstem : Js.all_chars
                    (fun c => Ascii.eqb c "-" || Js.is_lower c || Js.is_digit c)
                    (Js.map_chars file_char pageName) = true).
  { induction pageName as [|c s IH]; [reflexivity|].
    cbn [Js.map_chars Js.all_chars]. rewrite IH, andb_true_r.
    destruct (file_char_cases c) as [->|[->| ->]];
      [reflexivity|rewrite orb_true_r; reflexivity|apply orb_true_r]. }
  split; [|split].
  - exists (Js.map_chars file_char pageName). split; [reflexivity|].
    split; [|exact Hstem]. clear Hstem.
    induction pageName as [|c s IH]; [reflexivity|].
    cbn [Js.map_chars String.length]. rewrite IH. reflexivity.
  - unfold Js.free_of. rewrite JsFacts.all_chars_append.
    apply andb_true_iff. split; [|reflexivity].
    revert Hstem. generalize (Js.map_chars file_char pageName) as stem.
    induction stem as [|c s IH]; [reflexivity|]. cbn [Js.all_chars].
    intros H. apply andb_true_iff in H as [Hc Hs]. rewrite (IH Hs), andb_true_r.
    destruct (Ascii.eqb_spec c "/") as [->|]; [discriminate|reflexivity].
  - f_equal. unfold Js.toLowerCase. clear Hstem.
    induction pageName as [|c s IH]; [reflexivity|].
    cbn [Js.map_chars]. rewrite IH, file_char_lower. reflexivity.
Qed.

Lemma map_chars_append f s t :
  Js.map_chars f (s ++ t)%string = (Js.map_chars f s ++ Js.map_chars f t)%string.
Proof.
  induction s as [|c s IH]; [reflexivity|].
  rewrite JsFacts.append_cons. cbn [Js.map_chars].
  rewrite IH, JsFacts.append_cons. reflexivity.
Qed.

Lemma combined_lower data path :
  combined data path
  = (Js.toLowerCase (title data) ++ " " ++ Js.toLowerCase (heading data)
     ++ " " ++ Js.toLowerCase path)%string.
Proof.
  unfold combined, Js.toLowerCase. rewrite !map_chars_append. reflexivity.
Qed.

(** X8.  The page type does not depend on the case of the title and
    of the heading, nor on the description: two pages whose titles and
    headings agree up to case and whose body texts agree get the same
    type at the same path. *)
Theorem classifyPage_ignores_case data data' path :
  Js.toLowerCase (title data) = Js.toLowerCase (title data') ->
  Js.toLowerCase (heading data) = Js.toLowerCase (heading data') ->
  bodyText data = bodyText data' ->
  classifyPage data path = classifyPage data' path.
Proof.
  intros Ht Hh Hb. unfold classifyPage.
  fold (combined data path). fold (combined data' path).
  rewrite !combined_lower, Ht, Hh, Hb. reflexivity.
Qed.

Lemma classifyPage_ignores_case_witness :
  Js.toLowerCase "Sign In" = Js.toLowerCase "SIGN IN"
  /\ classifyPage {| title := "Sign In"; heading := "Welcome";
                     description := "a"; bodyText := "" |} "/start"
     = classifyPage {| title := "SIGN IN"; heading := "welcome";
                       description := "b"; bodyText := "" |} "/start".
Proof.
  split; [reflexivity|].
  exact (classifyPage_ignores_case
           {| title := "Sign In"; heading := "Welcome";
              description := "a"; bodyText := "" |}
           {| title := "SIGN IN"; heading := "welcome";
              description := "b"; bodyText := "" |}
           "/start" eq_refl eq_refl eq_refl).
Defined.

(** *** The run on an example *)

Lemma extractLinks_example :
  extractLinks (Examples.page "Home" ["http://a.com/a"; "mailto:x@a.com";
                                      "http://a.com/a"; "http://a.com/b"])
    initial
  = (Returned ["http://a.com/a"; "http://a.com/b"], initial).
Proof. reflexivity. Qed.

Lemma extractLinks_distinct_and_filtered_witness :
  extractLinks (Examples.page "Home" ["http://a.com/a"; "mailto:x@a.com";
                                      "http://a.com/a"; "http://a.com/b"])
    initial
  = (Returned ["http://a.com/a"; "http://a.com/b"], initial)
  /\ List.NoDup ["http://a.com/a"; "http://a.com/b"].
Proof.
  split; [exact extractLinks_example|].
  exact (proj1 (proj2 (extractLinks_distinct_and_filtered _ _ _ _
                         extractLinks_example))).
Defined.

Lemma records_of_a_run_witness :
  reaches Url.parse Examples.chain_site Examples.chain_engine
    (seeded Examples.chain_engine) Examples.chain_after_two
  /\ length (discoveredPages Examples.chain_after_two)
     <= length (visited Examples.chain_after_two).
Proof.
  split; [exact chain_reaches_two|].
  exact (proj1 (proj2 (records_of_a_run Url.parse Examples.chain_site
                         Examples.chain_engine Examples.chain_after_two
                         chain_reaches_two))).
Defined.


Lemma chain_queue_after_two :
  toVisit Examples.chain_after_two
  = [{| fe_url := "http://a.com/b"; fe_depth := 2 |}].
Proof. vm_compute. reflexivity. Qed.

Lemma chain_b_not_visited :
  ~ In "http://a.com/b" (visited Examples.chain_after_two).
Proof. vm_compute. intuition discriminate. Qed.

Lemma anchor_test_compares_with_target_witness :
  reaches Url.parse Examples.chain_site Examples.chain_engine
    (seeded Examples.chain_engine) Examples.chain_after_two
  /\ (shouldFollowLink Url.parse Examples.chain_engine
        (mark_visited "http://a.com/b" 2
           (shift {| fe_url := "http://a.com/b"; fe_depth := 2 |} []
              Examples.chain_after_two))
        "http://a.com/b#top" = true
      <-> followed_in_run Url.parse Examples.chain_engine "http://a.com/b#top").
Proof.
  split; [exact chain_reaches_two|].
  exact (anchor_test_compares_with_target Url.parse Examples.chain_site
           Examples.chain_engine Examples.chain_after_two
           {| fe_url := "http://a.com/b"; fe_depth := 2 |} []
           "http://a.com/b#top"
           chain_reaches_two chain_queue_after_two chain_b_not_visited).
Defined.

End CrawlFacts.

(* ===================================================================== *)
(** * Properties of the skill updater *)
(* ===================================================================== *)

Module UpdaterFacts.
Import Eff Updater JsFacts.

(** *** Unfolding the operations *)

Lemma bind_returned {S A B} (m : Op S A) (k : A -> Op S B) st b st' :
  bind m k st = (Returned b, st') ->
  exists a st1, m st = (Returned a, st1) /\ k a st1 = (Returned b, st').
Proof.
  unfold bind. destruct (m st) as [[|a] st1]; [discriminate|].
  intros H. exists a, st1. auto.
Qed.

Ltac bind_inv H :=
  let a := fresh "a" in
  let st := fresh "h" in
  let H1 := fresh "H" in
  apply bind_returned in H as (a & st & H1 & H).

Tactic Notation "bind_step" hyp(H) "as" ident(a) ident(st) ident(H1) :=
  apply bind_returned in H as (a & st & H1 & H).

(** *** The version bump *)

Section Version.

Local Open Scope Z_scope.

Lemma split_semver major minor patch :
  0 <= major -> 0 <= minor -> 0 <= patch ->
  Js.split "." (semver major minor patch)
  = [Js.decimal major; Js.decimal minor; Js.decimal patch].
Proof.
  intros HM Hm Hp. unfold semver.
  change ("." ++ Js.decimal minor ++ "." ++ Js.decimal patch)%string
    with (String "." (Js.decimal minor ++ String "." (Js.decimal patch)))%string.
  rewrite !split_numeral_dot, split_numeral by (apply decimal_digits; assumption).
  reflexivity.
Qed.

Lemma next_version_semver major minor patch :
  0 <= major -> 0 <= minor -> 0 <= patch -> minor + 1 < 2 ^ 53 ->
  next_version (semver major minor patch) = semver major (minor + 1) patch.
Proof.
  intros HM Hm Hp Hsafe. unfold next_version.
  rewrite split_semver by assumption. cbn [List.nth assign_second].
  rewrite parseInt_numeral, round_double_exact by lia.
  cbn [Js.add_one]. rewrite round_double_exact, number_to_string_safe by lia.
  reflexivity.
Qed.

Lemma numeral_decimal n : 0 <= n -> numeral (Js.decimal n) = Some n.
Proof.
  intros Hn. unfold numeral.
  rewrite decimal_digits, numeral_roundtrip by assumption.
  destruct (String.eqb_spec (Js.decimal n) ""); [|reflexivity].
  exfalso. eapply decimal_not_empty; eassumption.
Qed.

Lemma version_lt_bump major minor patch :
  0 <= major -> 0 <= minor -> 0 <= patch ->
  version_lt (semver major minor patch) (semver major (minor + 1) patch) = true.
Proof.
  intros HM Hm Hp. unfold version_lt.
  rewrite !split_semver by lia. cbn [numerals].
  rewrite !numeral_decimal by lia. cbn [precedes].
  rewrite Z.ltb_irrefl, Z.eqb_refl.
  destruct (Z.ltb_spec minor (minor + 1)); [reflexivity|lia].
Qed.

(** **** Versions whose second component is not a number *)

Lemma split_free sep s : Js.free_of sep s = true -> Js.split sep s = [s].
Proof.
  unfold Js.free_of. induction s as [|c s IH]; intros H; [reflexivity|].
  cbn [Js.all_chars] in H. apply andb_true_iff in H as [Hc Hs].
  cbn [Js.split]. apply negb_true_iff in Hc. rewrite Hc, IH by assumption.
  reflexivity.
Qed.

Lemma split_free_sep sep s rest :
  Js.free_of sep s = true ->
  Js.split sep (s ++ String sep rest)%string = s :: Js.split sep rest.
Proof.
  unfold Js.free_of. induction s as [|c s IH]; intros H.
  - change (("" ++ String sep rest)%string) with (String sep rest).
    cbn [Js.split]. rewrite Ascii.eqb_refl. reflexivity.
  - cbn [Js.all_chars] in H. apply andb_true_iff in H as [Hc Hs].
    rewrite append_cons. cbn [Js.split]. apply negb_true_iff in Hc.
    rewrite Hc, IH by assumption. reflexivity.
Qed.

Lemma split_parts_free sep s :
  List.Forall (fun p => Js.free_of sep p = true) (Js.split sep s).
Proof.
  unfold Js.free_of. induction s as [|c s IH]; cbn [Js.split].
  - constructor; [reflexivity|constructor].
  - destruct (Ascii.eqb c sep) eqn:Hc.
    + constructor; [reflexivity|exact IH].
    + destruct (Js.split sep s) as [|p ps].
      * constructor; [|constructor]. cbn [Js.all_chars]. rewrite Hc. reflexivity.
      * inversion IH as [|? ? Hp Hps]; subst. constructor; [|exact Hps].
        cbn [Js.all_chars]. rewrite Hc, Hp. reflexivity.
Qed.

Lemma split_not_empty sep s : Js.split sep s <> [].
Proof.
  destruct s as [|c s]; cbn [Js.split]; [discriminate|].
  destruct (Ascii.eqb c sep); [discriminate|].
  destruct (Js.split sep s); discriminate.
Qed.

Lemma split_join sep parts :
  parts <> [] ->
  List.Forall (fun p => Js.free_of sep p = true) parts ->
  Js.split sep (Js.join (String sep "") parts) = parts.
Proof.
  induction parts as [|p ps IH]; intros Hne Hall; [contradiction|].
  inversion Hall as [|? ? Hp Hps]; subst.
  destruct ps as [|q ps].
  - cbn [Js.join]. apply split_free, Hp.
  - change (Js.join (String sep "") (p :: q :: ps))
      with (p ++ String sep (Js.join (String sep "") (q :: ps)))%string.
    rewrite split_free_sep by assumption. rewrite IH; [reflexivity|discriminate|assumption].
Qed.

Lemma assign_second_free x parts :
  Js.free_of "." x = true ->
  List.Forall (fun p => Js.free_of "." p = true) parts ->
  List.Forall (fun p => Js.free_of "." p = true) (assign_second x parts).
Proof.
  intros Hx Hall. destruct parts as [|a [|b rest]]; cbn [assign_second].
  - repeat constructor. exact Hx.
  - inversion Hall; subst. repeat constructor; assumption.
  - inversion Hall as [|? ? Ha Hrest]; subst.
    inversion Hrest; subst. repeat constructor; assumption.
Qed.

Lemma assign_second_twice x parts :
  parts <> [] -> assign_second x (assign_second x parts) = assign_second x parts.
Proof. destruct parts as [|a [|b rest]]; [contradiction|reflexivity|reflexivity]. Qed.

Lemma assign_second_nth x parts d :
  parts <> [] -> List.nth 1 (assign_second x parts) d = x.
Proof. destruct parts as [|a [|b rest]]; [contradiction|reflexivity|reflexivity]. Qed.

Lemma numerals_not_a_number parts :
  parts <> [] -> numerals (assign_second "NaN" parts) = None.
Proof.
  destruct parts as [|a [|b rest]]; [contradiction| |];
    intros _; cbn [assign_second numerals];
    change (numeral "NaN") with (@None Z); destruct (numeral a); reflexivity.
Qed.

Lemma next_version_not_a_number v :
  Js.parseInt (List.nth 1 (Js.split "." v) "undefined") = Js.NaN ->
  Js.split "." (next_version v) = assign_second "NaN" (Js.split "." v)
  /\ next_version (next_version v) = next_version v
  /\ version_lt v (next_version v) = false.
Proof.
  intros Hnan.
  assert (Hnext : next_version v = Js.join "." (assign_second "NaN" (Js.split "." v))).
  { unfold next_version. rewrite Hnan. reflexivity. }
  assert (Hsplit : Js.split "." (next_version v)
                   = assign_second "NaN" (Js.split "." v)).
  { rewrite Hnext. apply split_join.
    - pose proof (split_not_empty "." v).
      destruct (Js.split "." v) as [|a [|b rest]]; [contradiction| |]; discriminate.
    - apply assign_second_free; [reflexivity|apply split_parts_free]. }
  split; [exact Hsplit|]. split.
  - unfold next_version at 1. rewrite Hsplit.
    rewrite assign_second_nth by apply split_not_empty.
    change (Js.parseInt "NaN") with Js.NaN. cbn [Js.add_one Js.number_to_string].
    rewrite assign_second_twice by apply split_not_empty.
    symmetry. exact Hnext.
  - unfold version_lt. rewrite Hsplit, numerals_not_a_number by apply split_not_empty.
    destruct (numerals (Js.split "." v)); reflexivity.
Qed.

Lemma next_version_one_component v :
  Js.free_of "." v = true -> next_version v = (v ++ ".NaN")%string.
Proof.
  intros Hv. unfold next_version. rewrite split_free by assumption.
  cbn [List.nth assign_second]. change (Js.parseInt "undefined") with Js.NaN.
  reflexivity.
Qed.

End Version.

Section Heap.

Local Open Scope list_scope.

Variable parseUrl : string -> option Url.t.

Abbreviation pathname_of := (pathname_of parseUrl).
Abbreviation form_paths := (form_paths parseUrl).
Abbreviation find_form := (find_form parseUrl).
Abbreviation carry_customTestData := (carry_customTestData parseUrl).
Abbreviation mergeKnowledge := (mergeKnowledge parseUrl).
Abbreviation form_path_at := (form_path_at parseUrl).
Abbreviation well_formed := (well_formed parseUrl).

(** *** Reads *)

Lemma read_page_returned l h p h' :
  read_page l h = (Returned p, h') -> h' = h /\ pages_at h !! l = Some p.
Proof.
  unfold read_page. destruct (pages_at h !! l); [|discriminate].
  intros [= <- <-]. auto.
Qed.

Lemma read_form_returned l h f h' :
  read_form l h = (Returned f, h') -> h' = h /\ forms_at h !! l = Some f.
Proof.
  unfold read_form. destruct (forms_at h !! l); [|discriminate].
  intros [= <- <-]. auto.
Qed.

Lemma read_history_returned l h es h' :
  read_history l h = (Returned es, h') -> h' = h /\ histories_at h !! l = Some es.
Proof.
  unfold read_history. destruct (histories_at h !! l); [|discriminate].
  intros [= <- <-]. auto.
Qed.

Lemma pathname_of_returned f h p h' :
  pathname_of f h = (Returned p, h') ->
  h' = h /\ Url.pathname <$> parseUrl (action f) = Some p.
Proof.
  unfold Updater.pathname_of, ret, await.
  destruct (parseUrl (action f)); [|discriminate].
  intros [= <- <-]. auto.
Qed.

Lemma ret_returned {S A} (a b : A) (st st' : S) :
  ret a st = (Returned b, st') -> b = a /\ st' = st.
Proof. unfold ret. intros [= <- <-]. auto. Qed.

(** *** Pages: the index of the existing pages *)

Lemma index_by_path_heap ps m h m' h' :
  index_by_path ps m h = (Returned m', h') -> h' = h.
Proof.
  revert m. induction ps as [|l ps IH]; intros m H; simpl in H.
  - apply ret_returned in H as [_ ->]. reflexivity.
  - bind_inv H. apply read_page_returned in H0 as [-> _]. eauto.
Qed.

Lemma index_by_path_other ps m h m' h' p :
  index_by_path ps m h = (Returned m', h') ->
  (forall l, In l ps -> page_path_at h l <> Some p) ->
  m' !! p = m !! p.
Proof.
  revert m. induction ps as [|l ps IH]; intros m H Hother; simpl in H.
  - apply ret_returned in H as [-> _]. reflexivity.
  - bind_inv H. apply read_page_returned in H0 as [-> Hl].
    rewrite (IH _ H) by (intros l' Hl'; apply Hother; right; assumption).
    apply lookup_insert_ne. intros Heq.
    apply (Hother l (or_introl eq_refl)).
    unfold page_path_at. rewrite Hl. simpl. congruence.
Qed.

(** The index maps a path to the last page that has it. *)
Lemma index_by_path_last ps m h m' h' l1 le l2 p :
  index_by_path ps m h = (Returned m', h') ->
  ps = l1 ++ le :: l2 ->
  page_path_at h le = Some p ->
  (forall l, In l l2 -> page_path_at h l <> Some p) ->
  m' !! p = Some le.
Proof.
  revert m ps. induction l1 as [|x l1 IH]; intros m ps H -> Hle Hlast; simpl in H.
  - bind_inv H. apply read_page_returned in H0 as [-> Hl].
    rewrite (index_by_path_other _ _ _ _ _ p H Hlast).
    unfold page_path_at in Hle. rewrite Hl in Hle. injection Hle as <-.
    apply lookup_insert_eq.
  - bind_inv H. apply read_page_returned in H0 as [-> Hl].
    eapply IH; eauto.
Qed.

(** *** Pages: carrying [customData] over *)

Lemma pages_frame_refl W h : pages_frame W h h.
Proof. split; reflexivity. Qed.

Lemma pages_frame_trans W1 W2 W h1 h2 h3 :
  pages_frame W1 h1 h2 -> pages_frame W2 h2 h3 ->
  (forall l, In l W1 \/ In l W2 -> In l W) ->
  pages_frame W h1 h3.
Proof.
  intros [Hf1 Hh1 Ho1 Hs1] [Hf2 Hh2 Ho2 Hs2] HW. split.
  - congruence.
  - congruence.
  - intros l Hl. rewrite Ho2, Ho1; auto.
  - intros l. rewrite Hs2. apply Hs1.
Qed.

Lemma set_page_frame l p q h :
  pages_at h !! l = Some p -> page_shape q = page_shape p ->
  pages_frame [l] h (set_page l q h).
Proof.
  intros Hl Hshape. split; simpl; try reflexivity.
  - intros l' Hl'. apply lookup_insert_ne. intros ->. apply Hl'. left. reflexivity.
  - intros l'. destruct (decide (l = l')) as [<-|Hne].
    + rewrite lookup_insert_eq, Hl. simpl. congruence.
    + rewrite lookup_insert_ne by assumption. reflexivity.
Qed.

Lemma carry_customData_frame m l h r h' :
  carry_customData m l h = (r, h') -> pages_frame [l] h h'.
Proof.
  unfold carry_customData, bind, read_page, ret, update.
  destruct (pages_at h !! l) as [np|] eqn:Hl;
    [|intros [= _ <-]; apply pages_frame_refl].
  destruct (m !! path np) as [le|];
    [|intros [= _ <-]; apply pages_frame_refl].
  destruct (pages_at h !! le) as [ep|];
    [|intros [= _ <-]; apply pages_frame_refl].
  destruct (Js.truthy (customData ep)); intros [= _ <-];
    [|apply pages_frame_refl].
  eapply set_page_frame; [eassumption|reflexivity].
Qed.

Lemma carry_customData_hit m l h np le ep :
  pages_at h !! l = Some np -> m !! path np = Some le ->
  pages_at h !! le = Some ep -> Js.truthy (customData ep) = true ->
  carry_customData m l h
  = (Returned tt,
     set_page l {| path := path np; customData := customData ep;
                   page_rest := page_rest np |} h).
Proof.
  intros Hl Hm Hle Ht. unfold carry_customData, bind, read_page, ret, update.
  rewrite Hl, Hm, Hle, Ht. reflexivity.
Qed.

Lemma forEach_carry_frame m ls h r h' :
  forEach (carry_customData m) ls h = (r, h') -> pages_frame ls h h'.
Proof.
  revert h. induction ls as [|l ls IH]; intros h; simpl.
  - intros [= _ <-]. apply pages_frame_refl.
  - unfold bind at 1.
    destruct (carry_customData m l h) as [[|[]] h1] eqn:Hc.
    + intros [= _ <-]. apply carry_customData_frame in Hc.
      eapply (pages_frame_trans [l] []); [exact Hc|apply pages_frame_refl|].
      intros l' [[<-|[]]|[]]. left. reflexivity.
    + intros H. apply carry_customData_frame in Hc. apply IH in H.
      eapply pages_frame_trans; [exact Hc|exact H|].
      intros l' [[<-|[]]|Hl']; [left; reflexivity|right; assumption].
Qed.

(** A page of the list receives the [customData] of the page the index
    gives for its path, however often the list holds it. *)
Lemma forEach_carry_hit m ls h h' l np le ep :
  forEach (carry_customData m) ls h = (Returned tt, h') ->
  In l ls -> ~ In le ls ->
  pages_at h !! l = Some np -> m !! path np = Some le ->
  pages_at h !! le = Some ep -> Js.truthy (customData ep) = true ->
  pages_at h' !! l
  = Some {| path := path np; customData := customData ep;
            page_rest := page_rest np |}.
Proof.
  revert h np. induction ls as [|x ls IH]; intros h np H Hin Hle Hl Hm Hep Ht;
    [destruct Hin|].
  simpl in H. unfold bind in H at 1.
  destruct (carry_customData m x h) as [[|[]] h1] eqn:Hc; [discriminate|].
  destruct (decide (x = l)) as [->|Hne].
  - rewrite (carry_customData_hit m l h np le ep) in Hc by assumption.
    injection Hc as <-.
    destruct (in_dec Pos.eq_dec l ls) as [Hagain|Hx].
    + apply (IH _ {| path := path np; customData := customData ep;
                     page_rest := page_rest np |} H); try assumption.
      * intros Hle'. apply Hle. right. assumption.
      * simpl. apply lookup_insert_eq.
      * simpl. rewrite lookup_insert_ne; [assumption|].
        intros ->. apply Hle. left. reflexivity.
    + apply forEach_carry_frame in H as [_ _ Ho _].
      rewrite Ho by assumption. simpl. apply lookup_insert_eq.
  - destruct Hin as [->|Hin]; [contradiction|].
    apply carry_customData_frame in Hc as [_ _ Ho _].
    apply (IH h1); try assumption.
    + intros Hle'. apply Hle. right. assumption.
    + rewrite Ho; [assumption|]. intros [->|[]]. contradiction.
    + rewrite Ho; [assumption|]. intros [->|[]]. apply Hle. left. reflexivity.
Qed.

(** *** Pages: categories *)

Lemma category_cons k ls0 ps c :
  category c ((k, ls0) :: ps) = if String.eqb k c then ls0 else category c ps.
Proof. unfold category. simpl. destruct (String.eqb k c); reflexivity. Qed.

Lemma category_In c ps l :
  In l (category c ps) -> In l (concat (map snd ps)).
Proof.
  induction ps as [|[k ls0] ps IH]; [intros []|].
  rewrite category_cons. simpl. intros H. apply in_or_app.
  destruct (String.eqb k c); auto.
Qed.

Lemma category_spec ps c ls :
  List.NoDup (map fst ps) -> In (c, ls) ps -> category c ps = ls.
Proof.
  induction ps as [|[k ls0] ps IH]; intros Hnd Hin; [destruct Hin|].
  rewrite category_cons. simpl in Hnd. inversion Hnd as [|? ? Hk Hnd']; subst.
  destruct Hin as [[= -> ->]|Hin].
  - rewrite String.eqb_refl. reflexivity.
  - destruct (String.eqb_spec k c) as [->|Hne]; [|auto].
    exfalso. apply Hk. apply (in_map fst) in Hin. exact Hin.
Qed.

Lemma NoDup_app_parts {A} (l1 l2 : list A) :
  List.NoDup (l1 ++ l2) ->
  List.NoDup l1 /\ List.NoDup l2 /\ (forall x, In x l1 -> ~ In x l2).
Proof.
  intros H. apply NoDup_ListNoDup, NoDup_app in H as (H1 & H12 & H2).
  repeat split; try (apply NoDup_ListNoDup; assumption).
  intros x Hx1 Hx2. apply (H12 x); apply list_elem_of_In; assumption.
Qed.

Lemma category_NoDup c ps :
  List.NoDup (concat (map snd ps)) -> List.NoDup (category c ps).
Proof.
  induction ps as [|[k ls0] ps IH]; intros Hnd; [constructor|].
  rewrite category_cons. simpl in Hnd.
  apply NoDup_app_parts in Hnd as (H1 & H2 & _).
  destruct (String.eqb k c); auto.
Qed.

Lemma categories_disjoint ps c c' l :
  List.NoDup (concat (map snd ps)) -> c <> c' ->
  In l (category c ps) -> ~ In l (category c' ps).
Proof.
  induction ps as [|[k ls0] ps IH]; intros Hnd Hne; [intros []|].
  rewrite !category_cons. simpl in Hnd.
  apply NoDup_app_parts in Hnd as (H1 & H2 & H12).
  destruct (String.eqb_spec k c) as [Hkc|Hkc];
    destruct (String.eqb_spec k c') as [Hkc'|Hkc'].
  - congruence.
  - intros Hl Hl'. apply category_In in Hl'. eapply H12; eassumption.
  - intros Hl Hl'. apply category_In in Hl. eapply H12; eassumption.
  - auto.
Qed.

Lemma index_by_path_reads ps m h : snd (index_by_path ps m h) = h.
Proof.
  revert m. induction ps as [|l ps IH]; intros m; simpl; [reflexivity|].
  unfold bind, read_page. destruct (pages_at h !! l); [apply IH|reflexivity].
Qed.

(** The lookup in the existing snapshot: what it gives when the call of
    [forEach] does not throw, and when it throws. *)
Lemma existing_category_returned c ps ls :
  existing_category c ps = Returned ls -> ls = category c ps.
Proof.
  unfold existing_category, category.
  destruct (List.find _ ps) as [kv|]; [congruence|].
  destruct (Js.inherited c); congruence.
Qed.

Lemma existing_category_thrown c ps :
  existing_category c ps = Thrown
  <-> Js.inherited c = true /\ ~ In c (map fst ps).
Proof.
  unfold existing_category.
  destruct (List.find _ ps) as [kv|] eqn:Hfind.
  - split; [discriminate|]. intros [_ Hnot]. exfalso. apply Hnot.
    apply find_some in Hfind as [Hin Heq]. apply String.eqb_eq in Heq.
    subst c. apply in_map. exact Hin.
  - destruct (Js.inherited c); split.
    + intros _. split; [reflexivity|]. intros Hin.
      apply in_map_iff in Hin as (kv & <- & Hin).
      pose proof (find_none _ _ Hfind kv Hin) as Hne. simpl in Hne.
      rewrite String.eqb_refl in Hne. discriminate.
    + reflexivity.
    + discriminate.
    + intros [Hi _]. discriminate.
Qed.

Lemma merge_category_eq existing merged c h :
  merge_category existing merged c h
  = match existing_category c (pages existing) with
    | Thrown => (Thrown, h)
    | Returned _ =>
        (let* existingMap := index_by_path (category c (pages existing)) ∅ in
         forEach (carry_customData existingMap) (category c (pages merged))) h
    end.
Proof.
  unfold merge_category. unfold bind at 1. unfold await.
  destruct (existing_category c (pages existing)) as [|ls] eqn:Hc;
    [reflexivity|].
  apply existing_category_returned in Hc. subst ls. reflexivity.
Qed.

Lemma merge_category_frame existing merged c h r h' :
  merge_category existing merged c h = (r, h') ->
  pages_frame (category c (pages merged)) h h'.
Proof.
  rewrite merge_category_eq.
  destruct (existing_category c (pages existing)) as [|ls0];
    [intros [= _ <-]; apply pages_frame_refl|].
  unfold bind.
  pose proof (index_by_path_reads (category c (pages existing)) ∅ h) as Hreads.
  destruct (index_by_path (category c (pages existing)) ∅ h) as [[|m] h1];
    simpl in Hreads; subst h1.
  - intros [= _ <-]. apply pages_frame_refl.
  - apply forEach_carry_frame.
Qed.

Lemma merge_pages_frame existing merged cs h r h' :
  forEach (merge_category existing merged) cs h = (r, h') ->
  pages_frame (page_locs merged) h h'.
Proof.
  revert h. induction cs as [|c cs IH]; intros h; simpl.
  - intros [= _ <-]. apply pages_frame_refl.
  - unfold bind at 1.
    destruct (merge_category existing merged c h) as [[|[]] h1] eqn:Hc;
      apply merge_category_frame in Hc.
    + intros [= _ <-].
      eapply (pages_frame_trans _ []); [exact Hc|apply pages_frame_refl|].
      intros l [Hl|[]]. eapply category_In. exact Hl.
    + intros H. apply IH in H.
      eapply pages_frame_trans; [exact Hc|exact H|].
      intros l [Hl|Hl]; [eapply category_In; exact Hl|exact Hl].
Qed.

Lemma merge_category_hit existing merged c h h' l np l1 le l2 ep :
  merge_category existing merged c h = (Returned tt, h') ->
  In l (category c (pages merged)) ->
  ~ In le (category c (pages merged)) ->
  category c (pages existing) = l1 ++ le :: l2 ->
  pages_at h !! l = Some np -> pages_at h !! le = Some ep ->
  path ep = path np ->
  (forall l', In l' l2 -> page_path_at h l' <> Some (path np)) ->
  Js.truthy (customData ep) = true ->
  pages_at h' !! l
  = Some {| path := path np; customData := customData ep;
            page_rest := page_rest np |}.
Proof.
  intros H Hin Hle Hcat Hl Hep Hpath Hlast Ht.
  rewrite merge_category_eq in H.
  destruct (existing_category c (pages existing)) as [|ls0]; [discriminate|].
  bind_inv H.
  pose proof (index_by_path_heap _ _ _ _ _ H0). subst.
  eapply forEach_carry_hit; try eassumption.
  eapply index_by_path_last; try eassumption.
  unfold page_path_at. rewrite Hep. simpl. congruence.
Qed.

Lemma frame_page_path W h h' l :
  pages_frame W h h' -> page_path_at h' l = page_path_at h l.
Proof.
  intros [_ _ _ Hs]. specialize (Hs l). unfold page_path_at.
  destruct (pages_at h' !! l), (pages_at h !! l);
    unfold page_shape in *; simpl in *; congruence.
Qed.

Lemma merge_keys_frame existing merged cs h r h' :
  forEach (merge_category existing merged) cs h = (r, h') ->
  pages_frame (concat (map (fun c => category c (pages merged)) cs)) h h'.
Proof.
  revert h. induction cs as [|c cs IH]; intros h; simpl.
  - intros [= _ <-]. apply pages_frame_refl.
  - unfold bind at 1.
    destruct (merge_category existing merged c h) as [[|[]] h1] eqn:Hc;
      apply merge_category_frame in Hc.
    + intros [= _ <-].
      eapply (pages_frame_trans _ []); [exact Hc|apply pages_frame_refl|].
      intros l [Hl|[]]. apply in_or_app. left. exact Hl.
    + intros H. apply IH in H.
      eapply pages_frame_trans; [exact Hc|exact H|].
      intros l Hl. apply in_or_app. exact Hl.
Qed.

Lemma category_key c ps l : In l (category c ps) -> In c (map fst ps).
Proof.
  induction ps as [|[k ls0] ps IH]; [intros []|].
  rewrite category_cons. simpl.
  destruct (String.eqb_spec k c) as [->|_]; auto.
Qed.

Lemma merge_keys_hit existing analysis cs h h' c l np l1 le l2 ep :
  forEach (merge_category existing analysis) cs h = (Returned tt, h') ->
  In c cs ->
  (forall c', In l (category c' (pages analysis)) -> c' = c) ->
  ~ In le (page_locs analysis) ->
  In l (category c (pages analysis)) ->
  category c (pages existing) = l1 ++ le :: l2 ->
  pages_at h !! l = Some np -> pages_at h !! le = Some ep ->
  path ep = path np ->
  (forall l', In l' l2 -> page_path_at h l' <> Some (path np)) ->
  Js.truthy (customData ep) = true ->
  pages_at h' !! l
  = Some {| path := path np; customData := customData ep;
            page_rest := page_rest np |}.
Proof.
  revert h np. induction cs as [|c0 cs IH];
    intros h np H Hc Honly Hle Hl Hcat Hnp Hep Hpath Hlast Ht; [destruct Hc|].
  simpl in H. bind_inv H. destruct a.
  pose proof (merge_category_frame _ _ _ _ _ _ H0) as Hframe.
  pose proof Hframe as [_ _ Ho _].
  assert (Hle0 : pages_at h0 !! le = Some ep).
  { rewrite Ho; [assumption|].
    intros Hin. apply Hle. eapply category_In. exact Hin. }
  assert (Hlast0 : forall l', In l' l2 -> page_path_at h0 l' <> Some (path np))
    by (intros l' Hl'; rewrite (frame_page_path _ _ _ _ Hframe); auto).
  destruct (String.eqb_spec c0 c) as [->|Hne].
  - assert (Hset : pages_at h0 !! l
                   = Some {| path := path np; customData := customData ep;
                             page_rest := page_rest np |}).
    { eapply merge_category_hit; try eassumption.
      intros Hin. apply Hle. eapply category_In. exact Hin. }
    destruct (in_dec string_dec c cs) as [Hagain|Hnot].
    + apply (IH h0 {| path := path np; customData := customData ep;
                      page_rest := page_rest np |} H); assumption.
    + apply merge_keys_frame in H as [_ _ Ho' _].
      rewrite Ho'; [exact Hset|].
      intros Hin. apply in_concat in Hin as (ls & Hls & Hin).
      apply in_map_iff in Hls as (c' & <- & Hc').
      apply Honly in Hin. subst c'. contradiction.
  - destruct Hc as [->|Hc]; [contradiction|].
    apply (IH h0 np H); try assumption.
    rewrite Ho; [assumption|].
    intros Hin. apply Hne. apply Honly. exact Hin.
Qed.

(** *** Forms *)

Lemma forms_frame_refl W h : forms_frame W h h.
Proof. split; reflexivity. Qed.

Lemma forms_frame_trans W1 W2 W h1 h2 h3 :
  forms_frame W1 h1 h2 -> forms_frame W2 h2 h3 ->
  (forall l, In l W1 \/ In l W2 -> In l W) ->
  forms_frame W h1 h3.
Proof.
  intros [Hf1 Hh1 Ho1 Hs1] [Hf2 Hh2 Ho2 Hs2] HW. split.
  - congruence.
  - congruence.
  - intros l Hl. rewrite Ho2, Ho1; auto.
  - intros l. rewrite Hs2. apply Hs1.
Qed.

Lemma frame_form_path W h h' l :
  forms_frame W h h' -> form_path_at h' l = form_path_at h l.
Proof.
  intros [_ _ _ Hs]. specialize (Hs l). unfold Updater.form_path_at.
  destruct (forms_at h' !! l), (forms_at h !! l);
    unfold form_shape in *; simpl in *; congruence.
Qed.

Lemma pathname_of_spec f h :
  pathname_of f h
  = (match Url.pathname <$> parseUrl (action f) with
     | Some p => Returned p
     | None => Thrown
     end, h).
Proof.
  unfold Updater.pathname_of, ret, await.
  destruct (parseUrl (action f)); reflexivity.
Qed.

Lemma form_paths_reads fs h : snd (form_paths fs h) = h.
Proof.
  induction fs as [|l fs IH]; simpl; [reflexivity|].
  unfold bind, read_form. destruct (forms_at h !! l) as [f|]; [|reflexivity].
  rewrite pathname_of_spec.
  destruct (Url.pathname <$> parseUrl (action f)); [|reflexivity].
  destruct (form_paths fs h) as [[|ps] h1]; simpl in *; congruence.
Qed.

(** [form_paths] returns the action paths, in order. *)
Lemma form_paths_returned fs h ps h' :
  form_paths fs h = (Returned ps, h') ->
  h' = h /\ List.Forall2 (fun l p => form_path_at h l = Some p) fs ps.
Proof.
  revert ps h'. induction fs as [|l fs IH]; intros ps h' H; simpl in H.
  - apply ret_returned in H as [-> ->]. split; [reflexivity|constructor].
  - bind_inv H. apply read_form_returned in H0 as [-> Hl].
    bind_inv H. apply pathname_of_returned in H0 as [-> Hp].
    bind_inv H. apply IH in H0 as [-> Hrest].
    apply ret_returned in H as [-> ->]. split; [reflexivity|].
    constructor; [|exact Hrest].
    unfold Updater.form_path_at. rewrite Hl. exact Hp.
Qed.

(** It returns when every form is there and every action parses. *)
Lemma form_paths_returns fs h :
  (forall l, In l fs -> is_Some (form_path_at h l)) ->
  exists ps, form_paths fs h = (Returned ps, h).
Proof.
  induction fs as [|l fs IH]; intros Hall; simpl.
  - exists []. reflexivity.
  - destruct (Hall l (or_introl eq_refl)) as [p Hp].
    destruct IH as [ps Hps]; [intros x Hx; apply Hall; right; assumption|].
    exists (p :: ps). unfold bind at 1, read_form.
    unfold Updater.form_path_at in Hp.
    destruct (forms_at h !! l) as [f|]; [|discriminate].
    unfold bind at 1. rewrite pathname_of_spec, Hp.
    unfold bind at 1. rewrite Hps. reflexivity.
Qed.

(** It throws when a form is missing or an action does not parse. *)
Lemma form_paths_throws fs h l :
  In l fs -> form_path_at h l = None -> fst (form_paths fs h) = Thrown.
Proof.
  intros Hin Hnone. induction fs as [|x fs IH]; [destruct Hin|]. simpl.
  unfold bind at 1, read_form.
  destruct (forms_at h !! x) as [f|] eqn:Hx; [|reflexivity].
  unfold bind at 1. rewrite pathname_of_spec.
  destruct (Url.pathname <$> parseUrl (action f)) as [p|] eqn:Hp;
    [|reflexivity].
  destruct Hin as [->|Hin].
  - unfold Updater.form_path_at in Hnone. rewrite Hx in Hnone. congruence.
  - specialize (IH Hin). unfold bind at 1.
    destruct (form_paths fs h) as [[|ps] h1]; [reflexivity|discriminate].
Qed.

Lemma find_form_reads nf fs h : snd (find_form nf fs h) = h.
Proof.
  induction fs as [|l fs IH]; simpl; [reflexivity|].
  unfold bind, read_form. destruct (forms_at h !! l) as [f|]; [|reflexivity].
  rewrite !pathname_of_spec.
  destruct (Url.pathname <$> parseUrl (action f)); [|reflexivity].
  destruct (Url.pathname <$> parseUrl (action nf)); [|reflexivity].
  destruct (String.eqb _ _); [reflexivity|exact IH].
Qed.

(** [find] yields the first existing form with the path looked for. *)
Lemma find_form_first nf fs h l1 le l2 p :
  Url.pathname <$> parseUrl (action nf) = Some p ->
  fs = l1 ++ le :: l2 ->
  form_path_at h le = Some p ->
  (forall x, In x l1 ->
             is_Some (form_path_at h x) /\ form_path_at h x <> Some p) ->
  find_form nf fs h = (Returned (Some le), h).
Proof.
  intros Hnf -> Hle Hfirst. induction l1 as [|x l1 IH]; simpl.
  - unfold bind, read_form. unfold Updater.form_path_at in Hle.
    destruct (forms_at h !! le) as [f|]; [|discriminate].
    rewrite !pathname_of_spec, Hle, Hnf, String.eqb_refl. reflexivity.
  - destruct (Hfirst x (or_introl eq_refl)) as [[q Hq] Hne].
    unfold bind at 1, read_form. unfold Updater.form_path_at in Hq, Hne.
    destruct (forms_at h !! x) as [f|]; [|discriminate].
    unfold bind at 1. rewrite pathname_of_spec, Hq.
    unfold bind at 1. rewrite pathname_of_spec, Hnf.
    destruct (String.eqb_spec q p) as [->|_]; [congruence|].
    apply IH. intros y Hy. apply Hfirst. right. assumption.
Qed.

(** [find] yields nothing when no existing form has the path. *)
Lemma find_form_none nf fs h p :
  Url.pathname <$> parseUrl (action nf) = Some p ->
  (forall x, In x fs ->
             is_Some (form_path_at h x) /\ form_path_at h x <> Some p) ->
  find_form nf fs h = (Returned None, h).
Proof.
  intros Hnf Hnone. induction fs as [|x fs IH]; simpl; [reflexivity|].
  destruct (Hnone x (or_introl eq_refl)) as [[q Hq] Hne].
  unfold bind at 1, read_form. unfold Updater.form_path_at in Hq, Hne.
  destruct (forms_at h !! x) as [f|]; [|discriminate].
  unfold bind at 1. rewrite pathname_of_spec, Hq.
  unfold bind at 1. rewrite pathname_of_spec, Hnf.
  destruct (String.eqb_spec q p) as [->|_]; [congruence|].
  apply IH. intros y Hy. apply Hnone. right. assumption.
Qed.

Lemma set_form_frame l f g h :
  forms_at h !! l = Some f -> form_shape g = form_shape f ->
  forms_frame [l] h (set_form l g h).
Proof.
  intros Hl Hshape. split; simpl; try reflexivity.
  - intros l' Hl'. apply lookup_insert_ne. intros ->. apply Hl'. left. reflexivity.
  - intros l'. destruct (decide (l = l')) as [<-|Hne].
    + rewrite lookup_insert_eq, Hl. simpl. congruence.
    + rewrite lookup_insert_ne by assumption. reflexivity.
Qed.

Lemma carry_customTestData_frame existing l h r h' :
  carry_customTestData existing l h = (r, h') -> forms_frame [l] h h'.
Proof.
  unfold Updater.carry_customTestData, bind, read_form, ret, update.
  destruct (forms_at h !! l) as [nf|] eqn:Hl;
    [|intros [= _ <-]; apply forms_frame_refl].
  pose proof (find_form_reads nf (forms existing) h) as Hreads.
  destruct (find_form nf (forms existing) h) as [[|[le|]] h1];
    simpl in Hreads; subst h1;
    try (intros [= _ <-]; apply forms_frame_refl).
  destruct (forms_at h !! le) as [ef|];
    [|intros [= _ <-]; apply forms_frame_refl].
  destruct (Js.truthy (customTestData ef)); intros [= _ <-];
    [|apply forms_frame_refl].
  eapply set_form_frame; [eassumption|reflexivity].
Qed.

Lemma carry_customTestData_hit existing l h nf le ef :
  forms_at h !! l = Some nf ->
  find_form nf (forms existing) h = (Returned (Some le), h) ->
  forms_at h !! le = Some ef -> Js.truthy (customTestData ef) = true ->
  carry_customTestData existing l h
  = (Returned tt,
     set_form l {| action := action nf; customTestData := customTestData ef;
                   form_rest := form_rest nf |} h).
Proof.
  intros Hl Hfind Hle Ht.
  unfold Updater.carry_customTestData, bind, read_form, ret, update.
  rewrite Hl, Hfind, Hle, Ht. reflexivity.
Qed.

Lemma forEach_forms_frame existing ls h r h' :
  forEach (carry_customTestData existing) ls h = (r, h') -> forms_frame ls h h'.
Proof.
  revert h. induction ls as [|l ls IH]; intros h; simpl.
  - intros [= _ <-]. apply forms_frame_refl.
  - unfold bind at 1.
    destruct (carry_customTestData existing l h) as [[|[]] h1] eqn:Hc;
      apply carry_customTestData_frame in Hc.
    + intros [= _ <-].
      eapply (forms_frame_trans [l] []); [exact Hc|apply forms_frame_refl|].
      intros l' [[<-|[]]|[]]. left. reflexivity.
    + intros H. apply IH in H.
      eapply forms_frame_trans; [exact Hc|exact H|].
      intros l' [[<-|[]]|Hl']; [left; reflexivity|right; assumption].
Qed.

(** A fresh form receives the [customTestData] of the first existing
    form with the same action path, however often the list holds it. *)
Lemma forEach_forms_hit existing ls h h' l nf p l1 le l2 ef :
  forEach (carry_customTestData existing) ls h = (Returned tt, h') ->
  In l ls -> ~ In le ls ->
  forms_at h !! l = Some nf ->
  Url.pathname <$> parseUrl (action nf) = Some p ->
  forms existing = l1 ++ le :: l2 ->
  form_path_at h le = Some p ->
  (forall x, In x l1 ->
             is_Some (form_path_at h x) /\ form_path_at h x <> Some p) ->
  forms_at h !! le = Some ef -> Js.truthy (customTestData ef) = true ->
  forms_at h' !! l
  = Some {| action := action nf; customTestData := customTestData ef;
            form_rest := form_rest nf |}.
Proof.
  revert h nf. induction ls as [|x ls IH];
    intros h nf H Hin Hle Hl Hp Hforms Hlep Hfirst Hef Ht; [destruct Hin|].
  simpl in H. unfold bind in H at 1.
  destruct (carry_customTestData existing x h) as [[|[]] h1] eqn:Hc;
    [discriminate|].
  pose proof (carry_customTestData_frame _ _ _ _ _ Hc) as Hframe.
  pose proof Hframe as [_ _ Ho _].
  assert (Hlep1 : form_path_at h1 le = Some p)
    by (rewrite (frame_form_path _ _ _ _ Hframe); assumption).
  assert (Hfirst1 : forall y, In y l1 ->
            is_Some (form_path_at h1 y) /\ form_path_at h1 y <> Some p)
    by (intros y Hy; rewrite (frame_form_path _ _ _ _ Hframe); auto).
  assert (Hef1 : forms_at h1 !! le = Some ef).
  { rewrite Ho; [assumption|]. intros [->|[]]. apply Hle. left. reflexivity. }
  assert (Hle' : ~ In le ls) by (intros Hle'; apply Hle; right; assumption).
  destruct (decide (x = l)) as [->|Hne].
  - rewrite (carry_customTestData_hit existing l h nf le ef) in Hc;
      [|assumption|eapply find_form_first; eassumption|assumption|assumption].
    injection Hc as Hh1.
    assert (Hset : forms_at h1 !! l
                   = Some {| action := action nf;
                             customTestData := customTestData ef;
                             form_rest := form_rest nf |})
      by (rewrite <- Hh1; simpl; apply lookup_insert_eq).
    destruct (in_dec Pos.eq_dec l ls) as [Hagain|Hx].
    + apply (IH h1 {| action := action nf; customTestData := customTestData ef;
                      form_rest := form_rest nf |} H); assumption.
    + apply forEach_forms_frame in H as [_ _ Ho' _].
      rewrite Ho' by assumption. exact Hset.
  - destruct Hin as [->|Hin]; [contradiction|].
    apply (IH h1 nf H); try assumption.
    rewrite Ho; [assumption|]. intros [->|[]]. contradiction.
Qed.

(** *** Counting new pages *)

Lemma paths_of_reads ls h : snd (paths_of ls h) = h.
Proof.
  induction ls as [|l ls IH]; simpl; [reflexivity|].
  unfold bind, read_page. destruct (pages_at h !! l); [|reflexivity].
  destruct (paths_of ls h) as [[|ps] h1]; simpl in *; congruence.
Qed.

Lemma paths_of_returned ls h ps h' :
  paths_of ls h = (Returned ps, h') ->
  h' = h /\ map Some ps = map (page_path_at h) ls.
Proof.
  revert ps h'. induction ls as [|l ls IH]; intros ps h' H; simpl in H.
  - apply ret_returned in H as [-> ->]. auto.
  - bind_inv H. apply read_page_returned in H0 as [-> Hl].
    bind_inv H. apply IH in H0 as [-> Hrest].
    apply ret_returned in H as [-> ->]. split; [reflexivity|].
    simpl. rewrite Hrest. unfold page_path_at at 2. rewrite Hl. reflexivity.
Qed.

Lemma countNewPages_returned existing merged h n h' :
  countNewPages existing merged h = (Returned n, h') ->
  h' = h
  /\ exists existingPaths mergedPaths,
       map Some existingPaths = map (page_path_at h) (page_locs existing)
       /\ map Some mergedPaths = map (page_path_at h) (page_locs merged)
       /\ n = length (List.filter
                        (fun p => negb (Explorer.has existingPaths p))
                        mergedPaths).
Proof.
  unfold countNewPages. intros H.
  bind_inv H. apply paths_of_returned in H0 as [-> He].
  bind_inv H. apply paths_of_returned in H0 as [-> Hm].
  apply ret_returned in H as [-> ->]. split; [reflexivity|].
  exists a, a0. auto.
Qed.

(** *** The whole merge, step by step *)

Lemma mergeKnowledge_returned now existing analysis h merged h' :
  mergeKnowledge now existing analysis h = (Returned merged, h') ->
  exists h1 existingFormPaths newFormPaths h2 history h3 count entries,
    merge_pages existing analysis h = (Returned tt, h1)
    /\ form_paths (forms existing) h1 = (Returned existingFormPaths, h1)
    /\ form_paths (forms analysis) h1 = (Returned newFormPaths, h1)
    /\ forEach (carry_customTestData existing) (forms analysis) h1
       = (Returned tt, h2)
    /\ match updateHistory existing with
       | Some l => history = l /\ h3 = h2
       | None => history = fresh (dom (histories_at h2))
                 /\ h3 = set_history history [] h2
       end
    /\ countNewPages existing
         (merged_record existing analysis history
            (List.filter (fun p => negb (Explorer.has newFormPaths p))
                         (Explorer.dedupe existingFormPaths))) h3
       = (Returned count, h3)
    /\ histories_at h3 !! history = Some entries
    /\ h' = set_history history
              (entries ++ [history_entry now existing analysis count]) h3
    /\ merged = merged_record existing analysis history
                  (List.filter (fun p => negb (Explorer.has newFormPaths p))
                               (Explorer.dedupe existingFormPaths)).
Proof.
  unfold Updater.mergeKnowledge. intros H.
  bind_step H as u1 h1 Hpages. destruct u1.
  bind_step H as eps h1' Heps.
  pose proof (form_paths_returned _ _ _ _ Heps) as [-> _].
  bind_step H as nps h1' Hnps.
  pose proof (form_paths_returned _ _ _ _ Hnps) as [-> _].
  bind_step H as u2 h2 Hforms. destruct u2.
  bind_step H as history h3 Hhist.
  bind_step H as count h3' Hcount.
  pose proof (countNewPages_returned _ _ _ _ _ Hcount) as [-> _].
  bind_step H as entries h3' Hentries.
  apply read_history_returned in Hentries as [-> Hentries].
  bind_step H as u3 h4 Hset. apply ret_returned in H as [-> ->].
  unfold update in Hset. injection Hset as <-.
  exists h1, eps, nps, h2, history, h3, count, entries.
  repeat match goal with |- _ /\ _ => split end;
    try assumption; try reflexivity; try (symmetry; assumption).
  destruct (updateHistory existing) as [l|].
  - apply ret_returned in Hhist as [-> ->]. auto.
  - unfold new_history in Hhist. injection Hhist as <- <-. auto.
Qed.

Lemma mergeKnowledge_heaps now existing analysis h merged h' :
  mergeKnowledge now existing analysis h = (Returned merged, h') ->
  exists h1,
    merge_pages existing analysis h = (Returned tt, h1)
    /\ pages_at h' = pages_at h1
    /\ forms_at h1 = forms_at h
    /\ exists h2,
        forEach (carry_customTestData existing) (forms analysis) h1
        = (Returned tt, h2)
        /\ forms_at h' = forms_at h2
        /\ (forall l, In l (forms existing ++ forms analysis) ->
                      is_Some (form_path_at h l)).
Proof.
  intros H. apply mergeKnowledge_returned in H
    as (h1 & eps & nps & h2 & history & h3 & count & entries
        & Hpages & Heps & Hnps & Hforms & Hhist & _ & _ & -> & _).
  pose proof (merge_keys_frame _ _ _ _ _ _ Hpages) as [Hpf _ _ _].
  pose proof (forEach_forms_frame _ _ _ _ _ Hforms) as [Hfp _ _ _].
  assert (Hh3 : pages_at h3 = pages_at h2 /\ forms_at h3 = forms_at h2).
  { destruct (updateHistory existing); destruct Hhist as [_ ->]; auto. }
  destruct Hh3 as [Hp3 Hf3].
  exists h1. repeat split; try assumption.
  - simpl. congruence.
  - exists h2. repeat split; try assumption.
    intros l Hl.
    apply form_paths_returned in Heps as [_ He].
    apply form_paths_returned in Hnps as [_ Hn].
    assert (Hsome : is_Some (form_path_at h1 l)).
    { apply in_app_or in Hl as [Hl|Hl].
      - clear - He Hl. induction He as [|x p xs ps Hx _ IH]; [destruct Hl|].
        destruct Hl as [<-|Hl]; [eauto|auto].
      - clear - Hn Hl. induction Hn as [|x p xs ps Hx _ IH]; [destruct Hl|].
        destruct Hl as [<-|Hl]; [eauto|auto]. }
    unfold Updater.form_path_at in *. rewrite <- Hpf. exact Hsome.
Qed.

(** *** Properties of the merge *)

(** X9.  The version of a merged snapshot: when the existing version is
    MAJOR.MINOR.PATCH in decimal and MINOR + 1 is below 2^53, the merged
    version is MAJOR.(MINOR+1).PATCH, which comes later in version
    order. *)
Theorem merge_bumps_minor now existing analysis h merged h' major minor patch :
  mergeKnowledge now existing analysis h = (Returned merged, h') ->
  version existing = semver major minor patch ->
  (0 <= major)%Z -> (0 <= minor)%Z -> (0 <= patch)%Z ->
  (minor + 1 < 2 ^ 53)%Z ->
  version merged = semver major (minor + 1) patch
  /\ version_lt (version existing) (version merged) = true.
Proof.
  intros H Hv HM Hm Hp Hsafe.
  apply mergeKnowledge_returned in H
    as (h1 & eps & nps & h2 & history & h3 & count & entries
        & _ & _ & _ & _ & _ & _ & _ & _ & ->).
  simpl. rewrite Hv, next_version_semver by assumption.
  split; [reflexivity|]. apply version_lt_bump; assumption.
Qed.

(** X10.  A page of the fresh snapshot receives the [customData] of the
    existing snapshot: a fresh page listed under category [c], and under
    no other category, gets the [customData] of the last page of the
    existing category [c] that has the same path, provided that value is
    truthy and that existing page is not itself a page object of the
    fresh snapshot; its path and its other properties stay. *)
Theorem merge_carries_customData
        now existing analysis h merged h' c l np l1 le l2 ep :
  mergeKnowledge now existing analysis h = (Returned merged, h') ->
  In l (category c (pages analysis)) ->
  (forall c', In l (category c' (pages analysis)) -> c' = c) ->
  ~ In le (page_locs analysis) ->
  pages_at h !! l = Some np ->
  category c (pages existing) = l1 ++ le :: l2 ->
  pages_at h !! le = Some ep -> path ep = path np ->
  (forall l', In l' l2 -> page_path_at h l' <> Some (path np)) ->
  Js.truthy (customData ep) = true ->
  pages_at h' !! l
  = Some {| path := path np; customData := customData ep;
            page_rest := page_rest np |}.
Proof.
  intros H Hl Honly Hle Hnp Hcat Hep Hpath Hlast Ht.
  apply mergeKnowledge_heaps in H as (h1 & Hpages & -> & _).
  eapply merge_keys_hit; try eassumption.
  eapply category_key. exact Hl.
Qed.

(** X11.  A form of the fresh snapshot receives the [customTestData] of
    the existing snapshot: a fresh form gets the [customTestData] of the
    first existing form whose action has the same path, provided that
    value is truthy and that existing form is not itself a form object
    of the fresh snapshot; its action and its other properties stay. *)
Theorem merge_carries_customTestData
        now existing analysis h merged h' l nf p l1 le l2 ef :
  mergeKnowledge now existing analysis h = (Returned merged, h') ->
  In l (forms analysis) ->
  ~ In le (forms analysis) ->
  forms_at h !! l = Some nf -> form_path_at h l = Some p ->
  forms existing = l1 ++ le :: l2 ->
  forms_at h !! le = Some ef -> form_path_at h le = Some p ->
  (forall x, In x l1 -> form_path_at h x <> Some p) ->
  Js.truthy (customTestData ef) = true ->
  forms_at h' !! l
  = Some {| action := action nf; customTestData := customTestData ef;
            form_rest := form_rest nf |}.
Proof.
  intros H Hl Hle Hnf Hp Hforms Hef Hlep Hfirst Ht.
  apply mergeKnowledge_heaps in H
    as (h1 & _ & _ & Hf1 & h2 & Hloop & -> & Hsome).
  assert (Hpath1 : forall x, form_path_at h1 x = form_path_at h x)
    by (intros x; unfold Updater.form_path_at; rewrite Hf1; reflexivity).
  eapply forEach_forms_hit; try eassumption.
  - rewrite Hf1. exact Hnf.
  - unfold Updater.form_path_at in Hp. rewrite Hnf in Hp. exact Hp.
  - rewrite Hpath1. exact Hlep.
  - intros x Hx. rewrite Hpath1. split; [|auto].
    apply Hsome. apply in_or_app. left. rewrite Hforms.
    apply in_or_app. left. exact Hx.
  - rewrite Hf1. exact Hef.
Qed.

(** X12.  Every merge that returns leaves one more entry at the end of
    the history array: the array of the existing snapshot, extended in
    place, or a new array when the existing snapshot has none.  Earlier
    entries and other arrays are as before.  The entry records the time,
    the two versions, the difference of the form counts and of the flow
    counts, and the number of pages of the analysis whose path is the
    path of no page of the existing snapshot. *)
Theorem merge_appends_history now existing analysis h merged h' :
  mergeKnowledge now existing analysis h = (Returned merged, h') ->
  exists history old entry,
    updateHistory merged = Some history
    /\ histories_at h' !! history = Some (old ++ [entry])
    /\ match updateHistory existing with
       | Some l => history = l /\ histories_at h !! l = Some old
       | None => histories_at h !! history = None /\ old = []
       end
    /\ (forall l, l <> history -> histories_at h' !! l = histories_at h !! l)
    /\ date entry = now
    /\ previousVersion entry = version existing
    /\ newVersion entry = version merged
    /\ formsAdded entry = (Z.of_nat (length (forms analysis))
                           - Z.of_nat (length (forms existing)))%Z
    /\ flowsAdded entry = (Z.of_nat (length (userFlows analysis))
                           - Z.of_nat (length (userFlows existing)))%Z
    /\ exists existingPaths newPaths,
        map Some existingPaths = map (page_path_at h) (page_locs existing)
        /\ map Some newPaths = map (page_path_at h) (page_locs analysis)
        /\ pagesAdded entry
           = length (List.filter
                       (fun p => negb (Explorer.has existingPaths p)) newPaths).
Proof.
  intros H. apply mergeKnowledge_returned in H
    as (h1 & eps & nps & h2 & history & h3 & count & entries
        & Hpages & _ & _ & Hforms & Hhist & Hcount & Hentries & -> & ->).
  pose proof (merge_keys_frame _ _ _ _ _ _ Hpages) as Hpf.
  pose proof (forEach_forms_frame _ _ _ _ _ Hforms) as Hff.
  assert (Hhist2 : histories_at h2 = histories_at h)
    by (rewrite (ff_histories _ _ _ Hff); apply (pf_histories _ _ _ Hpf)).
  assert (Hp3 : pages_at h3 = pages_at h2)
    by (destruct (updateHistory existing); destruct Hhist as [_ ->]; reflexivity).
  exists history, entries, (history_entry now existing analysis count).
  repeat match goal with |- _ /\ _ => split end; try reflexivity.
  - simpl. apply lookup_insert_eq.
  - destruct (updateHistory existing) as [l|]; destruct Hhist as [-> ->].
    + split; [reflexivity|]. rewrite <- Hhist2. exact Hentries.
    + simpl in Hentries. rewrite lookup_insert_eq in Hentries.
      injection Hentries as <-. split; [|reflexivity].
      rewrite <- Hhist2. apply not_elem_of_dom, is_fresh.
  - intros l Hl. simpl. rewrite lookup_insert_ne by congruence.
    destruct (updateHistory existing) as [l0|]; destruct Hhist as [Heq ->].
    + rewrite Hhist2. reflexivity.
    + simpl. rewrite lookup_insert_ne by congruence. rewrite Hhist2. reflexivity.
  - apply countNewPages_returned in Hcount
      as (_ & existingPaths & newPaths & He & Hn & ->).
    assert (Hpath : forall l, page_path_at h3 l = page_path_at h l).
    { intros l. unfold page_path_at. rewrite Hp3, (ff_pages _ _ _ Hff).
      apply (frame_page_path _ _ _ _ Hpf). }
    exists existingPaths, newPaths. rewrite He, Hn. simpl.
    repeat split; apply map_ext; intros l; apply Hpath.
Qed.

Lemma Forall2_paths {A} (f : A -> option string) ls ps p :
  List.Forall2 (fun l q => f l = Some q) ls ps ->
  In p ps <-> exists l, In l ls /\ f l = Some p.
Proof.
  induction 1 as [|l q ls ps Hl _ IH]; simpl.
  - split; [intros []|intros (l & [] & _)].
  - rewrite IH. split.
    + intros [->|(l' & Hl' & Hp)]; eauto.
    + intros (l' & [<-|Hl'] & Hp); [left; congruence|eauto].
Qed.

(** X13.  The [removedForms] of a merged snapshot are the action paths
    of the existing forms that are the action path of no form of the
    analysis, each listed once. *)
Theorem merge_lists_removed_forms now existing analysis h merged h' :
  mergeKnowledge now existing analysis h = (Returned merged, h') ->
  exists removed,
    removedForms merged = Some removed
    /\ List.NoDup removed
    /\ forall p,
        In p removed <->
        (exists l, In l (forms existing) /\ form_path_at h l = Some p)
        /\ ~ (exists l, In l (forms analysis) /\ form_path_at h l = Some p).
Proof.
  intros H. apply mergeKnowledge_returned in H
    as (h1 & eps & nps & h2 & history & h3 & count & entries
        & Hpages & Heps & Hnps & _ & _ & _ & _ & _ & ->).
  pose proof (merge_keys_frame _ _ _ _ _ _ Hpages) as [Hpf _ _ _].
  assert (Hpath1 : forall x, form_path_at h1 x = form_path_at h x)
    by (intros x; unfold Updater.form_path_at; rewrite Hpf; reflexivity).
  apply form_paths_returned in Heps as [_ He].
  apply form_paths_returned in Hnps as [_ Hn].
  eexists. split; [reflexivity|]. split.
  - apply List.NoDup_filter, SetFacts.dedupe_NoDup.
  - intros p. rewrite List.filter_In, SetFacts.dedupe_In, negb_true_iff,
      ExplorerFacts.has_not_In.
    rewrite (Forall2_paths _ _ _ p He), (Forall2_paths _ _ _ p Hn).
    split; intros [(l & Hl & Hp) Hnot]; (split; [exists l|]).
    + rewrite <- Hpath1. auto.
    + intros (l' & Hl' & Hp'). apply Hnot. exists l'. rewrite Hpath1. auto.
    + rewrite Hpath1. auto.
    + intros (l' & Hl' & Hp'). apply Hnot. exists l'. rewrite <- Hpath1. auto.
Qed.

(** *** What a merge writes, whatever its outcome *)

Lemma countNewPages_reads existing merged h :
  snd (countNewPages existing merged h) = h.
Proof.
  unfold countNewPages, bind.
  pose proof (paths_of_reads (page_locs existing) h) as H1.
  destruct (paths_of (page_locs existing) h) as [[|eps] h1];
    simpl in H1; subst h1; [reflexivity|].
  pose proof (paths_of_reads (page_locs merged) h) as H2.
  destruct (paths_of (page_locs merged) h) as [[|nps] h2];
    simpl in H2; subst h2; reflexivity.
Qed.

Lemma frame_of_parts existing analysis h h1 h2 h3 :
  pages_frame (page_locs analysis) h h1 ->
  forms_frame (forms analysis) h1 h2 ->
  pages_at h3 = pages_at h2 ->
  forms_at h3 = forms_at h2 ->
  (forall l, is_Some (histories_at h2 !! l) ->
             updateHistory existing <> Some l ->
             histories_at h3 !! l = histories_at h2 !! l) ->
  merge_frame existing analysis h h3.
Proof.
  intros [Hf1 Hh1 Ho1 Hs1] [Hp2 Hh2 Ho2 Hs2] Hp3 Hf3 Hh3. split.
  - intros l Hl. rewrite Hp3, Hp2. auto.
  - intros l. rewrite Hp3, Hp2. auto.
  - intros l Hl. rewrite Hf3, Ho2, Hf1; auto.
  - intros l. rewrite Hf3, Hs2, Hf1. reflexivity.
  - intros l Hl Hne. rewrite <- Hh1, <- Hh2 in Hl |- *. auto.
Qed.

(** X14.  Whatever its outcome, a merge changes the heap at most in
    three places: the [customData] of the page objects of the analysis,
    the [customTestData] of its form objects, and the history array of
    the existing snapshot.  It writes to no object of the existing
    snapshot other than that array, it changes no path, action or other
    property of any object, and it leaves every other array alone. *)
Theorem merge_writes_only now existing analysis h :
  merge_frame existing analysis h (snd (mergeKnowledge now existing analysis h)).
Proof.
  unfold Updater.mergeKnowledge.
  unfold bind at 1.
  destruct (merge_pages existing analysis h) as [[|[]] h1] eqn:Hpages;
    apply merge_pages_frame in Hpages; simpl.
  { eapply frame_of_parts; eauto using forms_frame_refl. }
  unfold bind at 1.
  pose proof (form_paths_reads (forms existing) h1) as Hr1.
  destruct (form_paths (forms existing) h1) as [[|eps] h1']; simpl in Hr1; subst h1'.
  { eapply frame_of_parts; eauto using forms_frame_refl. }
  unfold bind at 1.
  pose proof (form_paths_reads (forms analysis) h1) as Hr2.
  destruct (form_paths (forms analysis) h1) as [[|nps] h1']; simpl in Hr2; subst h1'.
  { eapply frame_of_parts; eauto using forms_frame_refl. }
  unfold bind at 1.
  destruct (forEach (carry_customTestData existing) (forms analysis) h1)
    as [[|[]] h2] eqn:Hforms; apply forEach_forms_frame in Hforms; simpl.
  { eapply frame_of_parts; eauto. }
  unfold bind at 1.
  destruct (updateHistory existing) as [lh|] eqn:Hlh.
  - unfold ret at 1. unfold bind at 1.
    match goal with |- context [countNewPages ?e ?m h2] =>
      pose proof (countNewPages_reads e m h2) as Hr3;
      destruct (countNewPages e m h2) as [[|count] h2'] end;
      simpl in Hr3; subst h2'.
    { eapply frame_of_parts; eauto. }
    unfold bind at 1, read_history.
    destruct (histories_at h2 !! lh) as [entries|].
    + unfold bind, update, ret. simpl.
      eapply frame_of_parts; eauto. simpl. intros l _ Hne.
      apply lookup_insert_ne. congruence.
    + eapply frame_of_parts; eauto.
  - unfold new_history at 1. unfold bind at 1.
    set (lh := fresh (dom (histories_at h2))).
    assert (Hnew : histories_at h2 !! lh = None)
      by (apply not_elem_of_dom, is_fresh).
    match goal with |- context [countNewPages ?e ?m ?h3] =>
      pose proof (countNewPages_reads e m h3) as Hr3;
      destruct (countNewPages e m h3) as [[|count] h3'] end;
      simpl in Hr3; subst h3'.
    { eapply frame_of_parts; eauto. simpl. intros l [es Hl] _.
      apply lookup_insert_ne. congruence. }
    unfold bind at 1, read_history. simpl. rewrite lookup_insert_eq.
    unfold bind, update, ret. simpl.
    eapply frame_of_parts; eauto. simpl. intros l [es Hl] _.
    rewrite !lookup_insert_ne by congruence. reflexivity.
Qed.

(** *** When a merge returns *)

Lemma bind_eq {S A B} (m : Op S A) (k : A -> Op S B) st a st1 :
  m st = (Returned a, st1) -> bind m k st = k a st1.
Proof. unfold bind. intros ->. reflexivity. Qed.

Lemma frame_alive W h h' l :
  pages_frame W h h' -> is_Some (pages_at h' !! l) <-> is_Some (pages_at h !! l).
Proof.
  intros [_ _ _ Hs]. specialize (Hs l).
  destruct (pages_at h' !! l), (pages_at h !! l); simpl in Hs;
    try discriminate; split; intros [x Hx]; try discriminate; eauto.
Qed.

Lemma index_by_path_returns ps m h :
  (forall l, In l ps -> is_Some (pages_at h !! l)) ->
  exists m', index_by_path ps m h = (Returned m', h)
             /\ forall p le, m' !! p = Some le -> m !! p = Some le \/ In le ps.
Proof.
  revert m. induction ps as [|l ps IH]; intros m Hall; simpl.
  - exists m. split; [reflexivity|auto].
  - destruct (Hall l (or_introl eq_refl)) as [pg Hl].
    unfold bind, read_page. rewrite Hl.
    destruct (IH (<[path pg := l]> m)) as (m' & -> & Hm');
      [intros; apply Hall; right; assumption|].
    exists m'. split; [reflexivity|]. intros p le Hp.
    destruct (Hm' p le Hp) as [Hin|Hin]; [|auto].
    destruct (decide (path pg = p)) as [<-|Hne].
    + rewrite lookup_insert_eq in Hin. injection Hin as <-. auto.
    + rewrite lookup_insert_ne in Hin by assumption. auto.
Qed.

Lemma carry_customData_returns m l h :
  is_Some (pages_at h !! l) ->
  (forall p le, m !! p = Some le -> is_Some (pages_at h !! le)) ->
  exists h', carry_customData m l h = (Returned tt, h').
Proof.
  intros [np Hl] Hm. unfold carry_customData, bind, read_page. rewrite Hl.
  destruct (m !! path np) as [le|] eqn:Hle; [|eexists; reflexivity].
  destruct (Hm _ _ Hle) as [ep ->].
  destruct (Js.truthy (customData ep)); eexists; reflexivity.
Qed.

Lemma forEach_carry_returns m ls h :
  (forall l, In l ls -> is_Some (pages_at h !! l)) ->
  (forall p le, m !! p = Some le -> is_Some (pages_at h !! le)) ->
  exists h', forEach (carry_customData m) ls h = (Returned tt, h').
Proof.
  revert h. induction ls as [|l ls IH]; intros h Hall Hm; simpl.
  - eexists; reflexivity.
  - destruct (carry_customData_returns m l h) as [h1 H1];
      [apply Hall; left; reflexivity|exact Hm|].
    rewrite (bind_eq _ _ _ _ _ H1).
    apply carry_customData_frame in H1.
    apply IH.
    + intros l' Hl'. apply (frame_alive _ _ _ _ H1). apply Hall. right. exact Hl'.
    + intros p le Hp. apply (frame_alive _ _ _ _ H1). eauto.
Qed.

Lemma merge_category_returns existing merged c h :
  existing_category c (pages existing) <> Thrown ->
  (forall l, In l (page_locs existing ++ page_locs merged) ->
             is_Some (pages_at h !! l)) ->
  exists h', merge_category existing merged c h = (Returned tt, h').
Proof.
  intros Hown Hall. rewrite merge_category_eq.
  destruct (existing_category c (pages existing)) as [|ls0]; [congruence|].
  destruct (index_by_path_returns (category c (pages existing)) ∅ h)
    as (m & Hm & Hvals);
    [intros l Hl; apply Hall, in_or_app; left; eapply category_In, Hl|].
  rewrite (bind_eq _ _ _ _ _ Hm). apply forEach_carry_returns.
  - intros l Hl. apply Hall, in_or_app. right. eapply category_In, Hl.
  - intros p le Hp. destruct (Hvals _ _ Hp) as [Hin|Hin].
    + rewrite lookup_empty in Hin. discriminate.
    + apply Hall, in_or_app. left. eapply category_In, Hin.
Qed.

Lemma merge_categories_return existing merged cs h :
  (forall c, In c cs -> existing_category c (pages existing) <> Thrown) ->
  (forall l, In l (page_locs existing ++ page_locs merged) ->
             is_Some (pages_at h !! l)) ->
  exists h', forEach (merge_category existing merged) cs h = (Returned tt, h').
Proof.
  revert h. induction cs as [|c cs IH]; intros h Hown Hall; simpl.
  - eexists; reflexivity.
  - destruct (merge_category_returns existing merged c h) as [h1 H1];
      [apply Hown; left; reflexivity|exact Hall|].
    rewrite (bind_eq _ _ _ _ _ H1). apply merge_category_frame in H1.
    apply IH; [intros c' Hc'; apply Hown; right; exact Hc'|].
    intros l Hl. apply (frame_alive _ _ _ _ H1). auto.
Qed.

Lemma merge_categories_own existing merged cs h h' :
  forEach (merge_category existing merged) cs h = (Returned tt, h') ->
  forall c, In c cs -> existing_category c (pages existing) <> Thrown.
Proof.
  revert h. induction cs as [|c0 cs IH]; intros h H c Hc; [destruct Hc|].
  simpl in H. unfold bind at 1 in H.
  destruct (merge_category existing merged c0 h) as [[|[]] h1] eqn:H0;
    [discriminate|].
  destruct Hc as [<-|Hc]; [|eapply IH; eassumption].
  rewrite merge_category_eq in H0. intros Hthrown. rewrite Hthrown in H0.
  discriminate.
Qed.

Lemma find_form_returns nf fs h :
  (forall l, In l fs -> is_Some (form_path_at h l)) ->
  is_Some (Url.pathname <$> parseUrl (action nf)) ->
  exists o, find_form nf fs h = (Returned o, h)
            /\ forall le, o = Some le -> In le fs.
Proof.
  intros Hall [pn Hpn]. induction fs as [|l fs IH]; simpl.
  - exists None. split; [reflexivity|discriminate].
  - destruct (Hall l (or_introl eq_refl)) as [p Hp].
    unfold Updater.form_path_at in Hp.
    unfold bind at 1, read_form.
    destruct (forms_at h !! l) as [f|]; [|discriminate].
    unfold bind at 1. rewrite pathname_of_spec, Hp.
    unfold bind at 1. rewrite pathname_of_spec, Hpn.
    destruct (String.eqb p pn).
    + exists (Some l). split; [reflexivity|]. intros le [= <-]. left. reflexivity.
    + destruct IH as (o & Ho & Hin); [intros; apply Hall; right; assumption|].
      exists o. split; [exact Ho|]. intros le Hle. right. auto.
Qed.

Lemma carry_customTestData_returns existing l h :
  is_Some (form_path_at h l) ->
  (forall x, In x (forms existing) -> is_Some (form_path_at h x)) ->
  exists h', carry_customTestData existing l h = (Returned tt, h').
Proof.
  intros [p Hp] Hall. unfold Updater.carry_customTestData.
  unfold Updater.form_path_at in Hp.
  unfold bind at 1, read_form.
  destruct (forms_at h !! l) as [nf|] eqn:Hl; [|discriminate].
  destruct (find_form_returns nf (forms existing) h Hall) as (o & Ho & Hin);
    [rewrite Hp; eauto|].
  rewrite (bind_eq _ _ _ _ _ Ho). destruct o as [le|]; [|eexists; reflexivity].
  destruct (Hall le (Hin le eq_refl)) as [q Hq].
  unfold Updater.form_path_at in Hq. unfold bind, read_form.
  destruct (forms_at h !! le) as [ef|]; [|discriminate].
  destruct (Js.truthy (customTestData ef)); eexists; reflexivity.
Qed.

Lemma forEach_forms_returns existing ls h :
  (forall l, In l (forms existing ++ ls) -> is_Some (form_path_at h l)) ->
  exists h', forEach (carry_customTestData existing) ls h = (Returned tt, h').
Proof.
  revert h. induction ls as [|l ls IH]; intros h Hall; simpl.
  - eexists; reflexivity.
  - destruct (carry_customTestData_returns existing l h) as [h1 H1];
      [apply Hall, in_or_app; right; left; reflexivity
      |intros x Hx; apply Hall, in_or_app; auto|].
    rewrite (bind_eq _ _ _ _ _ H1). apply carry_customTestData_frame in H1.
    apply IH. intros x Hx. rewrite (frame_form_path _ _ _ _ H1).
    apply Hall. apply in_app_or in Hx as [Hx|Hx]; apply in_or_app; simpl; auto.
Qed.

Lemma paths_of_returns ls h :
  (forall l, In l ls -> is_Some (pages_at h !! l)) ->
  exists ps, paths_of ls h = (Returned ps, h).
Proof.
  induction ls as [|l ls IH]; intros Hall; simpl.
  - eexists; reflexivity.
  - destruct (Hall l (or_introl eq_refl)) as [pg Hl].
    destruct IH as [ps Hps]; [intros; apply Hall; right; assumption|].
    unfold bind, read_page. rewrite Hl, Hps. eexists; reflexivity.
Qed.

Lemma paths_of_alive ls h ps h' :
  paths_of ls h = (Returned ps, h') ->
  forall l, In l ls -> is_Some (pages_at h !! l).
Proof.
  intros H l Hl. apply paths_of_returned in H as [_ H].
  assert (Hin : In (page_path_at h l) (map (page_path_at h) ls))
    by (apply in_map; assumption).
  rewrite <- H in Hin. apply in_map_iff in Hin as (p & Hp & _).
  unfold page_path_at in Hp. destruct (pages_at h !! l); [eauto|discriminate].
Qed.

Lemma Forall2_alive {A B} (P : A -> B -> Prop) ls ps l :
  List.Forall2 P ls ps -> In l ls -> exists p, P l p.
Proof.
  induction 1 as [|x q ls ps Hx _ IH]; intros []; subst; eauto.
Qed.

(** X15.  A merge of two snapshots returns exactly when every page
    reference of the two snapshots points to a page, every form of the
    two snapshots has an action that parses as a URL, the history
    reference of the existing snapshot, if it has one, points to an
    array, and every category of the analysis that is named like a
    member of [Object.prototype] ([constructor], [toString],
    [__proto__], ...) is a category of the existing snapshot too;
    otherwise it throws. *)
Theorem merge_returns_iff_well_formed now existing analysis h :
  (exists merged h', mergeKnowledge now existing analysis h = (Returned merged, h'))
  <-> well_formed h existing analysis.
Proof.
  split.
  - intros (merged & h' & H). apply mergeKnowledge_returned in H
      as (h1 & eps & nps & h2 & history & h3 & count & entries
          & Hpages & Heps & Hnps & Hforms & Hhist & Hcount & Hentries & _ & _).
    pose proof (merge_pages_frame _ _ _ _ _ _ Hpages) as Hpf.
    pose proof (forEach_forms_frame _ _ _ _ _ Hforms) as Hff.
    assert (Hp3 : pages_at h3 = pages_at h2)
      by (destruct (updateHistory existing); destruct Hhist as [_ ->]; reflexivity).
    split.
    + intros c Hc Hi.
      destruct (in_dec string_dec c (map fst (pages existing))) as [Hin|Hnot];
        [exact Hin|exfalso].
      apply (merge_categories_own _ _ _ _ _ Hpages c Hc).
      apply existing_category_thrown. auto.
    + intros l Hl. apply (frame_alive _ _ _ _ Hpf).
      rewrite <- (ff_pages _ _ _ Hff), <- Hp3.
      unfold countNewPages in Hcount.
      bind_step Hcount as ps1 h4 Hps1.
      pose proof (paths_of_returned _ _ _ _ Hps1) as [-> _].
      bind_step Hcount as ps2 h4 Hps2.
      apply in_app_or in Hl as [Hl|Hl];
        [eapply paths_of_alive, Hl; exact Hps1
        |eapply paths_of_alive, Hl; exact Hps2].
    + intros l Hl.
      apply form_paths_returned in Heps as [_ He].
      apply form_paths_returned in Hnps as [_ Hn].
      assert (Hl1 : is_Some (form_path_at h1 l)).
      { apply in_app_or in Hl as [Hl|Hl];
          [destruct (Forall2_alive _ _ _ _ He Hl) as [p Hp]
          |destruct (Forall2_alive _ _ _ _ Hn Hl) as [p Hp]]; eauto. }
      unfold Updater.form_path_at in *.
      rewrite <- (pf_forms _ _ _ Hpf). exact Hl1.
    + intros l Hl. rewrite Hl in Hhist. destruct Hhist as [-> ->].
      rewrite <- (pf_histories _ _ _ Hpf), <- (ff_histories _ _ _ Hff). eauto.
  - intros [Hwc Hwp Hwf Hwh]. unfold Updater.mergeKnowledge.
    destruct (merge_categories_return existing analysis
                (map fst (pages analysis)) h) as [h1 Hpages]; [|exact Hwp|].
    { intros c Hc Hthrown. apply existing_category_thrown in Hthrown as [Hi Hnot].
      apply Hnot, Hwc; assumption. }
    fold (merge_pages existing analysis) in Hpages.
    rewrite (bind_eq _ _ _ _ _ Hpages).
    pose proof (merge_pages_frame _ _ _ _ _ _ Hpages) as Hpf.
    assert (Hwf1 : forall l, In l (forms existing ++ forms analysis) ->
                             is_Some (form_path_at h1 l)).
    { intros l Hl. unfold Updater.form_path_at.
      rewrite (pf_forms _ _ _ Hpf). apply Hwf, Hl. }
    destruct (form_paths_returns (forms existing) h1) as [eps Heps];
      [intros; apply Hwf1, in_or_app; auto|].
    rewrite (bind_eq _ _ _ _ _ Heps).
    destruct (form_paths_returns (forms analysis) h1) as [nps Hnps];
      [intros; apply Hwf1, in_or_app; auto|].
    rewrite (bind_eq _ _ _ _ _ Hnps).
    destruct (forEach_forms_returns existing (forms analysis) h1 Hwf1)
      as [h2 Hforms].
    rewrite (bind_eq _ _ _ _ _ Hforms).
    pose proof (forEach_forms_frame _ _ _ _ _ Hforms) as Hff.
    assert (Halive : forall h3, pages_at h3 = pages_at h2 ->
              forall l, In l (page_locs existing ++ page_locs analysis) ->
                        is_Some (pages_at h3 !! l)).
    { intros h3 -> l Hl. rewrite (ff_pages _ _ _ Hff).
      apply (frame_alive _ _ _ _ Hpf). auto. }
    assert (Hcount : forall h3 m, pages_at h3 = pages_at h2 ->
              page_locs m = page_locs analysis ->
              exists n, countNewPages existing m h3 = (Returned n, h3)).
    { intros h3 m Hp3 Hm. unfold countNewPages.
      destruct (paths_of_returns (page_locs existing) h3) as [ps1 H1];
        [intros; apply (Halive h3 Hp3), in_or_app; auto|].
      rewrite (bind_eq _ _ _ _ _ H1).
      destruct (paths_of_returns (page_locs m) h3) as [ps2 H2];
        [rewrite Hm; intros; apply (Halive h3 Hp3), in_or_app; auto|].
      rewrite (bind_eq _ _ _ _ _ H2). eexists; reflexivity. }
    destruct (updateHistory existing) as [lh|] eqn:Hlh.
    + unfold bind at 1, ret at 1.
      match goal with |- context [countNewPages ?e ?m] =>
        destruct (Hcount h2 m eq_refl eq_refl) as [n Hn] end.
      rewrite (bind_eq _ _ _ _ _ Hn).
      destruct (Hwh lh eq_refl) as [es Hes].
      rewrite <- (pf_histories _ _ _ Hpf), <- (ff_histories _ _ _ Hff) in Hes.
      unfold bind, read_history, update, ret. rewrite Hes. eauto.
    + unfold bind at 1, new_history at 1.
      set (lh := fresh (dom (histories_at h2))).
      match goal with |- context [countNewPages ?e ?m] =>
        destruct (Hcount (set_history lh [] h2) m eq_refl eq_refl) as [n Hn] end.
      rewrite (bind_eq _ _ _ _ _ Hn).
      unfold bind, read_history, update, ret. simpl.
      rewrite lookup_insert_eq. eauto.
Qed.

(** X16.  A form whose action is not a URL makes the whole merge throw,
    whichever snapshot holds it; no history entry is written then. *)
Theorem merge_throws_on_bad_action now existing analysis h l :
  In l (forms existing ++ forms analysis) ->
  form_path_at h l = None ->
  fst (mergeKnowledge now existing analysis h) = Thrown
  /\ histories_at (snd (mergeKnowledge now existing analysis h)) = histories_at h.
Proof.
  intros Hl Hnone.
  destruct (mergeKnowledge now existing analysis h) as [r h'] eqn:H. simpl.
  unfold Updater.mergeKnowledge in H. unfold bind at 1 in H.
  destruct (merge_pages existing analysis h) as [[|[]] h1] eqn:Hpages;
    apply merge_pages_frame in Hpages.
  { injection H as <- <-. split; [reflexivity|apply (pf_histories _ _ _ Hpages)]. }
  assert (Hnone1 : form_path_at h1 l = None).
  { unfold Updater.form_path_at in *. rewrite (pf_forms _ _ _ Hpages). exact Hnone. }
  unfold bind at 1 in H.
  pose proof (form_paths_reads (forms existing) h1) as Hr1.
  destruct (form_paths (forms existing) h1) as [[|eps] h1'] eqn:Heps;
    simpl in Hr1; subst h1'.
  { injection H as <- <-. split; [reflexivity|apply (pf_histories _ _ _ Hpages)]. }
  unfold bind at 1 in H.
  pose proof (form_paths_reads (forms analysis) h1) as Hr2.
  destruct (form_paths (forms analysis) h1) as [[|nps] h1'] eqn:Hnps;
    simpl in Hr2; subst h1'.
  { injection H as <- <-. split; [reflexivity|apply (pf_histories _ _ _ Hpages)]. }
  exfalso. apply in_app_or in Hl as [Hl|Hl].
  - pose proof (form_paths_throws _ _ _ Hl Hnone1) as Ht.
    rewrite Heps in Ht. discriminate.
  - pose proof (form_paths_throws _ _ _ Hl Hnone1) as Ht.
    rewrite Hnps in Ht. discriminate.
Qed.

(** X17.  When the second component of the existing version is not a
    number (also when the version has no second component), the merged
    version has [NaN] there, later merges leave it as it is, and it
    does not exceed the existing version. *)
Theorem merge_version_not_a_number now existing analysis h merged h' :
  mergeKnowledge now existing analysis h = (Returned merged, h') ->
  Js.parseInt (List.nth 1 (Js.split "." (version existing)) "undefined") = Js.NaN ->
  List.nth 1 (Js.split "." (version merged)) "" = "NaN"
  /\ next_version (version merged) = version merged
  /\ version_lt (version existing) (version merged) = false
  /\ (Js.free_of "." (version existing) = true ->
      version merged = (version existing ++ ".NaN")%string).
Proof.
  intros H Hnan. apply mergeKnowledge_returned in H
    as (h1 & eps & nps & h2 & history & h3 & count & entries
        & _ & _ & _ & _ & _ & _ & _ & _ & ->).
  cbn [version merged_record].
  destruct (next_version_not_a_number _ Hnan) as (Hsplit & Hfix & Hlt).
  repeat match goal with |- _ /\ _ => split end; try assumption.
  - rewrite Hsplit. apply assign_second_nth, split_not_empty.
  - apply next_version_one_component.
Qed.

(** *** Counting new pages *)

Lemma paths_cover {A} (f : A -> option string) ls ps :
  map Some ps = map f ls ->
  (forall p, In p ps <-> exists l, In l ls /\ f l = Some p)
  /\ length ps = length ls.
Proof.
  intros H. split.
  - intros p. split.
    + intros Hp. apply (in_map Some) in Hp. rewrite H in Hp.
      apply in_map_iff in Hp as (l & Hl & Hin). eauto.
    + intros (l & Hin & Hl). apply (in_map f) in Hin. rewrite <- H, Hl in Hin.
      apply in_map_iff in Hin as (q & [= ->] & Hq). exact Hq.
  - apply (f_equal (@length _)) in H. rewrite !length_map in H. exact H.
Qed.

Lemma filter_length_le {A} (f : A -> bool) l :
  (length (List.filter f l) <= length l)%nat.
Proof.
  induction l as [|x l IH]; simpl; [lia|]. destruct (f x); simpl; lia.
Qed.

Lemma filter_nil_iff {A} (f : A -> bool) l :
  List.filter f l = [] <-> forall x, In x l -> f x = false.
Proof.
  induction l as [|x l IH]; simpl.
  - split; [intros _ y []|reflexivity].
  - destruct (f x) eqn:Hx.
    + split; [discriminate|]. intros H. rewrite (H x) in Hx by auto. discriminate.
    + rewrite IH. split.
      * intros H y [<-|Hy]; auto.
      * intros H y Hy. auto.
Qed.

Lemma countNewPages_bound existing merged h n h' :
  countNewPages existing merged h = (Returned n, h') ->
  h' = h /\ (n <= length (page_locs merged))%nat.
Proof.
  intros H. apply countNewPages_returned in H
    as (-> & eps & nps & _ & Hn & ->).
  destruct (paths_cover _ _ _ Hn) as [_ Hlen].
  split; [reflexivity|]. rewrite <- Hlen. apply filter_length_le.
Qed.

(** X18.  [countNewPages] reads the heap only.  It counts the page
    objects of the merged snapshot, each occurrence, whose path is the
    path of no page of the existing snapshot, in whatever category: the
    count is at most the number of merged pages, and it is zero exactly
    when every merged page has the path of some existing page. *)
Theorem countNewPages_counts existing merged h n h' :
  countNewPages existing merged h = (Returned n, h') ->
  h' = h
  /\ (n <= length (page_locs merged))%nat
  /\ (n = 0%nat <->
      forall l, In l (page_locs merged) ->
                exists l', In l' (page_locs existing)
                           /\ page_path_at h l' = page_path_at h l).
Proof.
  intros H. apply countNewPages_returned in H
    as (-> & eps & nps & He & Hn & ->).
  destruct (paths_cover _ _ _ He) as [Hine _].
  destruct (paths_cover _ _ _ Hn) as [Hinn Hlen].
  split; [reflexivity|]. split.
  - rewrite <- Hlen. apply filter_length_le.
  - rewrite length_zero_iff_nil, filter_nil_iff. split.
    + intros Hall l Hl.
      assert (Hsome : exists p, page_path_at h l = Some p).
      { apply (in_map (page_path_at h)) in Hl. rewrite <- Hn in Hl.
        apply in_map_iff in Hl as (p & Hp & _). eauto. }
      destruct Hsome as [p Hp].
      assert (Hin : In p nps) by (apply Hinn; eauto).
      specialize (Hall p Hin). apply negb_false_iff, ExplorerFacts.has_In in Hall.
      apply Hine in Hall as (l' & Hl' & Hp'). exists l'. split; congruence.
    + intros Hall p Hp. apply negb_false_iff, ExplorerFacts.has_In.
      apply Hinn in Hp as (l & Hl & Hpl).
      destruct (Hall l Hl) as (l' & Hl' & Heq).
      apply Hine. exists l'. split; congruence.
Qed.

Lemma paths_of_paths ls h h' :
  (forall l, page_path_at h' l = page_path_at h l) ->
  fst (paths_of ls h') = fst (paths_of ls h).
Proof.
  intros Hsame. induction ls as [|l ls IH]; simpl; [reflexivity|].
  unfold bind, read_page. specialize (Hsame l). unfold page_path_at in Hsame.
  pose proof (paths_of_reads ls h) as Hr. pose proof (paths_of_reads ls h') as Hr'.
  destruct (pages_at h' !! l) as [p'|], (pages_at h !! l) as [p|];
    try discriminate; [|reflexivity].
  injection Hsame as Hsame.
  destruct (paths_of ls h') as [[|ps'] g'], (paths_of ls h) as [[|ps] g];
    simpl in *; try discriminate; [reflexivity|].
  unfold ret. simpl. congruence.
Qed.

Lemma countNewPages_paths existing merged h h' :
  (forall l, page_path_at h' l = page_path_at h l) ->
  fst (countNewPages existing merged h') = fst (countNewPages existing merged h).
Proof.
  intros Hsame. unfold countNewPages, bind.
  pose proof (paths_of_paths (page_locs existing) h h' Hsame) as H1.
  pose proof (paths_of_reads (page_locs existing) h) as Hr1.
  pose proof (paths_of_reads (page_locs existing) h') as Hr1'.
  destruct (paths_of (page_locs existing) h') as [[|ps1'] g1'],
           (paths_of (page_locs existing) h) as [[|ps1] g1];
    simpl in *; try discriminate; [reflexivity|]. subst g1 g1'.
  injection H1 as ->.
  pose proof (paths_of_paths (page_locs merged) h h' Hsame) as H2.
  destruct (paths_of (page_locs merged) h') as [[|ps2'] g2'],
           (paths_of (page_locs merged) h) as [[|ps2] g2];
    simpl in *; try discriminate; [reflexivity|].
  injection H2 as ->. reflexivity.
Qed.

(** *** The update summary *)

Lemma count_text_digit n :
  (0 < n < 2 ^ 53)%Z ->
  exists c rest, count_text n = String c rest /\ Js.is_digit c = true.
Proof.
  intros Hn. unfold count_text. rewrite number_to_string_safe by assumption.
  pose proof (decimal_digits n ltac:(lia)) as Hd.
  pose proof (decimal_not_empty n ltac:(lia)) as Hne.
  destruct (Js.decimal n) as [|c rest]; [contradiction|].
  cbn [Js.all_chars] in Hd. apply andb_true_iff in Hd as [Hc _]. eauto.
Qed.

Lemma join_first sep c rest ps :
  exists rest', Js.join sep (String c rest :: ps) = String c rest'.
Proof.
  destruct ps as [|q ps]; cbn [Js.join]; [eauto|].
  rewrite append_cons. eauto.
Qed.

Lemma summary_updates_first pagesAdded formDiff flowDiff :
  (Z.of_nat pagesAdded < 2 ^ 53)%Z ->
  (- 2 ^ 53 < formDiff < 2 ^ 53)%Z -> (flowDiff < 2 ^ 53)%Z ->
  summary_updates pagesAdded formDiff flowDiff = []
  \/ exists c rest, Js.join ", " (summary_updates pagesAdded formDiff flowDiff)
                    = String c rest /\ Js.is_digit c = true.
Proof.
  intros Hp Hf Hw. unfold summary_updates.
  destruct (Z.ltb_spec 0 (Z.of_nat pagesAdded)) as [Hp0|Hp0].
  { right. destruct (count_text_digit (Z.of_nat pagesAdded)) as (c & rest & Hc & Hd);
      [lia|].
    rewrite Hc. cbn [app]. rewrite append_cons.
    destruct (join_first ", " c (rest ++ " new pages discovered")%string
                (((if (0 <? formDiff)%Z
                   then [(count_text formDiff ++ " new forms found")%string]
                   else if (formDiff <? 0)%Z
                        then [(count_text (Z.abs formDiff) ++ " forms removed")%string]
                        else [])
                  ++ (if (0 <? flowDiff)%Z
                      then [(count_text flowDiff ++ " new flows identified")%string]
                      else []))%list)) as [rest' ->].
    eauto. }
  cbn [app].
  destruct (Z.ltb_spec 0 formDiff) as [Hf0|Hf0].
  { right. destruct (count_text_digit formDiff) as (c & rest & Hc & Hd); [lia|].
    rewrite Hc. cbn [app]. rewrite append_cons.
    destruct (join_first ", " c (rest ++ " new forms found")%string
                (if (0 <? flowDiff)%Z
                 then [(count_text flowDiff ++ " new flows identified")%string]
                 else [])) as [rest' ->].
    eauto. }
  destruct (Z.ltb_spec formDiff 0) as [Hf1|Hf1].
  { right. destruct (count_text_digit (Z.abs formDiff)) as (c & rest & Hc & Hd); [lia|].
    rewrite Hc. cbn [app]. rewrite append_cons.
    destruct (join_first ", " c (rest ++ " forms removed")%string
                (if (0 <? flowDiff)%Z
                 then [(count_text flowDiff ++ " new flows identified")%string]
                 else [])) as [rest' ->].
    eauto. }
  cbn [app].
  destruct (Z.ltb_spec 0 flowDiff) as [Hw0|Hw0]; [|left; reflexivity].
  right. destruct (count_text_digit flowDiff) as (c & rest & Hc & Hd); [lia|].
  rewrite Hc. cbn [Js.join]. rewrite append_cons. eauto.
Qed.

Lemma summary_updates_nil pagesAdded formDiff flowDiff :
  summary_updates pagesAdded formDiff flowDiff = []
  <-> pagesAdded = 0%nat /\ formDiff = 0%Z /\ (flowDiff <= 0)%Z.
Proof.
  unfold summary_updates.
  destruct (Z.ltb_spec 0 (Z.of_nat pagesAdded)), (Z.ltb_spec 0 formDiff),
    (Z.ltb_spec formDiff 0), (Z.ltb_spec 0 flowDiff); cbn [app];
    split; try discriminate; try (intros (? & ? & ?); lia);
    intros _; repeat split; lia.
Qed.

(** X19.  The update summary reads the heap only.  It is the text
    "No significant changes detected" exactly when no page was added,
    the number of forms is unchanged and no flow was added; removed
    flows are never reported.  Otherwise it begins with a count. *)
Theorem summary_reports_changes existing merged h s h' :
  generateUpdateSummary existing merged h = (Returned s, h') ->
  (Z.of_nat (length (page_locs merged)) < 2 ^ 53)%Z ->
  (Z.of_nat (length (forms existing)) < 2 ^ 53)%Z ->
  (Z.of_nat (length (forms merged)) < 2 ^ 53)%Z ->
  (Z.of_nat (length (userFlows merged)) < 2 ^ 53)%Z ->
  h' = h
  /\ (s = "No significant changes detected" <->
      fst (countNewPages existing merged h) = Returned 0%nat
      /\ length (forms merged) = length (forms existing)
      /\ (length (userFlows merged) <= length (userFlows existing))%nat)
  /\ (s <> "No significant changes detected" ->
      exists c rest, s = String c rest /\ Js.is_digit c = true).
Proof.
  intros H Hp Hfe Hfm Hw. unfold generateUpdateSummary in H.
  bind_step H as n h1 Hcount. rewrite Hcount. cbn [fst].
  pose proof (countNewPages_bound _ _ _ _ _ Hcount) as (-> & Hle).
  apply ret_returned in H as [-> ->]. split; [reflexivity|].
  set (formDiff := (Z.of_nat (length (forms merged))
                    - Z.of_nat (length (forms existing)))%Z).
  set (flowDiff := (Z.of_nat (length (userFlows merged))
                    - Z.of_nat (length (userFlows existing)))%Z).
  pose proof (summary_updates_nil n formDiff flowDiff) as Hnil.
  destruct (summary_updates_first n formDiff flowDiff) as [He|(c & rest & Hc & Hd)];
    try (subst formDiff flowDiff; lia).
  - rewrite He. cbn [length Nat.eqb]. split.
    + split; [|reflexivity]. intros _.
      apply Hnil in He as (-> & Hf0 & Hw0).
      subst formDiff flowDiff. repeat split; lia.
    + intros Hne. contradiction Hne. reflexivity.
  - assert (Hne : summary_updates n formDiff flowDiff <> []).
    { intros He. rewrite He in Hc. discriminate. }
    destruct (summary_updates n formDiff flowDiff) as [|u us] eqn:Hu;
      [contradiction|].
    cbn [length Nat.eqb]. rewrite Hc. split.
    + split.
      * intros Heq. injection Heq as -> _. vm_compute in Hd. discriminate.
      * intros ([= ->] & Hf0 & Hw0).
        assert (Hall : 0%nat = 0%nat /\ formDiff = 0%Z /\ (flowDiff <= 0)%Z)
          by (subst formDiff flowDiff; repeat split; lia).
        apply Hnil in Hall. discriminate.
    + intros _. eauto.
Qed.

(** X20.  After a merge the summary counts the same new pages as the
    history entry the merge has just pushed: the paths the count
    depends on are not changed by the merge. *)
Theorem summary_agrees_with_history now existing analysis h merged h' :
  mergeKnowledge now existing analysis h = (Returned merged, h') ->
  exists history entries entry,
    updateHistory merged = Some history
    /\ histories_at h' !! history = Some (entries ++ [entry])
    /\ countNewPages existing merged h' = (Returned (pagesAdded entry), h').
Proof.
  intros H. apply mergeKnowledge_returned in H
    as (h1 & eps & nps & h2 & history & h3 & count & entries
        & Hpages & _ & _ & Hforms & Hhist & Hcount & Hentries & -> & ->).
  exists history, entries, (history_entry now existing analysis count).
  split; [reflexivity|]. split; [apply lookup_insert_eq|].
  cbn [pagesAdded history_entry].
  set (h' := set_history history _ h3) in *.
  assert (Hsame : forall l, page_path_at h' l = page_path_at h3 l) by reflexivity.
  pose proof (countNewPages_paths existing
                (merged_record existing analysis history
                   (List.filter (fun p => negb (Explorer.has nps p))
                                (Explorer.dedupe eps))) h3 h' Hsame) as Hfst.
  pose proof (countNewPages_reads existing
                (merged_record existing analysis history
                   (List.filter (fun p => negb (Explorer.has nps p))
                                (Explorer.dedupe eps))) h') as Hsnd.
  rewrite Hcount in Hfst. cbn [fst] in Hfst.
  destruct (countNewPages existing _ h') as [r g]. simpl in *. congruence.
Qed.

(** *** Where carried values come from *)

Lemma index_by_path_sound ps m h m' h' :
  index_by_path ps m h = (Returned m', h') ->
  forall p le, m' !! p = Some le ->
               m !! p = Some le \/ (In le ps /\ page_path_at h le = Some p).
Proof.
  revert m. induction ps as [|l ps IH]; intros m H p le Hp; simpl in H.
  - apply ret_returned in H as [-> _]. auto.
  - bind_inv H. apply read_page_returned in H0 as [-> Hl].
    destruct (IH _ H p le Hp) as [Hm|[Hin Hpath]].
    + destruct (decide (path a = p)) as [<-|Hne].
      * rewrite lookup_insert_eq in Hm. injection Hm as <-. right.
        split; [left; reflexivity|]. unfold page_path_at. rewrite Hl. reflexivity.
      * rewrite lookup_insert_ne in Hm by assumption. auto.
    + right. split; [right; assumption|assumption].
Qed.

Lemma carry_customData_writes m l h r h' l' p :
  carry_customData m l h = (r, h') ->
  pages_at h' !! l' = Some p ->
  pages_at h !! l' = Some p
  \/ (l' = l /\ exists np le ep,
        pages_at h !! l = Some np /\ m !! path np = Some le
        /\ pages_at h !! le = Some ep /\ Js.truthy (customData ep) = true
        /\ p = {| path := path np; customData := customData ep;
                  page_rest := page_rest np |}).
Proof.
  unfold carry_customData, bind, read_page, ret, update.
  destruct (pages_at h !! l) as [np|] eqn:Hl; [|intros [= _ <-]; auto].
  destruct (m !! path np) as [le|] eqn:Hm; [|intros [= _ <-]; auto].
  destruct (pages_at h !! le) as [ep|] eqn:Hle; [|intros [= _ <-]; auto].
  destruct (Js.truthy (customData ep)) eqn:Ht; intros [= _ <-]; [|auto].
  simpl. destruct (decide (l = l')) as [<-|Hne].
  - rewrite lookup_insert_eq. intros [= <-]. right. split; [reflexivity|].
    exists np, le, ep. auto.
  - rewrite lookup_insert_ne by assumption. auto.
Qed.

Lemma forEach_carry_kept existing analysis h0 c m ls h r h' :
  (forall l, In l ls -> In l (category c (pages analysis))) ->
  (forall p le, m !! p = Some le ->
                In le (category c (pages existing))
                /\ page_path_at h0 le = Some p) ->
  (forall l, In l (page_locs analysis) -> ~ In l (page_locs existing)) ->
  pages_frame (page_locs analysis) h0 h ->
  customData_kept existing analysis h0 h ->
  forEach (carry_customData m) ls h = (r, h') ->
  pages_frame (page_locs analysis) h0 h'
  /\ customData_kept existing analysis h0 h'.
Proof.
  intros Hls Hm Hsep. revert h.
  induction ls as [|l ls IH]; intros h Hframe Hkept; simpl.
  - intros [= _ <-]. auto.
  - assert (Hstep : forall r1 h1, carry_customData m l h = (r1, h1) ->
              pages_frame (page_locs analysis) h0 h1
              /\ customData_kept existing analysis h0 h1).
    { intros r1 h1 Hc. pose proof (carry_customData_frame _ _ _ _ _ Hc) as Hf1.
      split.
      - eapply pages_frame_trans; [exact Hframe|exact Hf1|].
        intros x [Hx|[<-|[]]]; [exact Hx|].
        eapply category_In, Hls. left. reflexivity.
      - intros l' p np0 Hp Hnp0.
        destruct (carry_customData_writes _ _ _ _ _ _ _ Hc Hp)
          as [Hold|(-> & np & le & ep & Hl & Hle & Hep & Ht & ->)].
        + eapply Hkept; eassumption.
        + right. destruct (Hm _ _ Hle) as [Hin Hpath].
          assert (Hep0 : pages_at h0 !! le = Some ep).
          { rewrite <- (pf_others _ _ _ Hframe); [exact Hep|].
            intros Hle'. apply (Hsep le Hle'). eapply category_In, Hin. }
          exists c, le, ep. cbn [customData].
          repeat match goal with |- _ /\ _ => split end;
            try assumption; try reflexivity.
          * apply Hls. left. reflexivity.
          * rewrite <- (frame_page_path _ _ _ l Hframe).
            unfold page_path_at in *. rewrite Hl. rewrite Hep0 in Hpath.
            simpl in *. congruence. }
    unfold bind at 1.
    destruct (carry_customData m l h) as [[|[]] h1] eqn:Hc;
      destruct (Hstep _ _ eq_refl) as [Hf1 Hk1].
    + intros [= _ <-]. auto.
    + apply IH; [intros; apply Hls; right; assumption|assumption|assumption].
Qed.

Lemma merge_category_kept existing analysis h0 c h r h' :
  (forall l, In l (page_locs analysis) -> ~ In l (page_locs existing)) ->
  pages_frame (page_locs analysis) h0 h ->
  customData_kept existing analysis h0 h ->
  merge_category existing analysis c h = (r, h') ->
  pages_frame (page_locs analysis) h0 h'
  /\ customData_kept existing analysis h0 h'.
Proof.
  intros Hsep Hframe Hkept. rewrite merge_category_eq.
  destruct (existing_category c (pages existing)) as [|ls0];
    [intros [= _ <-]; auto|].
  unfold bind.
  pose proof (index_by_path_reads (category c (pages existing)) ∅ h) as Hreads.
  destruct (index_by_path (category c (pages existing)) ∅ h) as [[|m] h1] eqn:Hm;
    simpl in Hreads; subst h1.
  - intros [= _ <-]. auto.
  - apply forEach_carry_kept with (c := c); try assumption; [auto|].
    intros p le Hp.
    destruct (index_by_path_sound _ _ _ _ _ Hm p le Hp) as [He|[Hin Hpath]].
    + rewrite lookup_empty in He. discriminate.
    + split; [exact Hin|]. rewrite <- (frame_page_path _ _ _ le Hframe). exact Hpath.
Qed.

Lemma merge_pages_kept existing analysis h0 cs h r h' :
  (forall l, In l (page_locs analysis) -> ~ In l (page_locs existing)) ->
  pages_frame (page_locs analysis) h0 h ->
  customData_kept existing analysis h0 h ->
  forEach (merge_category existing analysis) cs h = (r, h') ->
  customData_kept existing analysis h0 h'.
Proof.
  intros Hsep. revert h. induction cs as [|c cs IH]; intros h Hframe Hkept; simpl.
  - intros [= _ <-]. exact Hkept.
  - unfold bind at 1.
    destruct (merge_category existing analysis c h) as [[|[]] h1] eqn:Hc;
      destruct (merge_category_kept _ _ _ _ _ _ _ Hsep Hframe Hkept Hc)
        as [Hf1 Hk1].
    + intros [= _ <-]. exact Hk1.
    + apply IH; assumption.
Qed.

Lemma find_form_sound nf fs h le h' :
  find_form nf fs h = (Returned (Some le), h') ->
  In le fs
  /\ exists p, form_path_at h le = Some p
               /\ Url.pathname <$> parseUrl (action nf) = Some p.
Proof.
  induction fs as [|l fs IH]; simpl; intros H.
  - apply ret_returned in H as [[=] _].
  - bind_step H as f h1 Hf. apply read_form_returned in Hf as [-> Hl].
    bind_step H as pf h1 Hpf. rewrite pathname_of_spec in Hpf.
    destruct (Url.pathname <$> parseUrl (action f)) as [q|] eqn:Hq;
      [|discriminate]. injection Hpf as <- <-.
    bind_step H as pn h1 Hpn. rewrite pathname_of_spec in Hpn.
    destruct (Url.pathname <$> parseUrl (action nf)) as [q'|] eqn:Hq';
      [|discriminate]. injection Hpn as <- <-.
    destruct (String.eqb_spec q q') as [->|Hne].
    + apply ret_returned in H as [[= ->] _]. split; [left; reflexivity|].
      exists q'. split; [|reflexivity].
      unfold Updater.form_path_at. rewrite Hl. exact Hq.
    + destruct (IH H) as [Hin Hp]. split; [right; exact Hin|exact Hp].
Qed.

Lemma carry_customTestData_writes existing l h r h' l' f :
  carry_customTestData existing l h = (r, h') ->
  forms_at h' !! l' = Some f ->
  forms_at h !! l' = Some f
  \/ (l' = l /\ exists nf le ef p,
        forms_at h !! l = Some nf /\ In le (forms existing)
        /\ forms_at h !! le = Some ef
        /\ form_path_at h l = Some p /\ form_path_at h le = Some p
        /\ Js.truthy (customTestData ef) = true
        /\ f = {| action := action nf; customTestData := customTestData ef;
                  form_rest := form_rest nf |}).
Proof.
  unfold Updater.carry_customTestData. unfold bind at 1, read_form at 1.
  destruct (forms_at h !! l) as [nf|] eqn:Hl; [|intros [= _ <-]; auto].
  unfold bind at 1.
  pose proof (find_form_reads nf (forms existing) h) as Hreads.
  destruct (find_form nf (forms existing) h) as [[|[le|]] h1] eqn:Hfind;
    simpl in Hreads; subst h1; try (intros [= _ <-]; auto; fail).
  apply find_form_sound in Hfind as (Hin & p & Hle & Hp).
  unfold bind, read_form, ret, update.
  destruct (forms_at h !! le) as [ef|] eqn:Hef; [|intros [= _ <-]; auto].
  destruct (Js.truthy (customTestData ef)) eqn:Ht; intros [= _ <-]; [|auto].
  simpl. destruct (decide (l = l')) as [<-|Hne].
  - rewrite lookup_insert_eq. intros [= <-]. right. split; [reflexivity|].
    exists nf, le, ef, p.
    repeat match goal with |- _ /\ _ => split end; try assumption; try reflexivity.
    unfold Updater.form_path_at. rewrite Hl. exact Hp.
  - rewrite lookup_insert_ne by assumption. auto.
Qed.

Lemma forEach_forms_kept existing analysis h0 ls h r h' :
  (forall l, In l ls -> In l (forms analysis)) ->
  (forall l, In l (forms analysis) -> ~ In l (forms existing)) ->
  forms_frame (forms analysis) h0 h ->
  customTestData_kept parseUrl existing h0 h ->
  forEach (carry_customTestData existing) ls h = (r, h') ->
  customTestData_kept parseUrl existing h0 h'.
Proof.
  intros Hls Hsep. revert h.
  induction ls as [|l ls IH]; intros h Hframe Hkept; simpl.
  - intros [= _ <-]. auto.
  - assert (Hstep : forall r1 h1, carry_customTestData existing l h = (r1, h1) ->
              forms_frame (forms analysis) h0 h1
              /\ customTestData_kept parseUrl existing h0 h1).
    { intros r1 h1 Hc.
      pose proof (carry_customTestData_frame _ _ _ _ _ Hc) as Hf1. split.
      - eapply forms_frame_trans; [exact Hframe|exact Hf1|].
        intros x [Hx|[<-|[]]]; [exact Hx|]. apply Hls. left. reflexivity.
      - intros l' f nf0 Hf Hnf0.
        destruct (carry_customTestData_writes _ _ _ _ _ _ _ Hc Hf)
          as [Hold|(-> & nf & le & ef & p & Hl & Hin & Hef & Hlp & Hlep & Ht & ->)].
        + eapply Hkept; eassumption.
        + right. exists le, ef. cbn [customTestData].
          assert (Hef0 : forms_at h0 !! le = Some ef).
          { rewrite <- (ff_others _ _ _ Hframe); [exact Hef|].
            intros Hle'. apply (Hsep le Hle'). exact Hin. }
          rewrite <- !(frame_form_path _ _ _ _ Hframe), Hlp, Hlep.
          repeat match goal with |- _ /\ _ => split end;
            try assumption; try reflexivity; eauto. }
    unfold bind at 1.
    destruct (carry_customTestData existing l h) as [[|[]] h1] eqn:Hc;
      destruct (Hstep _ _ eq_refl) as [Hf1 Hk1].
    + intros [= _ <-]. auto.
    + apply IH; [intros; apply Hls; right; assumption|assumption|assumption].
Qed.

(** The page and form objects at the end of a merge are those left by
    its two loops, whatever the outcome. *)
Lemma mergeKnowledge_objects now existing analysis h :
  exists r1 h1 h2,
    merge_pages existing analysis h = (r1, h1)
    /\ pages_at (snd (mergeKnowledge now existing analysis h)) = pages_at h1
    /\ forms_at (snd (mergeKnowledge now existing analysis h)) = forms_at h2
    /\ (h2 = h1 \/ exists r2, forEach (carry_customTestData existing)
                                (forms analysis) h1 = (r2, h2)).
Proof.
  destruct (merge_pages existing analysis h) as [r1 h1] eqn:Hpages.
  exists r1, h1.
  destruct (mergeKnowledge now existing analysis h) as [r h'] eqn:H. cbn [snd].
  unfold Updater.mergeKnowledge in H. unfold bind at 1 in H. rewrite Hpages in H.
  destruct r1 as [|[]].
  { injection H as <- <-. exists h1. auto. }
  unfold bind at 1 in H.
  pose proof (form_paths_reads (forms existing) h1) as Hr1.
  destruct (form_paths (forms existing) h1) as [[|eps] h1']; simpl in Hr1; subst h1'.
  { injection H as <- <-. exists h1. auto. }
  unfold bind at 1 in H.
  pose proof (form_paths_reads (forms analysis) h1) as Hr2.
  destruct (form_paths (forms analysis) h1) as [[|nps] h1']; simpl in Hr2; subst h1'.
  { injection H as <- <-. exists h1. auto. }
  unfold bind at 1 in H.
  destruct (forEach (carry_customTestData existing) (forms analysis) h1)
    as [r2 h2] eqn:Hforms.
  exists h2. split; [reflexivity|].
  assert (Hgoal : pages_at h' = pages_at h2 /\ forms_at h' = forms_at h2).
  { destruct r2 as [|[]]; [injection H as <- <-; auto|].
    unfold bind at 1 in H.
    destruct (updateHistory existing) as [lh|].
    - unfold ret at 1 in H. unfold bind at 1 in H.
      match type of H with context [countNewPages ?e ?m h2] =>
        pose proof (countNewPages_reads e m h2) as Hr3;
        destruct (countNewPages e m h2) as [[|count] h2'] end;
        simpl in Hr3; subst h2'; [injection H as <- <-; auto|].
      unfold bind at 1, read_history in H.
      destruct (histories_at h2 !! lh) as [entries|];
        [|injection H as <- <-; auto].
      unfold bind, update, ret in H. injection H as <- <-. auto.
    - unfold new_history at 1 in H. unfold bind at 1 in H.
      match type of H with context [countNewPages ?e ?m ?h3] =>
        pose proof (countNewPages_reads e m h3) as Hr3;
        destruct (countNewPages e m h3) as [[|count] h3'] end;
        simpl in Hr3; subst h3'; [injection H as <- <-; auto|].
      unfold bind at 1, read_history in H. simpl in H.
      rewrite lookup_insert_eq in H.
      unfold bind, update, ret in H. injection H as <- <-. auto. }
  destruct Hgoal as [Hp Hf].
  pose proof (forEach_forms_frame _ _ _ _ _ Hforms) as Hff.
  split; [rewrite Hp; apply (ff_pages _ _ _ Hff)|].
  split; [exact Hf|]. right. eauto.
Qed.

(** X21.  Where the [customData] after a merge comes from.  When the
    analysis shares no page object with
    the existing snapshot, then whatever the outcome every page object
    keeps its path and its other properties, and its [customData] is
    either what it was or the truthy [customData] of an existing page
    with the same path listed under the same category. *)
Theorem merge_customData_origin now existing analysis h l p :
  (forall x, In x (page_locs analysis) -> ~ In x (page_locs existing)) ->
  pages_at (snd (mergeKnowledge now existing analysis h)) !! l = Some p ->
  exists np,
    pages_at h !! l = Some np
    /\ path p = path np /\ page_rest p = page_rest np
    /\ (customData p = customData np
        \/ customData_from existing analysis h l (customData p)).
Proof.
  intros Hsep Hp.
  destruct (mergeKnowledge_objects now existing analysis h)
    as (r1 & h1 & h2 & Hpages & Hp1 & _ & _).
  rewrite Hp1 in Hp.
  pose proof (merge_pages_frame _ _ _ _ _ _ Hpages) as Hframe.
  pose proof (pf_shape _ _ _ Hframe l) as Hshape. rewrite Hp in Hshape.
  destruct (pages_at h !! l) as [np|] eqn:Hnp; [|discriminate].
  injection Hshape as Hpath Hrest. exists np.
  repeat match goal with |- _ /\ _ => split end; try assumption; try reflexivity.
  eapply (merge_pages_kept existing analysis h _ h); try eassumption.
  - apply pages_frame_refl.
  - intros x q nq Hq Hnq. left. congruence.
Qed.

(** X22.  Likewise for forms: when the analysis shares no form object
    with the existing snapshot, then whatever the outcome every form
    object keeps its action and its other properties, and its
    [customTestData] is either what it was or the truthy
    [customTestData] of an existing form whose action has the same
    path. *)
Theorem merge_customTestData_origin now existing analysis h l f :
  (forall x, In x (forms analysis) -> ~ In x (forms existing)) ->
  forms_at (snd (mergeKnowledge now existing analysis h)) !! l = Some f ->
  exists nf,
    forms_at h !! l = Some nf
    /\ action f = action nf /\ form_rest f = form_rest nf
    /\ (customTestData f = customTestData nf
        \/ customTestData_from parseUrl existing h l (customTestData f)).
Proof.
  intros Hsep Hf.
  destruct (mergeKnowledge_objects now existing analysis h)
    as (r1 & h1 & h2 & Hpages & _ & Hf2 & Hh2).
  rewrite Hf2 in Hf.
  pose proof (merge_pages_frame _ _ _ _ _ _ Hpages) as Hframe.
  pose proof (pf_forms _ _ _ Hframe) as Hf1.
  assert (Hkept1 : customTestData_kept parseUrl existing h1 h1)
    by (intros x q nq Hq Hnq; left; congruence).
  assert (H12 : forms_frame (forms analysis) h1 h2
                /\ customTestData_kept parseUrl existing h1 h2).
  { destruct Hh2 as [->|[r2 Hforms]]; [split; [apply forms_frame_refl|exact Hkept1]|].
    split; [eapply forEach_forms_frame, Hforms|].
    eapply forEach_forms_kept; try eassumption; [auto|apply forms_frame_refl]. }
  destruct H12 as [Hff Hkept].
  pose proof (ff_shape _ _ _ Hff l) as Hshape. rewrite Hf, Hf1 in Hshape.
  destruct (forms_at h !! l) as [nf|] eqn:Hnf; [|discriminate].
  injection Hshape as Haction Hrest. exists nf.
  repeat match goal with |- _ /\ _ => split end; try assumption; try reflexivity.
  assert (Hnf1 : forms_at h1 !! l = Some nf) by (rewrite Hf1; exact Hnf).
  destruct (Hkept l f nf Hf Hnf1) as [Hsame|(le & ef & Hin & Hef & Hsome & Hpath & Hv & Ht)];
    [left; exact Hsame|right].
  exists le, ef. unfold Updater.form_path_at in *. rewrite Hf1 in *.
  repeat match goal with |- _ /\ _ => split end; assumption.
Qed.

End Heap.

(** *** The merge on an example *)

Lemma merge_example :
  mergeKnowledge Url.parse MergeExamples.now MergeExamples.existing
    MergeExamples.analysis MergeExamples.heap
  = (Returned MergeExamples.merged, MergeExamples.after).
Proof. vm_compute. reflexivity. Qed.

(** [existing.pages["constructor"]] is the inherited [Object]: the
    merge throws before it writes anything. *)
Example merge_throws_on_inherited_category :
  mergeKnowledge Url.parse MergeExamples.now MergeExamples.existing
    MergeExamples.inherited_analysis MergeExamples.heap
  = (Thrown, MergeExamples.heap).
Proof. vm_compute. reflexivity. Qed.

Lemma separate_example :
  separate MergeExamples.existing MergeExamples.analysis.
Proof.
  split; simpl.
  - repeat constructor; simpl; intuition discriminate.
  - repeat constructor; simpl; intuition discriminate.
  - intros l [<-|[<-|[]]] [H|[]]; discriminate.
  - repeat constructor; simpl; intuition discriminate.
  - intros l [<-|[]] [H|[H|[]]]; discriminate.
Qed.

Lemma merge_bumps_minor_witness :
  mergeKnowledge Url.parse MergeExamples.now MergeExamples.existing
    MergeExamples.analysis MergeExamples.heap
  = (Returned MergeExamples.merged, MergeExamples.after)
  /\ version MergeExamples.merged = semver 1 (0 + 1) 0.
Proof.
  split; [exact merge_example|].
  refine (proj1 (merge_bumps_minor Url.parse _ _ _ _ _ _ 1 0 0
                   merge_example _ _ _ _ _));
    try (vm_compute; reflexivity); vm_compute; discriminate.
Defined.

Lemma merge_carries_customData_witness :
  pages_at MergeExamples.heap !! 2%positive = Some MergeExamples.login_fresh
  /\ pages_at MergeExamples.after !! 2%positive
     = Some {| path := "/login";
               customData := Js.VStr "use the staging account";
               page_rest := [("title", Js.VStr "Sign in")] |}.
Proof.
  assert (H2 : pages_at MergeExamples.heap !! 2%positive
               = Some MergeExamples.login_fresh) by (vm_compute; reflexivity).
  assert (H1 : pages_at MergeExamples.heap !! 1%positive
               = Some MergeExamples.login_existing) by (vm_compute; reflexivity).
  split; [exact H2|].
  refine (merge_carries_customData Url.parse _ _ _ _ _ _
            "auth" 2%positive MergeExamples.login_fresh
            [] 1%positive [] MergeExamples.login_existing
            merge_example _ _ _ H2 eq_refl H1 eq_refl
            (fun _ F => match F with end) eq_refl).
  - vm_compute. left. reflexivity.
  - intros c' Hc'.
    change (pages MergeExamples.analysis)
      with [("auth", [2%positive]); ("main", [3%positive])] in Hc'.
    rewrite !category_cons in Hc'.
    destruct (String.eqb_spec "auth" c') as [Heq|_]; [symmetry; exact Heq|].
    destruct (String.eqb "main" c');
      [destruct Hc' as [Hc'|[]]; discriminate|destruct Hc'].
  - vm_compute. intros [H|[H|[]]]; discriminate.
Defined.

Lemma merge_carries_customTestData_witness :
  forms_at MergeExamples.heap !! 3%positive = Some MergeExamples.login_form_fresh
  /\ forms_at MergeExamples.after !! 3%positive
     = Some {| action := "http://a.com/login";
               customTestData := Js.VStr "user=test";
               form_rest := [("method", Js.VStr "post")] |}.
Proof.
  assert (H3 : forms_at MergeExamples.heap !! 3%positive
               = Some MergeExamples.login_form_fresh) by (vm_compute; reflexivity).
  assert (H1 : forms_at MergeExamples.heap !! 1%positive
               = Some MergeExamples.login_form_existing) by (vm_compute; reflexivity).
  assert (P3 : form_path_at Url.parse MergeExamples.heap 3%positive = Some "/login")
    by (vm_compute; reflexivity).
  assert (P1 : form_path_at Url.parse MergeExamples.heap 1%positive = Some "/login")
    by (vm_compute; reflexivity).
  split; [exact H3|].
  refine (merge_carries_customTestData Url.parse _ _ _ _ _ _
            3%positive MergeExamples.login_form_fresh "/login"
            [] 1%positive [2%positive] MergeExamples.login_form_existing
            merge_example (or_introl eq_refl) _ H3 P3 eq_refl H1 P1
            (fun _ F => match F with end) eq_refl).
  vm_compute. intros [H|[]]. discriminate.
Defined.

Lemma merge_appends_history_witness :
  mergeKnowledge Url.parse MergeExamples.now MergeExamples.existing
    MergeExamples.analysis MergeExamples.heap
  = (Returned MergeExamples.merged, MergeExamples.after)
  /\ exists history old entry,
       updateHistory MergeExamples.merged = Some history
       /\ histories_at MergeExamples.after !! history = Some (old ++ [entry])
       /\ date entry = MergeExamples.now.
Proof.
  split; [exact merge_example|].
  destruct (merge_appends_history Url.parse _ _ _ _ _ _ merge_example)
    as (history & old & entry & H1 & H2 & _ & _ & H3 & _).
  exists history, old, entry. auto.
Defined.

Lemma merge_lists_removed_forms_witness :
  mergeKnowledge Url.parse MergeExamples.now MergeExamples.existing
    MergeExamples.analysis MergeExamples.heap
  = (Returned MergeExamples.merged, MergeExamples.after)
  /\ exists removed,
       removedForms MergeExamples.merged = Some removed /\ List.NoDup removed.
Proof.
  split; [exact merge_example|].
  destruct (merge_lists_removed_forms Url.parse _ _ _ _ _ _ merge_example)
    as (removed & H1 & H2 & _).
  exists removed. auto.
Defined.

Lemma merge_throws_on_bad_action_witness :
  form_path_at Url.parse MergeExamples.bad_heap 2%positive = None
  /\ fst (mergeKnowledge Url.parse MergeExamples.now MergeExamples.existing
            MergeExamples.analysis MergeExamples.bad_heap) = Thrown.
Proof.
  assert (H : form_path_at Url.parse MergeExamples.bad_heap 2%positive = None)
    by (vm_compute; reflexivity).
  split; [exact H|].
  exact (proj1 (merge_throws_on_bad_action Url.parse MergeExamples.now
                  MergeExamples.existing MergeExamples.analysis
                  MergeExamples.bad_heap 2%positive
                  (or_intror (or_introl eq_refl)) H)).
Defined.

Lemma unversioned_example :
  mergeKnowledge Url.parse MergeExamples.now MergeExamples.unversioned
    MergeExamples.analysis MergeExamples.heap
  = (Returned MergeExamples.unversioned_merged, snd MergeExamples.unversioned_outcome).
Proof. vm_compute. reflexivity. Qed.

Lemma merge_version_not_a_number_witness :
  Js.parseInt (List.nth 1 (Js.split "." (version MergeExamples.unversioned))
                 "undefined") = Js.NaN
  /\ next_version (version MergeExamples.unversioned_merged)
     = version MergeExamples.unversioned_merged.
Proof.
  assert (H : Js.parseInt (List.nth 1 (Js.split "." (version MergeExamples.unversioned))
                             "undefined") = Js.NaN) by (vm_compute; reflexivity).
  split; [exact H|].
  exact (proj1 (proj2 (merge_version_not_a_number Url.parse _ _ _ _ _ _
                         unversioned_example H))).
Defined.

Lemma count_example :
  countNewPages MergeExamples.existing MergeExamples.analysis MergeExamples.heap
  = (Returned 1%nat, MergeExamples.heap).
Proof. vm_compute. reflexivity. Qed.

Lemma countNewPages_counts_witness :
  countNewPages MergeExamples.existing MergeExamples.analysis MergeExamples.heap
  = (Returned 1%nat, MergeExamples.heap)
  /\ (1 <= length (page_locs MergeExamples.analysis))%nat.
Proof.
  split; [exact count_example|].
  exact (proj1 (proj2 (countNewPages_counts _ _ _ _ _ count_example))).
Defined.

Lemma summary_example :
  generateUpdateSummary MergeExamples.existing MergeExamples.merged
    MergeExamples.after
  = (Returned "1 new pages discovered, 1 forms removed", MergeExamples.after).
Proof. vm_compute. reflexivity. Qed.

Lemma summary_reports_changes_witness :
  generateUpdateSummary MergeExamples.existing MergeExamples.merged
    MergeExamples.after
  = (Returned "1 new pages discovered, 1 forms removed", MergeExamples.after)
  /\ exists c rest,
       "1 new pages discovered, 1 forms removed" = String c rest
       /\ Js.is_digit c = true.
Proof.
  split; [exact summary_example|].
  refine (proj2 (proj2 (summary_reports_changes _ _ _ _ _ summary_example
                          _ _ _ _)) _);
    try (vm_compute; reflexivity). discriminate.
Defined.

Lemma summary_agrees_with_history_witness :
  mergeKnowledge Url.parse MergeExamples.now MergeExamples.existing
    MergeExamples.analysis MergeExamples.heap
  = (Returned MergeExamples.merged, MergeExamples.after)
  /\ exists n, countNewPages MergeExamples.existing MergeExamples.merged
                 MergeExamples.after = (Returned n, MergeExamples.after).
Proof.
  split; [exact merge_example|].
  destruct (summary_agrees_with_history Url.parse _ _ _ _ _ _ merge_example)
    as (history & entries & entry & _ & _ & H).
  exists (pagesAdded entry). exact H.
Defined.

Lemma after_login :
  pages_at (snd (mergeKnowledge Url.parse MergeExamples.now MergeExamples.existing
                   MergeExamples.analysis MergeExamples.heap)) !! 2%positive
  = Some {| path := "/login"; customData := Js.VStr "use the staging account";
            page_rest := [("title", Js.VStr "Sign in")] |}.
Proof. vm_compute. reflexivity. Qed.

Lemma merge_customData_origin_witness :
  (forall x, In x (page_locs MergeExamples.analysis) ->
             ~ In x (page_locs MergeExamples.existing))
  /\ exists np, pages_at MergeExamples.heap !! 2%positive = Some np
                /\ "/login" = path np.
Proof.
  pose proof (sep_pages_existing _ _ separate_example) as Hsep.
  split; [exact Hsep|].
  destruct (merge_customData_origin Url.parse _ _ _ _ _ _ Hsep after_login)
    as (np & H1 & H2 & _).
  exists np. auto.
Defined.

Lemma after_login_form :
  forms_at (snd (mergeKnowledge Url.parse MergeExamples.now MergeExamples.existing
                   MergeExamples.analysis MergeExamples.heap)) !! 3%positive
  = Some {| action := "http://a.com/login";
            customTestData := Js.VStr "user=test";
            form_rest := [("method", Js.VStr "post")] |}.
Proof. vm_compute. reflexivity. Qed.

Lemma merge_customTestData_origin_witness :
  (forall x, In x (forms MergeExamples.analysis) ->
             ~ In x (forms MergeExamples.existing))
  /\ exists nf, forms_at MergeExamples.heap !! 3%positive = Some nf
                /\ "http://a.com/login" = action nf.
Proof.
  pose proof (sep_forms_existing _ _ separate_example) as Hsep.
  split; [exact Hsep|].
  destruct (merge_customTestData_origin Url.parse _ _ _ _ _ _ Hsep after_login_form)
    as (nf & H1 & H2 & _).
  exists nf. auto.
Defined.

End UpdaterFacts.

(* ===================================================================== *)
(** * Properties of the context reader *)
(* ===================================================================== *)

Module ContextFacts.
Import Eff Context.

Section Reader.

Variable join : string -> string -> string.
Variable extname : string -> string.
Variable relative : string -> string -> string.
Variable readFileSync : string -> string.
Variable parseContext : string -> ParsedData.

Abbreviation walk := (walk join).
Abbreviation listed := (listed join).
Abbreviation getAllFilesRecursive := (getAllFilesRecursive join).
Abbreviation isTextFile := (isTextFile extname).
Abbreviation readFromFolder :=
  (readFromFolder join extname relative readFileSync parseContext).

(** Induction on trees, with the hypothesis for every entry of a
    directory. *)
Lemma Node_induction (P : Node -> Prop) :
  P File ->
  (forall entries, List.Forall (fun e => P (snd e)) entries -> P (Dir entries)) ->
  forall n, P n.
Proof.
  intros Hfile Hdir.
  fix IH 1. intros [|entries]; [exact Hfile|].
  apply Hdir. induction entries as [|[name n] rest IHrest]; constructor.
  - apply IH.
  - exact IHrest.
Qed.

Lemma walk_dir here entries :
  walk here (Dir entries)
  = concat (map (fun e => if skipped (fst e) then []
                          else walk (join here (fst e)) (snd e)) entries).
Proof.
  simpl. induction entries as [|[name n] rest IH]; [reflexivity|].
  simpl. destruct (skipped name); simpl; rewrite IH; reflexivity.
Qed.

Lemma walk_listed here node file :
  In file (walk here node) <-> listed here node file.
Proof.
  revert here. induction node as [|entries IH] using Node_induction; intros here.
  - simpl. split.
    + intros [<-|[]]. constructor.
    + intros H. inversion H; subst. left. reflexivity.
  - rewrite walk_dir, in_concat. split.
    + intros (l & Hl & Hin). apply in_map_iff in Hl as ([name n] & <- & He).
      simpl in Hin. destruct (skipped name) eqn:Hs; [destruct Hin|].
      rewrite List.Forall_forall in IH. specialize (IH _ He). simpl in IH.
      apply IH in Hin. econstructor; eassumption.
    + intros H. inversion H as [|? ? name n p He Hs Hl]; subst.
      rewrite List.Forall_forall in IH. specialize (IH _ He). simpl in IH.
      exists (walk (join here name) n). split; [|apply IH; exact Hl].
      apply in_map_iff. exists (name, n). simpl. rewrite Hs. auto.
Qed.

(** X23.  [getAllFilesRecursive] returns exactly the files that are
    reached from the folder through entry names none of which starts
    with a dot or is [node_modules], [dist] or [build]: nothing below
    such an entry is returned, and nothing else is left out.  The name
    of the folder itself is not tested. *)
Theorem getAllFilesRecursive_lists dir entries file :
  In file (getAllFilesRecursive dir entries) <-> listed dir (Dir entries) file.
Proof. apply walk_listed. Qed.

Lemma fold_sections_length folderPath files text :
  (String.length text
   <= String.length
        (fold_left (fun t file =>
                      (t ++ section_of relative readFileSync folderPath file)%string)
                   files text))%nat.
Proof.
  revert text. induction files as [|f fs IH]; intros text; simpl; [lia|].
  etransitivity; [|apply IH]. rewrite JsFacts.length_append. lia.
Qed.

(** X24.  [readFromFolder] reads the text files among the files that
    [getAllFilesRecursive] lists.  When there is none it
    answers with an empty text, no file count and an empty object as
    parsed data; otherwise the file count is the number of text files,
    the parsed data is [parseContext] of the text, and the text is not
    empty. *)
Theorem readFromFolder_counts folderPath entries :
  (List.filter isTextFile (getAllFilesRecursive folderPath entries) = [] ->
     rawText (readFromFolder folderPath entries) = ""%string
     /\ parsedData (readFromFolder folderPath entries) = None
     /\ fileCount (readFromFolder folderPath entries) = None)
  /\ (List.filter isTextFile (getAllFilesRecursive folderPath entries) <> [] ->
        fileCount (readFromFolder folderPath entries)
        = Some (length (List.filter isTextFile
                          (getAllFilesRecursive folderPath entries)))
        /\ parsedData (readFromFolder folderPath entries)
           = Some (parseContext (rawText (readFromFolder folderPath entries)))
        /\ rawText (readFromFolder folderPath entries) <> ""%string)
  /\ (forall file,
        In file (List.filter isTextFile
                   (getAllFilesRecursive folderPath entries)) ->
        listed folderPath (Dir entries) file /\ isTextFile file = true).
Proof.
  unfold Context.readFromFolder.
  set (textFiles := List.filter isTextFile (getAllFilesRecursive folderPath entries)).
  split; [|split].
  - intros ->. simpl. auto.
  - intros Hne. destruct textFiles as [|f fs] eqn:Hfiles; [contradiction|].
    cbn [length Nat.eqb rawText parsedData fileCount].
    split; [reflexivity|]. split; [reflexivity|].
    simpl. intros Hempty.
    pose proof (fold_sections_length folderPath fs
                  ("" ++ section_of relative readFileSync folderPath f)%string) as Hlen.
    rewrite Hempty in Hlen. unfold section_of, newline in Hlen.
    simpl in Hlen. lia.
  - intros file Hin. subst textFiles. apply List.filter_In in Hin as [Hin Ht].
    split; [apply walk_listed; exact Hin|exact Ht].
Qed.

End Reader.

End ContextFacts.

(* ===================================================================== *)
(** * Properties of the command line *)
(* ===================================================================== *)

Module CliFacts.
Import Eff Cli.

Lemma step_exit arg nextVal nextVal' config code :
  step arg nextVal config = Stop (Exit code) ->
  step arg nextVal' config = Stop (Exit code) /\ (code = 0 \/ code = 1)%Z.
Proof.
  unfold step.
  repeat match goal with
         | |- context [if is_any arg ?l then _ else _] =>
             destruct (is_any arg l); [try discriminate|]
         end.
  - destruct nextVal; discriminate.
  - intros [= <-]. auto.
  - destruct (Js.startsWith arg "-"); [|discriminate]. intros [= <-]. auto.
Qed.

Lemma step_next arg nextVal config used c :
  step arg nextVal config = Next used c ->
  used = false -> forall nextVal', step arg nextVal' config = Next false c.
Proof.
  intros H -> nextVal'. revert H. unfold step.
  repeat (match goal with
          | |- context [if is_any arg ?l then _ else _] =>
              destruct (is_any arg l); cbv iota
          end; try discriminate; try (intros H; exact H));
    try (destruct nextVal; discriminate);
    try (destruct (Js.startsWith arg "-"); [discriminate|]; intros H; exact H).
Qed.

Lemma parse_from_exit argv more config code :
  parse_from argv config = Exit code ->
  parse_from (argv ++ more) config = Exit code /\ (code = 0 \/ code = 1)%Z.
Proof.
  remember (length argv) as n eqn:Hn. revert argv config Hn.
  induction n as [n IH] using lt_wf_ind. intros argv config Hn.
  destruct argv as [|arg rest]; [discriminate|]. simpl.
  destruct (step arg (hd_error rest) config) as [used c|p] eqn:Hstep.
  - destruct used.
    + destruct rest as [|v rest']; [discriminate|]. simpl.
      simpl in Hstep. rewrite Hstep. intros H.
      apply (IH (length rest')); [simpl in Hn; lia|reflexivity|exact H].
    + pose proof (step_next _ _ _ _ _ Hstep eq_refl
                    (hd_error (rest ++ more))) as ->.
      intros H. apply (IH (length rest)); [simpl in Hn; lia|reflexivity|exact H].
  - intros ->. destruct (step_exit _ _ (hd_error (rest ++ more)) _ _ Hstep)
      as [-> Hcode]. auto.
Qed.

(** X25.  [parseArguments] reads the command line from left to right
    and stops at the first [--help] or unknown option it meets in
    option position: what follows is not looked at.  It exits with
    status 0 (help) or 1 (unknown option) and no other. *)
Theorem parse_stops_at_exit argv more config code :
  parse_from argv config = Exit code ->
  parse_from (argv ++ more) config = Exit code /\ (code = 0 \/ code = 1)%Z.
Proof. apply parse_from_exit. Qed.

Section Main.

Variable homeSkills : string.
Variable parseUrl : string -> option Url.t.
Variable playwrightInstalled : bool.
Variable setupSucceeds : bool.
Variable readContext : string -> Outcome Context.ContextData.
Variable updateSkill : Config -> Outcome unit.
Variable createSkill : Config -> Outcome unit.

Abbreviation parseArguments := (parseArguments homeSkills).
Abbreviation validateConfig := (validateConfig parseUrl).
Abbreviation main_body := (main_body readContext updateSkill createSkill).
Abbreviation main :=
  (main homeSkills parseUrl playwrightInstalled setupSucceeds readContext
        updateSkill createSkill).

Lemma main_body_with_docs config log :
  given (contextPath config) = true ->
  exists log',
    main_body config log = (Thrown, log')
    /\ log' = log ++ [ReadContext (text_of (contextPath config))].
Proof.
  intros Hdocs. unfold Cli.main_body. rewrite Hdocs.
  unfold call, assign_const, bind, update, await.
  destruct (readContext (text_of (contextPath config))) as [|data];
    [eexists; split; reflexivity|].
  destruct (mergeWithConfig config data); eexists; split; reflexivity.
Qed.

Lemma main_body_without_docs config log :
  given (contextPath config) = false ->
  main_body config log
  = if updateMode config
    then (updateSkill config, log ++ [UpdateSkill config])
    else (createSkill config, log ++ [CreateSkill config]).
Proof.
  intros Hdocs. unfold Cli.main_body. rewrite Hdocs.
  unfold call, bind, update, await, ret.
  destruct (updateMode config); reflexivity.
Qed.


Lemma validateConfig_spec config :
  validateConfig config = true <->
  given (appName config) = true
  /\ (if given (targetUrl config)
      then is_Some (parseUrl (text_of (targetUrl config)))
      else updateMode config = true \/ given (contextPath config) = true).
Proof.
  unfold Cli.validateConfig.
  destruct (given (appName config)); cbn [negb];
    [|split; [discriminate|intros [[=] _]]].
  destruct (given (targetUrl config)); cbn [negb andb].
  - destruct (parseUrl (text_of (targetUrl config))) as [u|].
    + split; [intros _; split; [reflexivity|eauto]|reflexivity].
    + split; [discriminate|intros [_ [u [=]]]].
  - destruct (updateMode config), (given (contextPath config)); cbn [negb andb];
      split; try discriminate; try reflexivity; auto.
    intros [_ [[=]|[=]]].
Qed.

Lemma main_with_config argv config :
  playwrightInstalled || setupSucceeds = true ->
  parseArguments argv = Parsed_config config ->
  (fst (main argv) = 0%Z \/ fst (main argv) = 1%Z)
  /\ (fst (main argv) = 0%Z <->
      validateConfig config = true
      /\ given (contextPath config) = false
      /\ (if updateMode config then updateSkill config
          else createSkill config) = Returned tt).
Proof.
  intros Hpw Hparse. unfold Cli.main. rewrite Hparse.
  assert (Hpw' : negb playwrightInstalled && negb setupSucceeds = false)
    by (destruct playwrightInstalled, setupSucceeds; try reflexivity; discriminate).
  rewrite Hpw'.
  destruct (validateConfig config); cbn [negb];
    [|split; [auto|]; split; [discriminate|intros [[=] _]]].
  destruct (given (contextPath config)) eqn:Hdocs.
  - destruct (main_body_with_docs config [] Hdocs) as (log' & -> & _).
    split; [auto|]. split; [discriminate|intros (_ & [=] & _)].
  - rewrite (main_body_without_docs config [] Hdocs).
    destruct (updateMode config).
    + destruct (updateSkill config) as [|[]]; cbn [fst];
        (split; [auto|]); split; try discriminate; auto.
      intros (_ & _ & [=]).
    + destruct (createSkill config) as [|[]]; cbn [fst];
        (split; [auto|]); split; try discriminate; auto.
      intros (_ & _ & [=]).
Qed.

(** X27.  The exit status of [main] is 0 or 1.  It is 0 in two cases
    only: help was asked for before any unknown option, or the
    configuration names an application, gives a URL that parses or
    else asks for an update, gives no documentation path, and the
    pipeline it selects (update with [--update], creation otherwise)
    returns; in both cases Playwright must resolve or install. *)
Theorem main_exit_status argv :
  (fst (main argv) = 0%Z \/ fst (main argv) = 1%Z)
  /\ (fst (main argv) = 0%Z <->
      (playwrightInstalled || setupSucceeds = true)
      /\ (parseArguments argv = Exit 0
          \/ exists config,
               parseArguments argv = Parsed_config config
               /\ given (appName config) = true
               /\ (if given (targetUrl config)
                   then is_Some (parseUrl (text_of (targetUrl config)))
                   else updateMode config = true)
               /\ given (contextPath config) = false
               /\ (if updateMode config then updateSkill config
                   else createSkill config) = Returned tt)).
Proof.
  destruct (playwrightInstalled || setupSucceeds) eqn:Hpw.
  - destruct (parseArguments argv) as [config|code|] eqn:Hparse.
    + destruct (main_with_config argv config Hpw Hparse) as [Hcode Hzero].
      split; [exact Hcode|]. rewrite Hzero, validateConfig_spec. split.
      * intros ((Hname & Hurl) & Hdocs & Hrun). split; [reflexivity|].
        right. exists config.
        repeat match goal with |- _ /\ _ => split end; try assumption;
          try reflexivity.
        destruct (given (targetUrl config)); [exact Hurl|].
        destruct Hurl as [Hu|Hu]; [exact Hu|congruence].
      * intros (_ & [[=]|(c & [= <-] & Hname & Hurl & Hdocs & Hrun)]).
        repeat match goal with |- _ /\ _ => split end; try assumption.
        destruct (given (targetUrl config)); [exact Hurl|auto].
    + assert (Hmain : fst (main argv) = code).
      { unfold Cli.main. rewrite Hparse.
        destruct playwrightInstalled, setupSucceeds; try reflexivity; discriminate. }
      rewrite Hmain.
      destruct (parse_from_exit argv [] _ _ Hparse) as [_ Hcode].
      split; [exact Hcode|]. split.
      * intros ->. auto.
      * intros (_ & [[= ->]|(c & [=] & _)]). reflexivity.
    + assert (Hmain : fst (main argv) = 1%Z).
      { unfold Cli.main. rewrite Hparse.
        destruct playwrightInstalled, setupSucceeds; try reflexivity; discriminate. }
      rewrite Hmain. split; [auto|]. split; [discriminate|].
      intros (_ & [[=]|(c & [=] & _)]).
  - assert (Hmain : fst (main argv) = 1%Z).
    { unfold Cli.main.
      destruct playwrightInstalled, setupSucceeds; try discriminate. reflexivity. }
    rewrite Hmain. split; [auto|]. split; [discriminate|intros [[=] _]].
Qed.

End Main.

(** *** The command line on an example *)

Lemma parse_stops_at_exit_witness :
  parse_from ["--name"; "app"; "--hlp"] (defaults "/home/u/.claude/skills") = Exit 1
  /\ parse_from (["--name"; "app"; "--hlp"] ++ ["--help"])
       (defaults "/home/u/.claude/skills") = Exit 1.
Proof.
  assert (H : parse_from ["--name"; "app"; "--hlp"]
                (defaults "/home/u/.claude/skills") = Exit 1)
    by (vm_compute; reflexivity).
  split; [exact H|].
  exact (proj1 (parse_stops_at_exit _ ["--help"] _ _ H)).
Defined.



End CliFacts.

(* ===================================================================== *)
(** * Properties of the backup *)
(* ===================================================================== *)

Module BackupFacts.
Import Eff Backup.

Local Open Scope list_scope.

(** *** Paths *)

Lemma append_inj_l a b c : (a ++ b)%string = (a ++ c)%string -> b = c.
Proof.
  induction a as [|x a IH]; [auto|].
  rewrite !JsFacts.append_cons. intros [= H]. auto.
Qed.

Lemma join_inj dir a b : join dir a = join dir b -> a = b.
Proof.
  unfold join. intros H. apply append_inj_l in H.
  apply (append_inj_l "/") in H. exact H.
Qed.

(** A backup path is never the path of one of the files backed up. *)
Lemma backup_is_not_source skillPath iso file file' :
  In file' filesToBackup ->
  join (backupPath skillPath iso) file <> join skillPath file'.
Proof.
  unfold backupPath, backupDir, join. intros Hin H.
  rewrite !JsFacts.append_assoc in H. apply append_inj_l in H.
  simpl in Hin.
  destruct Hin as [<-|[<-|[<-|[<-|[]]]]]; discriminate.
Qed.

Lemma map_chars_id f s :
  Js.all_chars (fun c => Ascii.eqb (f c) c) s = true -> Js.map_chars f s = s.
Proof.
  induction s as [|c s IH]; [reflexivity|]. cbn [Js.all_chars Js.map_chars].
  intros H. apply andb_true_iff in H as [Hc Hs].
  apply Ascii.eqb_eq in Hc. rewrite Hc, IH by assumption. reflexivity.
Qed.

Lemma timestamp_of_date date time :
  Js.free_of "T" date = true ->
  Js.free_of ":" date = true ->
  Js.free_of "." date = true ->
  timestamp (date ++ "T" ++ time) = date.
Proof.
  intros HT Hc Hd. unfold timestamp.
  rewrite !CrawlFacts.map_chars_append.
  assert (Hid : Js.map_chars colon_dot_to_dash date = date).
  { apply map_chars_id. unfold Js.free_of in Hc, Hd. clear HT.
    induction date as [|c s IH]; [reflexivity|].
    cbn [Js.all_chars] in *.
    apply andb_true_iff in Hc as [Hc1 Hc2]. apply andb_true_iff in Hd as [Hd1 Hd2].
    rewrite IH by assumption. unfold colon_dot_to_dash.
    apply negb_true_iff in Hc1, Hd1. rewrite Hc1, Hd1. simpl.
    rewrite Ascii.eqb_refl. reflexivity. }
  rewrite Hid.
  change (Js.map_chars colon_dot_to_dash "T" ++ Js.map_chars colon_dot_to_dash time)%string
    with (String "T" (Js.map_chars colon_dot_to_dash time)).
  rewrite UpdaterFacts.split_free_sep by assumption. reflexivity.
Qed.

(** *** What the steps write *)

Lemma mkdirSync_returned parent name fs r fs' :
  mkdirSync parent name fs = (r, fs') ->
  files fs' = files fs
  /\ (r = Returned tt ->
      dirs fs' = {[ join parent name ]} ∪ dirs fs
      /\ is_file fs parent = false).
Proof.
  unfold mkdirSync.
  destruct (is_file fs parent) eqn:Hp; cbn [orb];
    [intros [= <- <-]; split; [reflexivity|discriminate]|].
  destruct (is_file fs (join parent name));
    intros [= <- <-]; split; try reflexivity; try discriminate. auto.
Qed.

Lemma backup_file_writes skillPath iso file fs r fs' :
  backup_file skillPath iso file fs = (r, fs') ->
  dirs fs' = dirs fs
  /\ (forall p, p <> join (backupPath skillPath iso) file ->
                files fs' !! p = files fs !! p)
  /\ (r = Returned tt ->
      match files fs !! join skillPath file with
      | Some content =>
          files fs' !! join (backupPath skillPath iso) file = Some content
      | None =>
          files fs' !! join (backupPath skillPath iso) file
          = files fs !! join (backupPath skillPath iso) file
      end).
Proof.
  unfold backup_file, bind, existsSync, copyFileSync, ret, is_file.
  destruct (files fs !! join skillPath file) as [content|] eqn:Hsrc.
  - rewrite bool_decide_eq_true_2 by eauto. cbn [orb]. cbv beta iota.
    rewrite Hsrc.
    destruct (is_dir fs (join (backupPath skillPath iso) file));
      intros [= <- <-]; cbn [files dirs].
    + repeat split; try reflexivity. discriminate.
    + repeat split.
      * intros p Hp. apply lookup_insert_ne. congruence.
      * intros _. apply lookup_insert_eq.
  - rewrite bool_decide_eq_false_2 by (intros [x Hx]; discriminate). cbn [orb].
    cbv beta iota.
    destruct (is_dir fs (join skillPath file)); cbv beta iota;
      [rewrite Hsrc|]; intros [= <- <-]; repeat split; try reflexivity;
      try discriminate.
Qed.

Lemma backup_files_write skillPath iso names fs fs' :
  (forall name, In name names -> In name filesToBackup) ->
  forEach (backup_file skillPath iso) names fs = (Returned tt, fs') ->
  dirs fs' = dirs fs
  /\ (forall p, (forall name, In name names ->
                              p <> join (backupPath skillPath iso) name) ->
                files fs' !! p = files fs !! p)
  /\ (forall name content,
        In name names -> files fs !! join skillPath name = Some content ->
        files fs' !! join (backupPath skillPath iso) name = Some content)
  /\ (forall name,
        In name names -> files fs !! join skillPath name = None ->
        files fs' !! join (backupPath skillPath iso) name
        = files fs !! join (backupPath skillPath iso) name).
Proof.
  intros Hnames. revert fs.
  induction names as [|name names IH]; intros fs; simpl.
  - intros [= <-]. repeat split; auto; intros ? ? [].
  - unfold bind at 1.
    destruct (backup_file skillPath iso name fs) as [[|[]] fs1] eqn:Hstep;
      [discriminate|].
    intros Hrest.
    destruct (backup_file_writes _ _ _ _ _ _ Hstep) as (Hd1 & Hframe1 & Hcopy1).
    specialize (Hcopy1 eq_refl).
    destruct (IH (fun n Hn => Hnames n (or_intror Hn)) fs1 Hrest)
      as (Hd & Hframe & Hcopy & Hmiss).
    assert (Hsources : forall n, In n filesToBackup ->
              files fs1 !! join skillPath n = files fs !! join skillPath n).
    { intros n Hn. apply Hframe1. intros Heq. symmetry in Heq.
      exact (backup_is_not_source _ _ _ _ Hn Heq). }
    split; [congruence|]. split; [|split].
    + intros p Hp. rewrite Hframe by (intros n Hn; apply Hp; right; exact Hn).
      apply Hframe1. apply Hp. left. reflexivity.
    + intros n content [<-|Hn] Hsrc.
      * rewrite Hsrc in Hcopy1.
        destruct (in_dec string_dec name names) as [Hin|Hout].
        -- apply Hcopy; [exact Hin|]. rewrite Hsources; [exact Hsrc|].
           apply Hnames. left. reflexivity.
        -- rewrite Hframe; [exact Hcopy1|].
           intros n' Hn' Heq. apply join_inj in Heq. congruence.
      * apply Hcopy; [exact Hn|]. rewrite Hsources; [exact Hsrc|].
        apply Hnames. right. exact Hn.
    + intros n [<-|Hn] Hsrc.
      * rewrite Hsrc in Hcopy1.
        destruct (in_dec string_dec name names) as [Hin|Hout].
        -- rewrite Hmiss; [exact Hcopy1|exact Hin|].
           rewrite Hsources; [exact Hsrc|]. apply Hnames. left. reflexivity.
        -- rewrite Hframe; [exact Hcopy1|].
           intros n' Hn' Heq. apply join_inj in Heq. congruence.
      * rewrite Hmiss; [|exact Hn|].
        -- destruct (string_dec n name) as [->|Hne].
           ++ rewrite Hsrc in Hcopy1. exact Hcopy1.
           ++ apply Hframe1. intros Heq. apply join_inj in Heq. contradiction.
        -- rewrite Hsources; [exact Hsrc|]. apply Hnames. right. exact Hn.
Qed.

Lemma backup_effect skillPath iso fs fs' :
  backupExistingSkill skillPath iso fs = (Returned tt, fs') ->
  (forall file content,
     In file filesToBackup ->
     files fs !! join skillPath file = Some content ->
     files fs' !! join (backupPath skillPath iso) file = Some content)
  /\ (forall file,
        In file filesToBackup ->
        files fs !! join skillPath file = None ->
        files fs' !! join (backupPath skillPath iso) file
        = files fs !! join (backupPath skillPath iso) file)
  /\ (forall p,
        (forall file, In file filesToBackup ->
                      p <> join (backupPath skillPath iso) file) ->
        files fs' !! p = files fs !! p)
  /\ (forall file,
        In file filesToBackup ->
        files fs' !! join skillPath file = files fs !! join skillPath file)
  /\ backupDir skillPath ∈ dirs fs'
  /\ backupPath skillPath iso ∈ dirs fs'
  /\ dirs fs ⊆ dirs fs'.
Proof.
  unfold backupExistingSkill. intros H.
  unfold bind at 1 in H.
  destruct ((let* present := existsSync (backupDir skillPath)
             in if negb present then mkdirSync skillPath ".backups" else ret tt) fs)
    as [[|[]] fs1] eqn:H1; [discriminate|].
  unfold bind at 1 in H.
  destruct (mkdirSync (backupDir skillPath) ("backup-" ++ timestamp iso) fs1)
    as [[|[]] fs2] eqn:H2; [discriminate|].
  assert (Hfs1 : files fs1 = files fs
                 /\ dirs fs ⊆ dirs fs1
                 /\ (backupDir skillPath ∈ dirs fs1
                     \/ is_file fs1 (backupDir skillPath) = true)).
  { unfold bind, existsSync in H1.
    destruct (is_file fs (backupDir skillPath)) eqn:Hfile; cbn [orb negb] in H1.
    - injection H1 as <-. split; [reflexivity|]. split; [set_solver|]. auto.
    - destruct (is_dir fs (backupDir skillPath)) eqn:Hdir; cbn [negb] in H1.
      + injection H1 as <-. split; [reflexivity|]. split; [set_solver|].
        left. unfold is_dir in Hdir. apply bool_decide_eq_true_1 in Hdir. exact Hdir.
      + destruct (mkdirSync_returned _ _ _ _ _ H1) as [Hf Hd].
        destruct (Hd eq_refl) as [Hd' _]. split; [exact Hf|].
        fold (backupDir skillPath) in Hd'. rewrite Hd'.
        split; [set_solver|]. left. set_solver. }
  destruct Hfs1 as (Hf1 & Hsub1 & Hbd).
  destruct (mkdirSync_returned _ _ _ _ _ H2) as [Hf2 Hd2].
  destruct (Hd2 eq_refl) as [Hd2' Hnofile].
  fold (backupPath skillPath iso) in Hd2'.
  destruct Hbd as [Hbd|Hbd]; [|congruence].
  destruct (backup_files_write skillPath iso filesToBackup fs2 fs'
              (fun n Hn => Hn) H) as (Hd & Hframe & Hcopy & Hmiss).
  assert (Hfiles : files fs2 = files fs) by congruence.
  repeat match goal with |- _ /\ _ => split end.
  - intros file content Hin Hsrc. apply Hcopy; [exact Hin|]. rewrite Hfiles. exact Hsrc.
  - intros file Hin Hsrc. rewrite Hmiss, Hfiles; [reflexivity|exact Hin|].
    rewrite Hfiles. exact Hsrc.
  - intros p Hp. rewrite Hframe, Hfiles; [reflexivity|exact Hp].
  - intros file Hin. rewrite Hframe, Hfiles; [reflexivity|].
    intros n Hn Heq. symmetry in Heq.
    exact (backup_is_not_source _ _ _ _ Hin Heq).
  - rewrite Hd, Hd2'. set_solver.
  - rewrite Hd, Hd2'. set_solver.
  - rewrite Hd, Hd2'. set_solver.
Qed.

(** X28.  A backup that returns has copied every one of the four
    files that the skill folder holds to the backup folder of the day,
    with the same contents; it has changed no other file, the four
    files themselves included; where the skill folder lacks one of the
    four, whatever the backup folder held under that name is left as it
    was; and both the [.backups] folder and the folder of the day are
    directories afterwards. *)
Theorem backup_copies skillPath iso fs fs' :
  backupExistingSkill skillPath iso fs = (Returned tt, fs') ->
  (forall file content,
     In file filesToBackup ->
     files fs !! join skillPath file = Some content ->
     files fs' !! join (backupPath skillPath iso) file = Some content)
  /\ (forall file,
        In file filesToBackup ->
        files fs !! join skillPath file = None ->
        files fs' !! join (backupPath skillPath iso) file
        = files fs !! join (backupPath skillPath iso) file)
  /\ (forall p,
        (forall file, In file filesToBackup ->
                      p <> join (backupPath skillPath iso) file) ->
        files fs' !! p = files fs !! p)
  /\ (forall file,
        In file filesToBackup ->
        files fs' !! join skillPath file = files fs !! join skillPath file)
  /\ backupDir skillPath ∈ dirs fs'
  /\ backupPath skillPath iso ∈ dirs fs'
  /\ dirs fs ⊆ dirs fs'.
Proof. apply backup_effect. Qed.

(** X29.  The folder of a backup is named after the date alone, so
    two backups of one day share a folder and the later one replaces
    what the earlier one stored: for a time stamp DATE T TIME whose
    date part holds no T, colon or dot, a backup that returns leaves the
    current contents of each of the four files that exist in the
    folder [backup-DATE], where any other backup of that day put
    them. *)
Theorem same_day_backup_replaces skillPath date time time' fs fs' file content :
  Js.free_of "T" date = true ->
  Js.free_of ":" date = true ->
  Js.free_of "." date = true ->
  backupExistingSkill skillPath (date ++ "T" ++ time) fs = (Returned tt, fs') ->
  In file filesToBackup ->
  files fs !! join skillPath file = Some content ->
  backupPath skillPath (date ++ "T" ++ time)
  = join (backupDir skillPath) ("backup-" ++ date)
  /\ backupPath skillPath (date ++ "T" ++ time')
     = backupPath skillPath (date ++ "T" ++ time)
  /\ files fs' !! join (backupPath skillPath (date ++ "T" ++ time')) file
     = Some content.
Proof.
  intros HT Hc Hd Hrun Hin Hsrc.
  assert (Hpath : forall t, backupPath skillPath (date ++ "T" ++ t)
                            = join (backupDir skillPath) ("backup-" ++ date)).
  { intros t. unfold backupPath. rewrite timestamp_of_date by assumption.
    reflexivity. }
  split; [apply Hpath|]. split; [rewrite !Hpath; reflexivity|].
  rewrite (Hpath time'), <- (Hpath time).
  destruct (backup_effect _ _ _ _ Hrun) as [Hcopy _]. auto.
Qed.

(** *** The update as a whole *)

Section UpdateSkill.

Variables Knowledge ExplorationData Analysis : Type.
Variable parseJson : string -> Outcome Knowledge.
Variable baseUrl : Knowledge -> option string.
Variable explore : option string -> Op FS ExplorationData.
Variable analyze : ExplorationData -> Op FS Analysis.
Variable generate : Analysis -> Op FS unit.
Variable mergeKnowledge : Knowledge -> Analysis -> Outcome Analysis.
Variable generateUpdateSummary : Knowledge -> Analysis -> string.

Abbreviation updateSkill :=
  (updateSkill Knowledge ExplorationData Analysis parseJson baseUrl explore
               analyze generate mergeKnowledge generateUpdateSummary).

(** X30.  The order of an update.  The calls [updateSkill] makes are
    an initial part of: explore, analyze, back up, generate.  The
    generator is called only after a merge and a backup that both
    returned, on the file system the backup left, in which the backup
    folder holds a copy of each of the four files the skill folder had
    when the backup began; an update that returns has called the
    generator.  When the skill folder does not exist, or holds no file
    [app-knowledge.json], the update throws without any call and
    without touching the file system. *)
Theorem update_backs_up_before_generating skillPath targetUrl iso fs r w' :
  updateSkill skillPath targetUrl iso {| fs_of := fs; calls := [] |} = (r, w') ->
  (exists n, calls w'
             = firstn n [CallExplore; CallAnalyze; CallBackup; CallGenerate])
  /\ (In CallGenerate (calls w') ->
      exists existing analysis merged fs2 fs3 rg,
        mergeKnowledge existing analysis = Returned merged
        /\ backupExistingSkill skillPath iso fs2 = (Returned tt, fs3)
        /\ generate merged fs3 = (rg, fs_of w')
        /\ forall file content,
             In file filesToBackup ->
             files fs2 !! join skillPath file = Some content ->
             files fs3 !! join (backupPath skillPath iso) file = Some content)
  /\ (r <> Thrown -> In CallGenerate (calls w'))
  /\ (is_file fs skillPath || is_dir fs skillPath = false
      \/ files fs !! join skillPath "app-knowledge.json" = None ->
      r = Thrown /\ w' = {| fs_of := fs; calls := [] |}).
Proof.
  unfold Backup.updateSkill. intros H.
  unfold bind at 1, quiet at 1, existsSync at 1 in H. cbn [fs_of calls] in H.
  destruct (is_file fs skillPath || is_dir fs skillPath) eqn:Hskill;
    cbn [negb] in H.
  2: { injection H as <- <-. simpl.
       split; [exists 0; reflexivity|]. split; [intros []|].
       split; [congruence|]. auto. }
  unfold bind at 1, quiet at 1, existsSync at 1 in H. cbn [fs_of calls] in H.
  destruct (is_file fs (join skillPath "app-knowledge.json")
            || is_dir fs (join skillPath "app-knowledge.json")) eqn:Hknow;
    cbn [negb] in H.
  2: { injection H as <- <-. simpl.
       split; [exists 0; reflexivity|]. split; [intros []|].
       split; [congruence|]. auto. }
  unfold bind at 1, quiet at 1, readFileSync at 1 in H. cbn [fs_of calls] in H.
  destruct (files fs !! join skillPath "app-knowledge.json") as [text|] eqn:Htext.
  2: { injection H as <- <-. simpl.
       split; [exists 0; reflexivity|]. split; [intros []|].
       split; [congruence|]. auto. }
  unfold bind at 1, await at 1 in H.
  destruct (parseJson text) as [|existing].
  { injection H as <- <-. simpl.
    split; [exists 0; reflexivity|]. split; [intros []|].
    split; [congruence|]. intros [[=]|[=]]. }
  unfold bind at 1, logged at 1 in H. cbn [fs_of calls] in H.
  match type of H with context [explore ?u fs] =>
    destruct (explore u fs) as [[|data] fs1] end.
  { injection H as <- <-. simpl.
    split; [exists 1; reflexivity|].
    split; [intros [[=]|[]]|]. split; [congruence|]. intros [[=]|[=]]. }
  unfold bind at 1, logged at 1 in H. cbn [fs_of calls app] in H.
  destruct (analyze data fs1) as [[|analysis] fs2].
  { injection H as <- <-. simpl.
    split; [exists 2; reflexivity|].
    split; [intros [[=]|[[=]|[]]]|]. split; [congruence|]. intros [[=]|[=]]. }
  unfold bind at 1, await at 1 in H.
  destruct (mergeKnowledge existing analysis) as [|merged] eqn:Hmerge.
  { injection H as <- <-. simpl.
    split; [exists 2; reflexivity|].
    split; [intros [[=]|[[=]|[]]]|]. split; [congruence|]. intros [[=]|[=]]. }
  unfold bind at 1, logged at 1 in H. cbn [fs_of calls app] in H.
  destruct (backupExistingSkill skillPath iso fs2) as [[|[]] fs3] eqn:Hbackup.
  { injection H as <- <-. simpl.
    split; [exists 3; reflexivity|].
    split; [intros [[=]|[[=]|[[=]|[]]]]|]. split; [congruence|].
    intros [[=]|[=]]. }
  unfold bind at 1, logged at 1 in H. cbn [fs_of calls app] in H.
  destruct (generate merged fs3) as [rg fs4] eqn:Hgen.
  assert (Hw : calls w' = [CallExplore; CallAnalyze; CallBackup; CallGenerate]
               /\ fs_of w' = fs4 /\ (r <> Thrown -> True)).
  { destruct rg as [|[]]; [injection H as <- <-; auto|].
    unfold ret in H. injection H as <- <-. auto. }
  destruct Hw as (Hcalls & Hfs & _).
  split; [exists 4; exact Hcalls|].
  split; [|split].
  - intros _. exists existing, analysis, merged, fs2, fs3, rg.
    rewrite Hfs. repeat split; try assumption.
    destruct (backup_effect _ _ _ _ Hbackup) as [Hcopy _]. exact Hcopy.
  - intros _. rewrite Hcalls. simpl. auto.
  - intros [[=]|[=]].
Qed.

End UpdateSkill.

Lemma backup_example :
  backupExistingSkill "/skills/app-testing" "2026-01-15T10:30:00.000Z"
    BackupExamples.before
  = (Returned tt, BackupExamples.after).
Proof. vm_compute. reflexivity. Qed.

Lemma backup_copies_witness :
  backupExistingSkill "/skills/app-testing" "2026-01-15T10:30:00.000Z"
    BackupExamples.before
  = (Returned tt, BackupExamples.after)
  /\ backupPath "/skills/app-testing" "2026-01-15T10:30:00.000Z"
     ∈ dirs BackupExamples.after.
Proof.
  split; [exact backup_example|].
  exact (proj1 (proj2 (proj2 (proj2 (proj2 (proj2
           (backup_copies _ _ _ _ backup_example))))))).
Defined.

Lemma same_day_backup_replaces_witness :
  files BackupExamples.before !! join "/skills/app-testing" "SKILL.md"
  = Some "# app"
  /\ files BackupExamples.after
       !! join (backupPath "/skills/app-testing" ("2026-01-15" ++ "T" ++ "08:00:00.000Z"))
               "SKILL.md"
     = Some "# app".
Proof.
  assert (H : files BackupExamples.before !! join "/skills/app-testing" "SKILL.md"
              = Some "# app") by (vm_compute; reflexivity).
  split; [exact H|].
  exact (proj2 (proj2
           (same_day_backup_replaces "/skills/app-testing" "2026-01-15"
              "10:30:00.000Z" "08:00:00.000Z" BackupExamples.before
              BackupExamples.after "SKILL.md" "# app"
              eq_refl eq_refl eq_refl backup_example
              (or_introl eq_refl) H))).
Defined.

Lemma update_example :
  updateSkill unit unit unit
    (fun _ => Returned tt) (fun _ => None)
    (fun _ fs => (Returned tt, fs)) (fun _ fs => (Returned tt, fs))
    (fun _ fs => (Returned tt, fs))
    (fun _ analysis => Returned analysis) (fun _ _ => "1 new pages discovered")
    "/skills/app-testing" None "2026-01-15T10:30:00.000Z"
    {| fs_of := BackupExamples.before; calls := [] |}
  = (fst BackupExamples.updated, snd BackupExamples.updated).
Proof. vm_compute. reflexivity. Qed.

Lemma update_backs_up_before_generating_witness :
  updateSkill unit unit unit
    (fun _ => Returned tt) (fun _ => None)
    (fun _ fs => (Returned tt, fs)) (fun _ fs => (Returned tt, fs))
    (fun _ fs => (Returned tt, fs))
    (fun _ analysis => Returned analysis) (fun _ _ => "1 new pages discovered")
    "/skills/app-testing" None "2026-01-15T10:30:00.000Z"
    {| fs_of := BackupExamples.before; calls := [] |}
  = (fst BackupExamples.updated, snd BackupExamples.updated)
  /\ exists n, calls (snd BackupExamples.updated)
               = firstn n [CallExplore; CallAnalyze; CallBackup; CallGenerate].
Proof.
  split; [exact update_example|].
  exact (proj1 (update_backs_up_before_generating unit unit unit
                  _ _ _ _ _ _ _ _ _ _ _ _ _ update_example)).
Defined.

End BackupFacts.
